(** * Lesion-wise evaluation metrics (eval.py): a shallow embedding

    The program scores a predicted 3D segmentation against a ground truth,
    per tissue sub-region.  An array is modelled by its voxels in storage
    order: every operation the program performs on a volume is elementwise
    or a reduction.  Label and component values are integers.  Binary64
    quantities are Rocq's primitive floats, which are IEEE 754 binary64. *)

From Stdlib Require Import ZArith Lia Floats Ascii.
From stdpp Require Import gmap strings list sorting.

Open Scope Z_scope.

(** ** Exceptions *)

Inductive exn : Type :=
| ValueError (msg : string)
| ZeroDivisionError.

(** A computation either raises or returns. *)
Abbreviation result := (sum exn).

Definition raise {A} (e : exn) : result A := inl e.

#[global] Instance result_ret : MRet result := λ A x, inr x.
#[global] Instance result_bind : MBind result :=
  λ A B f m, match m with inl e => inl e | inr x => f x end.

(** ** Binary64 values *)

(** Conversion of an integer to binary64, rounding to nearest even (what
    numpy does when an [int64] meets a [float64]). *)
Definition Z2F (z : Z) : float := SF2Prim (binary_normalize prec emax z 0 false).

(** [sys.float_info.min], the smallest positive normal binary64. *)
Definition float_min : float := 0x1p-1022%float.

(** ** numpy primitives on flattened arrays *)

Module np.

(** [np.zeros_like(a)] *)
Definition zeros_like (a : list Z) : list Z := (λ _, 0) <$> a.

(** The array an in-place masked write leaves behind: [np.place(arr, mask, v)]
    and [arr[mask] = v], with a scalar [v]. *)
Definition place (arr : list Z) (mask : list bool) (v : Z) : list Z :=
  zip_with (λ x (b : bool), if b then v else x) arr mask.

(** A comparison of an array with a scalar ([a == c], [a != c], [a > 0]),
    and [np.isin(a, ids)] when [cond] tests membership. *)
Definition where_ (cond : Z → bool) (a : list Z) : list bool := cond <$> a.

(** [a[mask]]: the elements selected by a boolean mask, in order. *)
Definition select (a : list Z) (mask : list bool) : list Z :=
  fst <$> filter (λ xb, snd xb = true) (zip a mask).

(** [np.sum] of an integer-valued array.  The counts summed in this program
    are bounded by the number of voxels, so the accumulator never wraps. *)
Definition sum (a : list Z) : Z := foldr Z.add 0 a.

(** [mask.sum()] and [np.count_nonzero(mask)] of a boolean array. *)
Definition count_nonzero (mask : list bool) : Z :=
  Z.of_nat (length (filter (λ b, b = true) mask)).

(** [np.max(a)]; numpy refuses a zero-size array. *)
Definition max (a : list Z) : result Z :=
  match a with
  | [] => raise (ValueError "zero-size array to reduction operation maximum which has no identity")
  | x :: a' => mret (foldr Z.max x a')
  end.

(** [np.unique(a)]: the distinct values, ascending. *)
Definition unique (a : list Z) : list Z := remove_dups (merge_sort Z.le a).

(** Elementwise product.  Wherever the program multiplies two arrays one
    factor is a 0/1 mask, so the product never leaves the element type. *)
Definition multiply (a b : list Z) : list Z := zip_with Z.mul a b.

(** Elementwise sum of two arrays of unsigned [w]-bit integers. *)
Definition add (w : Z) (a b : list Z) : list Z :=
  zip_with (λ x y, (x + y) mod 2 ^ w) a b.

(** [a.astype(bool)] *)
Definition astype_bool (a : list Z) : list bool := where_ (λ x, negb (x =? 0)) a.

(** [np.logical_and(a, b)] *)
Definition logical_and (a b : list bool) : list bool := zip_with andb a b.

End np.

(** An array with its shape, for the one place where the program looks at it. *)
Record ndarray : Type := mk_ndarray { shape : list nat; data : list Z }.

(** ** dice (eval.py, lines 10-33) *)

Definition dice (im1 im2 : ndarray) : result float :=
  let im1' := np.astype_bool (data im1) in
  let im2' := np.astype_bool (data im2) in
  if decide (shape im1 ≠ shape im2) then
    raise (ValueError "Shape mismatch: im1 and im2 must have the same shape.")
  else
    let intersection := np.logical_and im1' im2' in
    mret (2 * Z2F (np.count_nonzero intersection)
            / Z2F (np.count_nonzero im1' + np.count_nonzero im2'))%float.

(** ** The object store

    [np.place] writes into the array object it is given, so the arrays that
    [get_TissueWiseSeg] receives live in a store of array objects addressed
    by identity. *)

Definition loc := nat.
Abbreviation heap := (gmap loc (list Z)).

(** [np.place(a, cond(a), v)] for the array object at [l]: the mask is read
    from the object's current contents and the object is overwritten. *)
Definition np_place (l : loc) (cond : Z → bool) (v : Z) (h : heap) : heap :=
  alter (λ a, np.place a (np.where_ cond a) v) l h.

(** ** get_TissueWiseSeg (eval.py, lines 35-74) *)

Definition not_in_WT (x : Z) : bool := negb (x =? 1) && negb (x =? 2) && negb (x =? 3).
Definition not_in_TC (x : Z) : bool := negb (x =? 1) && negb (x =? 3).
Definition not_in_ET (x : Z) : bool := negb (x =? 3).
Definition positive_label (x : Z) : bool := 0 <? x.

Definition get_TissueWiseSeg (prediction_matrix gt_matrix : loc)
    (tissue_type : string) (h : heap) : (loc * loc) * heap :=
  if decide (tissue_type = "WT") then
    let h := np_place prediction_matrix not_in_WT 0 h in
    let h := np_place prediction_matrix positive_label 1 h in
    let h := np_place gt_matrix not_in_WT 0 h in
    let h := np_place gt_matrix positive_label 1 h in
    ((prediction_matrix, gt_matrix), h)
  else if decide (tissue_type = "TC") then
    let h := np_place prediction_matrix not_in_TC 0 h in
    let h := np_place prediction_matrix positive_label 1 h in
    let h := np_place gt_matrix not_in_TC 0 h in
    let h := np_place gt_matrix positive_label 1 h in
    ((prediction_matrix, gt_matrix), h)
  else if decide (tissue_type = "ET") then
    let h := np_place prediction_matrix not_in_ET 0 h in
    let h := np_place prediction_matrix positive_label 1 h in
    let h := np_place gt_matrix not_in_ET 0 h in
    let h := np_place gt_matrix positive_label 1 h in
    ((prediction_matrix, gt_matrix), h)
  else
    ((prediction_matrix, gt_matrix), h).

(** What the two writes of one branch leave in one array. *)
Definition binarize (outside : Z → bool) (a : list Z) : list Z :=
  let a := np.place a (np.where_ outside a) 0 in
  np.place a (np.where_ positive_label a) 1.

Definition tissue_rule (tissue_type : string) (a : list Z) : list Z :=
  if decide (tissue_type = "WT") then binarize not_in_WT a
  else if decide (tissue_type = "TC") then binarize not_in_TC a
  else if decide (tissue_type = "ET") then binarize not_in_ET a
  else a.

(** The mask of a label volume for one tissue type, computed by
    [get_TissueWiseSeg] on two fresh copies of the volume. *)
Definition mask_of (tissue_type : string) (volume : list Z) : option (list Z) :=
  let '(p, _, h) := get_TissueWiseSeg 0%nat 1%nat tissue_type
                      (<[1%nat := volume]> {[0%nat := volume]}) in
  h !! p.

(** A [for] loop whose body may raise. *)
Fixpoint for_each {A S} (body : S → A → result S) (xs : list A) (s : S) : result S :=
  match xs with
  | [] => mret s
  | x :: xs => s' ← body s x; for_each body xs s'
  end.

(** ** get_GTseg_combinedByDilation (eval.py, lines 77-109)

    The component maps come from the labeller as unsigned [w]-bit arrays.
    In the program both are maps of one volume and have its shape; here
    they are the voxels in storage order, and one size stands for one
    shape.  Maps of different sizes are aligned as numpy aligns vectors: an
    elementwise operation needs one of them to be a single element (which
    is repeated), and raises [ValueError] otherwise. *)

(** How numpy aligns the two operands of an elementwise operation. *)
Definition np_broadcast (a b : list Z) : result (list Z * list Z) :=
  if decide (length a = length b) then mret (a, b)
  else match a, b with
       | [x], _ => mret (replicate (length b) x, b)
       | _, [y] => mret (a, replicate (length a) y)
       | _, _ => raise (ValueError "operands could not be broadcast together")
       end.

(** [acc += term]: the sum must have the shape of [acc]. *)
Definition np_iadd (w : Z) (acc term : list Z) : result (list Z) :=
  '(acc', term') ← np_broadcast acc term;
  if decide (length acc' = length acc) then mret (np.add w acc' term')
  else raise (ValueError "non-broadcastable output operand").

(** The body of the loop over dilated components (lines 100-107). *)
Definition dilation_step (w : Z) (gt_dilated_cc_mat gt_label_cc : list Z)
    (gt_seg_combinedByDilation_mat : list Z) (comp : Z) : result (list Z) :=
  let gt_d_tmp := np.zeros_like gt_dilated_cc_mat in
  let gt_d_tmp := np.place gt_d_tmp (np.where_ (λ x, x =? comp) gt_dilated_cc_mat) 1 in
  '(gt_label_cc', gt_d_tmp') ← np_broadcast gt_label_cc gt_d_tmp;
  let gt_d_tmp := np.multiply gt_label_cc' gt_d_tmp' in
  let gt_d_tmp := np.place gt_d_tmp (np.where_ (λ x, 0 <? x) gt_d_tmp) comp in
  np_iadd w gt_seg_combinedByDilation_mat gt_d_tmp.

(** The array added to the output in the iteration for [comp], when the two
    maps have one size. *)
Definition dilation_term (gt_dilated_cc_mat gt_label_cc : list Z)
    (comp : Z) : list Z :=
  let gt_d_tmp := np.zeros_like gt_dilated_cc_mat in
  let gt_d_tmp := np.place gt_d_tmp (np.where_ (λ x, x =? comp) gt_dilated_cc_mat) 1 in
  let gt_d_tmp := np.multiply gt_label_cc gt_d_tmp in
  np.place gt_d_tmp (np.where_ (λ x, 0 <? x) gt_d_tmp) comp.

(** The value of that array at a voxel whose dilated component is [d] and
    whose original component is [l]. *)
Definition term_at (comp d l : Z) : Z :=
  let x := l * (if d =? comp then 1 else 0) in
  if 0 <? x then comp else x.

Definition get_GTseg_combinedByDilation (w : Z)
    (gt_dilated_cc_mat gt_label_cc : list Z) : result (list Z) :=
  m ← np.max gt_dilated_cc_mat;
  for_each (dilation_step w gt_dilated_cc_mat gt_label_cc) (seqZ 1 m)
    (np.zeros_like gt_dilated_cc_mat).

(** ** get_sensitivity_and_specificity (eval.py, lines 239-258)

    The masks are [float64] arrays holding 0.0 and 1.0, so [np.sum] of one
    is the binary64 image of its integer sum. *)

Definition get_sensitivity_and_specificity (result_array target_array : list Z)
    : float * float :=
  let iC := Z2F (np.sum result_array) in
  let rC := Z2F (np.sum target_array) in
  let overlap := zip_with (λ r t, if r =? t then 1 else 0) result_array target_array in
  let TP := np.sum (np.select overlap (np.where_ (λ x, x =? 1) result_array)) in
  let FP := (iC - Z2F TP)%float in
  let FN := (rC - Z2F TP)%float in
  let TN := np.count_nonzero
              (np.logical_and (np.where_ (λ x, negb (x =? 1)) result_array)
                              (np.where_ (λ x, negb (x =? 1)) target_array)) in
  let Sens := (1 * Z2F TP / (Z2F TP + FN + float_min))%float in
  let Spec := (1 * Z2F TN / (Z2F TN + FP + float_min))%float in
  let Sens := if ((iC =? 0) && (rC =? 0))%float then 1%float else Sens in
  (Sens, Spec).

(** ** get_LesionWiseScores (eval.py, lines 112-236) *)

Abbreviation spacing := (float * float * float)%type.

(** One row of [metric_pairs]. *)
Record metric_pair : Type := mk_metric_pair {
  predicted_lesion_numbers : list Z;
  gt_lesion_numbers : Z;
  gt_lesion_vol : float;
  dice_lesionwise : float;
  hd95_lesionwise : float
}.

(** The four lists the lesion loop appends to. *)
Record matches : Type := mk_matches {
  gt_tp : list Z;
  tp : list Z;
  fn : list Z;
  metric_pairs : list metric_pair
}.

(** The tuple [get_LesionWiseScores] returns. *)
Record scores : Type := mk_scores {
  lesions : matches;
  fp : list Z;
  full_dice : float;
  full_gt_vol : float;
  full_pred_vol : float;
  full_sens : float;
  full_specs : float
}.

(** [np.isin(a, ids)] and [np.isin(a, ids, invert=True)] *)
Definition isin (ids : list Z) (x : Z) : bool := bool_decide (x ∈ ids).
Definition not_isin (ids : list Z) (x : Z) : bool := bool_decide (x ∉ ids).

(** Lines 199-200: the 0/1 mask of the merged lesion [gtcomp]. *)
Definition lesion_mask (gt_label_cc : list Z) (gtcomp : Z) : list Z :=
  let gt_tmp := np.zeros_like gt_label_cc in
  np.place gt_tmp (np.where_ (λ x, x =? gtcomp) gt_label_cc) 1.

(** Lines 206-209: the predicted component ids that meet that mask. *)
Definition intersecting_ids (pred_label_cc gt_label_cc : list Z) (gtcomp : Z)
    : list Z :=
  let pred_tmp := pred_label_cc in
  let pred_tmp := np.multiply pred_tmp (lesion_mask gt_label_cc gtcomp) in
  let intersecting_cc := np.unique pred_tmp in
  filter (λ x, x ≠ 0) intersecting_cc.

(** Lines 214-216: the 0/1 mask of the predicted components that meet the
    merged lesion [gtcomp]. *)
Definition matched_mask (pred_label_cc gt_label_cc : list Z) (gtcomp : Z) : list Z :=
  let intersecting_cc := intersecting_ids pred_label_cc gt_label_cc gtcomp in
  let pred_tmp := pred_label_cc in
  let pred_tmp := np.place pred_tmp (np.where_ (not_isin intersecting_cc) pred_tmp) 0 in
  np.place pred_tmp (np.where_ (isin intersecting_cc) pred_tmp) 1.

(** Line 143: [sx, sy, sz = pred_nii.header.get_zooms()].  Unpacking a tuple
    that does not have exactly three entries raises. *)
Definition unpack_zooms (zooms : list float) : result spacing :=
  match zooms with
  | [sx; sy; sz] => mret (sx, sy, sz)
  | [] => raise (ValueError "not enough values to unpack (expected 3, got 0)")
  | [_] => raise (ValueError "not enough values to unpack (expected 3, got 1)")
  | [_; _] => raise (ValueError "not enough values to unpack (expected 3, got 2)")
  | _ => raise (ValueError "too many values to unpack (expected 3)")
  end.

Section Externals.

(** The collaborators: [cc3d.connected_components(_, connectivity=26)],
    [scipy.ndimage.binary_dilation] with the 18-neighbourhood structure and
    one iteration, and [compute_robust_hausdorff(compute_surface_distances
    (gt, pred, spacing), 95)]. *)
Variable connected_components : list Z → list Z.
Variable binary_dilation : list Z → list Z.
Variable robust_hausdorff95 : ndarray → ndarray → spacing → float.

(** The body of the loop over merged ground-truth lesions (lines 195-230);
    [shp] is the common shape of the two component maps. *)
Definition lesion_step (shp : list nat) (pred_label_cc gt_label_cc : list Z)
    (zooms : spacing) (acc : matches) (gtcomp : Z) : result matches :=
  let '(sx, sy, sz) := zooms in
  let gt_tmp := np.zeros_like gt_label_cc in
  let gt_tmp := np.place gt_tmp (np.where_ (λ x, x =? gtcomp) gt_label_cc) 1 in
  let gt_vol := (Z2F (np.sum gt_tmp) * sx * sy * sz)%float in
  let pred_tmp := pred_label_cc in
  let pred_tmp := np.multiply pred_tmp gt_tmp in
  let intersecting_cc := np.unique pred_tmp in
  let intersecting_cc := filter (λ x, x ≠ 0) intersecting_cc in
  let tp := tp acc ++ intersecting_cc in
  let pred_tmp := pred_label_cc in
  let pred_tmp := np.place pred_tmp (np.where_ (not_isin intersecting_cc) pred_tmp) 0 in
  let pred_tmp := np.place pred_tmp (np.where_ (isin intersecting_cc) pred_tmp) 1 in
  dice_score ← dice (mk_ndarray shp pred_tmp) (mk_ndarray shp gt_tmp);
  let hd := robust_hausdorff95 (mk_ndarray shp gt_tmp) (mk_ndarray shp pred_tmp) zooms in
  let metric_pairs :=
    metric_pairs acc ++ [mk_metric_pair intersecting_cc gtcomp gt_vol dice_score hd] in
  if bool_decide (0 < length intersecting_cc)%nat then
    mret (mk_matches (gt_tp acc ++ [gtcomp]) tp (fn acc) metric_pairs)
  else
    mret (mk_matches (gt_tp acc) tp (fn acc ++ [gtcomp]) metric_pairs).

(** The lesion-by-lesion comparison (lines 186-234). *)
Definition lesion_by_lesion (shp : list nat) (pred_label_cc gt_label_cc : list Z)
    (zooms : spacing) : result (matches * list Z) :=
  m ← np.max gt_label_cc;
  acc ← for_each (lesion_step shp pred_label_cc gt_label_cc zooms) (seqZ 1 m)
         (mk_matches [] [] [] []);
  let fp := np.unique (np.select pred_label_cc
                         (np.where_ (not_isin (tp acc ++ [0])) pred_label_cc)) in
  mret (acc, fp).

(** Lines 154-236: everything after the tissue masks are made. *)
Definition score_masks (w : Z) (pred_shape gt_shape : list nat)
    (pred_mat gt_mat : list Z) (zooms : spacing) : result scores :=
  let '(sx, sy, sz) := zooms in
  full_dice ← dice (mk_ndarray pred_shape pred_mat) (mk_ndarray gt_shape gt_mat);
  let '(full_sens, full_specs) := get_sensitivity_and_specificity pred_mat gt_mat in
  let full_gt_vol := (Z2F (np.sum gt_mat) * sx * sy * sz)%float in
  let full_pred_vol := (Z2F (np.sum pred_mat) * sx * sy * sz)%float in
  let gt_mat_cc := connected_components gt_mat in
  let pred_mat_cc := connected_components pred_mat in
  let gt_mat_dilation := binary_dilation gt_mat in
  let gt_mat_dilation_cc := connected_components gt_mat_dilation in
  gt_mat_combinedByDilation ← get_GTseg_combinedByDilation w gt_mat_dilation_cc gt_mat_cc;
  let gt_label_cc := gt_mat_combinedByDilation in
  let pred_label_cc := pred_mat_cc in
  '(acc, fp) ← lesion_by_lesion pred_shape pred_label_cc gt_label_cc zooms;
  mret (mk_scores acc fp full_dice full_gt_vol full_pred_vol full_sens full_specs).

(** [pred_nii] and [gt_nii] are the arrays [get_fdata] returns, fresh objects
    on every call; [zooms] is the tuple [pred_nii.header.get_zooms()], one
    spacing per axis of the prediction; [w] is the width of the labeller's
    element type. *)
Definition get_LesionWiseScores (w : Z) (pred_nii gt_nii : ndarray)
    (zooms : list float) (label_value : string) : result scores :=
  zooms ← unpack_zooms zooms;
  let '(pred_mat, gt_mat, h) :=
    get_TissueWiseSeg 0%nat 1%nat label_value
      (<[1%nat := data gt_nii]> {[0%nat := data pred_nii]}) in
  let pred_mat := default [] (h !! pred_mat) in
  let gt_mat := default [] (h !! gt_mat) in
  score_masks w (shape pred_nii) (shape gt_nii) pred_mat gt_mat zooms.

End Externals.

(** ** get_LesionWiseResults (eval.py, lines 262-339) *)

(** What [np.sum] of a column and the arithmetic after it work on: a Python
    [int] or a numpy [float64]. *)
Inductive pynum : Type :=
| PyInt (n : Z)
| NpFloat64 (x : float).

(** [a + n] for a Python [int] [n]. *)
Definition pynum_add_int (a : pynum) (n : Z) : pynum :=
  match a with
  | PyInt k => PyInt (k + n)
  | NpFloat64 x => NpFloat64 (x + Z2F n)
  end.

(** [a / n] for a Python [int] [n]: between two Python [int]s a zero divisor
    raises; a numpy [float64] dividend follows IEEE 754 (and warns). *)
Definition truediv (a : pynum) (n : Z) : result float :=
  match a with
  | PyInt k => if n =? 0 then raise ZeroDivisionError else mret (Z2F k / Z2F n)%float
  | NpFloat64 x => mret (x / Z2F n)%float
  end.

(** [try: ... except: ...] around an expression. *)
Definition try_except {A} (body : result A) (handler : A) : A :=
  match body with inr v => v | inl _ => handler end.

(** *** Column sums

    [np.sum] of a column is the column's own [sum], which pandas computes
    with [nansum]: every missing value (NaN) is replaced by 0 and numpy's
    [sum] is called on the [float64] values.

    numpy adds the values of an array pairwise ([DOUBLE_pairwise_sum] in
    loops_utils.h.src): fewer than eight values one after the other; from 8
    to 128 values in eight running sums [r[0]], ..., [r[7]], the value at
    position [i] going to [r[i % 8]], which are then added as a balanced
    tree, and the up to seven values left over are added one after the
    other; more than 128 values in two parts, split at the multiple of eight
    just below the middle. *)

(** The loop over blocks of eight, the tree of the running sums and the
    loop over the rest. *)
Fixpoint DOUBLE_pairwise_block (r0 r1 r2 r3 r4 r5 r6 r7 : float) (a : list float)
    : float :=
  match a with
  | a0 :: a1 :: a2 :: a3 :: a4 :: a5 :: a6 :: a7 :: a' =>
      DOUBLE_pairwise_block (r0 + a0) (r1 + a1) (r2 + a2) (r3 + a3)
                            (r4 + a4) (r5 + a5) (r6 + a6) (r7 + a7) a'
  | _ =>
      foldl PrimFloat.add (((r0 + r1) + (r2 + r3)) + ((r4 + r5) + (r6 + r7)))%float a
  end.

(** [z] is the zero a sum starts from: -0.0 (numpy before version 1.25
    starts from 0.0).  The recursion on halves is bounded by [fuel]; the
    length of [a] is enough. *)
Fixpoint DOUBLE_pairwise_sum (z : float) (fuel : nat) (a : list float) : float :=
  match a with
  | a0 :: a1 :: a2 :: a3 :: a4 :: a5 :: a6 :: a7 :: a' =>
      if decide (length a ≤ 128)%nat then
        DOUBLE_pairwise_block a0 a1 a2 a3 a4 a5 a6 a7 a'
      else
        match fuel with
        | O => z
        | S fuel =>
            let n2 := (length a / 2)%nat in
            let n2 := (n2 - n2 mod 8)%nat in
            (DOUBLE_pairwise_sum z fuel (take n2 a)
             + DOUBLE_pairwise_sum z fuel (drop n2 a))%float
        end
  | _ => foldl PrimFloat.add z a
  end.

(** [a.sum()] for a one-dimensional [float64] array: the reduction starts
    from [z] and adds the pairwise sum to it; the sum of no value is 0.0. *)
Definition np_sum_float64 (z : float) (a : list float) : float :=
  match a with
  | [] => 0%float
  | _ :: _ => (z + DOUBLE_pairwise_sum z (length a) a)%float
  end.

(** pandas' [nansum] of a [float64] column. *)
Definition nansum (col : list float) : float :=
  np_sum_float64 neg_zero ((λ x, if is_nan x then 0%float else x) <$> col).

(** [np.sum(df[col])] for a frame [df] of rows selected from [metric_df]: the
    columns of a frame built from no rows at all have dtype [object], whose
    empty sum is the Python [int] 0; otherwise they are [float64]. *)
Definition column_sum (metric_df df : list metric_pair) (col : metric_pair → float)
    : pynum :=
  match metric_df with
  | [] => PyInt 0
  | _ :: _ => NpFloat64 (nansum (col <$> df))
  end.

(** [sort_values(by=['gt_lesion_numbers'])] *)
Definition by_gt_lesion_numbers (r1 r2 : metric_pair) : Prop :=
  gt_lesion_numbers r1 ≤ gt_lesion_numbers r2.

#[global] Instance by_gt_lesion_numbers_dec : RelDecision by_gt_lesion_numbers :=
  λ r1 r2, decide (gt_lesion_numbers r1 ≤ gt_lesion_numbers r2).

(** [replace(np.inf, 374)] on one value and on one row (its three [float64]
    columns). *)
Definition replace_inf (x : float) : float :=
  if (x =? infinity)%float then 374%float else x.

Definition replace_row (r : metric_pair) : metric_pair :=
  mk_metric_pair (predicted_lesion_numbers r) (gt_lesion_numbers r)
    (replace_inf (gt_lesion_vol r)) (replace_inf (dice_lesionwise r))
    (replace_inf (hd95_lesionwise r)).

(** [metric_df] after line 294. *)
Definition metric_df_of (metric_pairs : list metric_pair) : list metric_pair :=
  replace_row <$> merge_sort by_gt_lesion_numbers metric_pairs.

(** [metric_df[metric_df['gt_lesion_vol'] > 5]] *)
Definition thresh5 (metric_df : list metric_pair) : list metric_pair :=
  filter (λ r, (5 <? gt_lesion_vol r)%float = true) metric_df.

Record metrics_dict : Type := mk_metrics_dict {
  Num_GT_TP : nat;
  Num_TP : nat;
  Num_FP : nat;
  Num_FN : nat;
  Sensitivity : float;
  Specificity : float;
  Complete_Dice : float;
  GT_Complete_Volume : float;
  LesionWise_Score_Dice : float;
  LesionWise_Score_HD95 : float
}.

Definition lesion_wise_dice (metric_df : list metric_pair) (fp : list Z) : float :=
  let metric_df_thresh5 := thresh5 metric_df in
  try_except
    (truediv (column_sum metric_df metric_df_thresh5 dice_lesionwise)
             (Z.of_nat (length metric_df_thresh5) + Z.of_nat (length fp)))
    nan.

Definition lesion_wise_hd95 (metric_df : list metric_pair) (fp : list Z) : float :=
  let metric_df_thresh5 := thresh5 metric_df in
  try_except
    (truediv (pynum_add_int (column_sum metric_df metric_df_thresh5 hd95_lesionwise)
                            (Z.of_nat (length fp) * 374))
             (Z.of_nat (length metric_df_thresh5) + Z.of_nat (length fp)))
    nan.

(** The body of the loop over tissue types, after the call of
    [get_LesionWiseScores] (lines 288-320): the per-lesion frame that is
    appended to [final_lesionwise_metrics_df], and the row of the report. *)
Definition tissue_metrics (s : scores) : list metric_pair * metrics_dict :=
  let metric_df := metric_df_of (metric_pairs (lesions s)) in
  (metric_df,
   mk_metrics_dict
     (length (gt_tp (lesions s)))
     (length (tp (lesions s)))
     (length (fp s))
     (length (fn (lesions s)))
     (full_sens s) (full_specs s) (full_dice s) (full_gt_vol s)
     (lesion_wise_dice metric_df (fp s))
     (lesion_wise_hd95 metric_df (fp s))).

Definition label_values : list string := ["WT"; "TC"; "ET"].

Section Report.

Variable connected_components : list Z → list Z.
Variable binary_dilation : list Z → list Z.
Variable robust_hausdorff95 : ndarray → ndarray → spacing → float.

(** The files are read anew for every tissue type, so [load] is called with
    the same path three times and yields fresh arrays each time. *)
Definition get_LesionWiseResults (w : Z) (pred_nii gt_nii : ndarray)
    (zooms : list float)
    : result (list (string * list metric_pair) * list (string * metrics_dict)) :=
  for_each
    (λ '(final_lesionwise_metrics_df, final_metrics_dict) l,
       s ← get_LesionWiseScores connected_components binary_dilation
              robust_hausdorff95 w pred_nii gt_nii zooms l;
       let '(metric_df, metrics_dict) := tissue_metrics s in
       mret (final_lesionwise_metrics_df ++ [(l, metric_df)],
             final_metrics_dict ++ [(l, metrics_dict)]))
    label_values ([], []).

End Report.

(** ** The results file (eval.py, lines 336-339)

    The report is written next to the prediction, under a name made from
    the prediction's file name.  Paths are POSIX paths, as byte strings. *)

(** [s.rfind(c)]: the highest index of [c] in [s], or -1. *)
Fixpoint rfind (s : string) (c : Ascii.ascii) : Z :=
  match s with
  | EmptyString => -1
  | String a s' =>
      let r := rfind s' c in
      if 0 <=? r then r + 1 else if Ascii.eqb a c then 0 else -1
  end.

(** [s.rstrip(c)] *)
Fixpoint rstrip (s : string) (c : Ascii.ascii) : string :=
  match s with
  | EmptyString => EmptyString
  | String a s' =>
      match rstrip s' c with
      | EmptyString => if Ascii.eqb a c then EmptyString else String a EmptyString
      | r => String a r
      end
  end.

(** [c * n] *)
Fixpoint str_repeat (c : Ascii.ascii) (n : nat) : string :=
  match n with O => EmptyString | S n => String c (str_repeat c n) end.

(** [s.split(c)[0]] *)
Fixpoint split_0 (s : string) (c : Ascii.ascii) : string :=
  match s with
  | EmptyString => EmptyString
  | String a s' => if Ascii.eqb a c then EmptyString else String a (split_0 s' c)
  end.

(** [os.path.split(p)] as [posixpath] has it: the path is cut after its last
    slash, and trailing slashes are stripped from the head unless the head
    consists of slashes only. *)
Definition os_path_split (p : string) : string * string :=
  let sep := "/"%char in
  let i := Z.to_nat (rfind p sep + 1) in
  let head := String.substring 0 i p in
  let tail := String.substring i (String.length p - i) p in
  let head :=
    if bool_decide (head ≠ "" ∧ head ≠ str_repeat sep (String.length head))
    then rstrip head sep else head in
  (head, tail).

(** The path handed to [to_csv]. *)
Definition results_csv (pred_file : string) : string :=
  (os_path_split pred_file).1 +:+ "/" +:+
  split_0 (os_path_split pred_file).2 "." +:+ "_results.csv".

(** ** Reference definitions, in the words of the specification *)

(** The foreground labels of a tissue type. *)
Definition spec_foreground (tissue_type : string) : list Z :=
  if decide (tissue_type = "WT") then [1; 2; 3]
  else if decide (tissue_type = "TC") then [1; 3]
  else if decide (tissue_type = "ET") then [3]
  else [].

(** Voxels whose label is in the foreground set become 1, all others 0. *)
Definition spec_mask (tissue_type : string) (volume : list Z) : list Z :=
  (λ x, if bool_decide (x ∈ spec_foreground tissue_type) then 1 else 0) <$> volume.

(** A predicted component [c] overlaps the merged lesion [g]: some voxel
    carries [c] in the prediction map and [g] in the merged map. *)
Definition overlaps (pred_label_cc gt_label_cc : list Z) (c g : Z) : Prop :=
  Exists (λ pq, pq.1 = c ∧ pq.2 = g) (zip pred_label_cc gt_label_cc).

(** The character [c] occurs in the string [s]. *)
Definition occurs (c : Ascii.ascii) (s : string) : Prop :=
  c ∈ String.list_ascii_of_string s.

(** The number of occurrences of [c] in a list of ids. *)
Definition occurrences (c : Z) (ids : list Z) : nat :=
  length (filter (λ x, x = c) ids).

(** The physical volume of the merged lesion [g]: the number of its voxels
    times the three spacings. *)
Definition lesion_volume (gt_label_cc : list Z) (sx sy sz : float) (g : Z) : float :=
  (Z2F (Z.of_nat (occurrences g gt_label_cc)) * sx * sy * sz)%float.

(** The merged lesion [g] is detected: one of its voxels carries a nonzero
    predicted component. *)
Definition detected (pred_label_cc gt_label_cc : list Z) (g : Z) : Prop :=
  Exists (λ pq, pq.1 ≠ 0 ∧ pq.2 = g) (zip pred_label_cc gt_label_cc).

#[global] Instance detected_dec pred gt g : Decision (detected pred gt g) :=
  Exists_dec (λ pq, pq.1 ≠ 0 ∧ pq.2 = g) (zip pred gt).

(** The distinct nonzero predicted components. *)
Definition predicted_components (pred_label_cc : list Z) : list Z :=
  filter (λ c, c ≠ 0) (remove_dups pred_label_cc).

(** |a|: the number of voxels of a mask that are set (nonzero). *)
Definition mask_size (a : list Z) : Z :=
  Z.of_nat (length (filter (λ x, x ≠ 0) a)).

(** |a∧b|: the number of voxels set in both masks. *)
Definition overlap_size (a b : list Z) : Z :=
  Z.of_nat (length (filter (λ pq, pq.1 ≠ 0 ∧ pq.2 ≠ 0) (zip a b))).

(** The number of voxels equal to 1 in both masks, and the number of voxels
    where both differ from 1. *)
Definition count_both_one (result target : list Z) : Z :=
  Z.of_nat (length (filter (λ pq, pq.1 = 1 ∧ pq.2 = 1) (zip result target))).

Definition count_neither_one (result target : list Z) : Z :=
  Z.of_nat (length (filter (λ pq, pq.1 ≠ 1 ∧ pq.2 ≠ 1) (zip result target))).

(** What one row of [metric_pairs] records about its lesion. *)
Definition lesion_row (pred gt : list Z) (zooms : spacing) (g : Z) (r : metric_pair)
    : Prop :=
  gt_lesion_numbers r = g ∧
  predicted_lesion_numbers r = intersecting_ids pred gt g ∧
  gt_lesion_vol r =
    (Z2F (np.sum (lesion_mask gt g)) * zooms.1.1 * zooms.1.2 * zooms.2)%float.

(** What one row of [metric_pairs] records about its lesion beyond that:
    the Dice score and the Hausdorff distance of the lesion's mask against
    the mask of the predicted components that meet it. *)
Definition lesion_scores (robust_hausdorff95 : ndarray → ndarray → spacing → float)
    (shp : list nat) (pred gt : list Z) (zooms : spacing) (g : Z) (r : metric_pair)
    : Prop :=
  dice (mk_ndarray shp (matched_mask pred gt g)) (mk_ndarray shp (lesion_mask gt g))
    = inr (dice_lesionwise r) ∧
  hd95_lesionwise r =
    robust_hausdorff95 (mk_ndarray shp (lesion_mask gt g))
      (mk_ndarray shp (matched_mask pred gt g)) zooms.

(** *** What a column sum is

    The reference for [nansum], by positions instead of loops. *)

#[global] Instance float_inhabited : Inhabited float := populate 0%float.

(** The values of [a] at the positions j, j+8, j+16, ... below the last
    multiple of eight, added in this order. *)
Definition strided_sum (a : list float) (j : nat) : float :=
  foldl (λ s i, (s + a !!! (j + 8 * i)%nat)%float) (a !!! j)
        (seq 1 (length a / 8 - 1)).

(** The same over the first [k] blocks of eight only. *)
Definition lane_upto (a : list float) (j k : nat) : float :=
  foldl (λ s i, (s + a !!! (j + 8 * i)%nat)%float) (a !!! j) (seq 1 (k - 1)).

(** [pairwise_total a t]: [t] is the pairwise sum of the values [a], of
    which there is at least one. *)
Inductive pairwise_total : list float → float → Prop :=
| pairwise_total_small a0 a :
    (length (a0 :: a) < 8)%nat →
    pairwise_total (a0 :: a) (foldl PrimFloat.add a0 a)
| pairwise_total_block a :
    (8 ≤ length a ≤ 128)%nat →
    pairwise_total a
      (foldl PrimFloat.add
         (((strided_sum a 0 + strided_sum a 1) + (strided_sum a 2 + strided_sum a 3))
          + ((strided_sum a 4 + strided_sum a 5) + (strided_sum a 6 + strided_sum a 7)))%float
         (drop (8 * (length a / 8)) a))
| pairwise_total_split a t1 t2 :
    (128 < length a)%nat →
    pairwise_total (take (length a / 2 - (length a / 2) mod 8) a) t1 →
    pairwise_total (drop (length a / 2 - (length a / 2) mod 8) a) t2 →
    pairwise_total a (t1 + t2)%float.

(** [column_total col t]: [t] is the sum of the column [col], a missing
    value counting as 0; the sum of an empty column is 0.0. *)
Definition column_total (col : list float) (t : float) : Prop :=
  (col = [] ∧ t = 0%float) ∨
  (col ≠ [] ∧ pairwise_total ((λ x, if is_nan x then 0%float else x) <$> col) t).

(** A small case used in examples: predicted component 1 meets the merged
    lesions 1 and 2, predicted component 2 meets none; unit spacing; a
    Hausdorff primitive that answers 0. *)
Definition example_pred_cc : list Z := [1; 1; 1; 0; 2].
Definition example_gt_cc : list Z := [1; 0; 2; 0; 0].
Definition example_zooms : spacing := (1%float, 1%float, 1%float).
Definition example_hd95 : ndarray → ndarray → spacing → float := λ _ _ _, 0%float.

(** A case with three merged lesions in a volume of shape (2, 2, 3): lesion 1
    has six voxels and meets predicted component 1, lesion 2 has one voxel
    and is predicted component 2, lesion 3 has one voxel and is missed;
    predicted component 3 meets no lesion. *)
Definition example_lesions_pred : list Z := [1; 1; 1; 0; 0; 0; 0; 2; 0; 0; 0; 3].
Definition example_lesions_gt : list Z := [1; 1; 1; 1; 1; 1; 0; 2; 0; 3; 0; 0].

(** Stand-ins for the labeller and the dilation in examples: on a volume
    whose foreground is one connected component that fills its own
    neighbourhood, both return the mask itself. *)
Definition example_components : list Z → list Z := λ a, a.
Definition example_dilation : list Z → list Z := λ a, a.
Definition example_pred_nii : ndarray := mk_ndarray [1%nat; 1%nat; 3%nat] [1; 0; 3].
Definition example_gt_nii : ndarray := mk_ndarray [1%nat; 1%nat; 3%nat] [1; 2; 0].
Definition example_header_zooms : list float := [1%float; 1%float; 1%float].

(** Two small masks used in examples. *)
Definition example_result : list Z := [1; 0; 0; 1].
Definition example_target : list Z := [1; 1; 0; 0].

(** ** Auxiliary notions for binary64 reasoning *)

(** A specification float that is not negative (NaN counts). *)
Definition sf_nonneg (s : spec_float) : Prop :=
  match s with
  | S754_zero true | S754_infinity true | S754_finite true _ _ => False
  | _ => True
  end.

(** A positive normal binary64 number with mantissa [m] and exponent [e]. *)
Definition normal53 (x : float) (m : positive) (e : Z) : Prop :=
  Prim2SF x = S754_finite false m e ∧ Zpos (digits2_pos m) = 53.

(** * Properties *)

(** ** Array primitives *)

Lemma length_zeros_like a : length (np.zeros_like a) = length a.
Proof. apply length_fmap. Qed.

Lemma length_where cond a : length (np.where_ cond a) = length a.
Proof. apply length_fmap. Qed.

Lemma length_place arr mask v :
  length mask = length arr → length (np.place arr mask v) = length arr.
Proof. intros H. unfold np.place. rewrite length_zip_with. lia. Qed.

Lemma lookup_place arr mask v i :
  np.place arr mask v !! i =
    x ← arr !! i; b ← mask !! i; Some (if b : bool then v else x).
Proof. unfold np.place. by rewrite lookup_zip_with. Qed.

(** Writing under a mask computed from the array itself is a map. *)
Lemma place_where cond a v :
  np.place a (np.where_ cond a) v = (λ x, if cond x then v else x) <$> a.
Proof.
  unfold np.place, np.where_. induction a as [|x a IH]; csimpl; [done|].
  by f_equal.
Qed.

(** ** Tissue masks *)

Lemma binarize_fmap outside a :
  binarize outside a =
    (λ x, if outside x then 0 else if positive_label x then 1 else x) <$> a.
Proof.
  unfold binarize. rewrite !place_where, <- list_fmap_compose.
  apply list_fmap_ext. intros _ x _. simpl.
  destruct (outside x); [done|]. by destruct (positive_label x).
Qed.

Lemma np_place_twice l outside h :
  np_place l positive_label 1 (np_place l outside 0 h) = alter (binarize outside) l h.
Proof. unfold np_place. by rewrite alter_alter_eq. Qed.

(** The store after the call, whatever the two objects are. *)
Lemma get_TissueWiseSeg_heap p g t h :
  get_TissueWiseSeg p g t h =
    ((p, g), alter (tissue_rule t) g (alter (tissue_rule t) p h)).
Proof.
  unfold get_TissueWiseSeg, tissue_rule.
  repeat case_decide; rewrite ?np_place_twice; try done.
  f_equal. symmetry. rewrite !alter_id; done.
Qed.

Lemma tissue_rule_spec t a :
  t ∈ label_values → tissue_rule t a = spec_mask t a.
Proof.
  unfold label_values. rewrite !elem_of_cons, elem_of_nil.
  intros [->|[->|[->|[]]]]; unfold tissue_rule, spec_mask, spec_foreground; simpl;
    rewrite binarize_fmap; apply list_fmap_ext; intros _ x _;
    unfold not_in_WT, not_in_TC, not_in_ET, positive_label;
    case_bool_decide as Hx; rewrite ?elem_of_cons, elem_of_nil in Hx;
    destruct (Z.eqb_spec x 1), (Z.eqb_spec x 2), (Z.eqb_spec x 3),
             (Z.ltb_spec 0 x); simpl; first [done | lia | tauto].
Qed.

Lemma mask_of_rule t volume : mask_of t volume = Some (tissue_rule t volume).
Proof.
  unfold mask_of. rewrite get_TissueWiseSeg_heap.
  rewrite lookup_alter_ne by done. rewrite lookup_alter_eq.
  rewrite lookup_insert_ne by done. by rewrite lookup_singleton_eq.
Qed.

(** C8: for a label volume with labels in {0,1,2,3}, the three tissue masks
    that [get_TissueWiseSeg] computes, each from its own copy of the volume,
    are nested voxel by voxel: a voxel set to 1 for ET is set to 1 for TC,
    and a voxel set to 1 for TC is set to 1 for WT. *)
Theorem tissue_masks_nested (volume : list Z) :
  Forall (λ x, 0 ≤ x ≤ 3) volume →
  ∃ et tc wt,
    mask_of "ET" volume = Some et ∧
    mask_of "TC" volume = Some tc ∧
    mask_of "WT" volume = Some wt ∧
    ∀ i, (et !! i = Some 1 → tc !! i = Some 1) ∧
         (tc !! i = Some 1 → wt !! i = Some 1).
Proof.
  intros _. exists (tissue_rule "ET" volume), (tissue_rule "TC" volume),
    (tissue_rule "WT" volume).
  rewrite !mask_of_rule. repeat split; try done.
  all: rewrite !tissue_rule_spec by (unfold label_values; repeat constructor).
  all: unfold spec_mask, spec_foreground; simpl; rewrite !list_lookup_fmap.
  all: destruct (volume !! i) as [x|]; simpl; [|done].
  all: repeat case_bool_decide; try done.
  all: rewrite ?elem_of_cons, ?elem_of_nil in *; tauto.
Qed.

Lemma tissue_masks_nested_witness :
  Forall (λ x, 0 ≤ x ≤ 3) [0; 1; 2; 3] ∧
  ∃ et tc wt,
    mask_of "ET" [0; 1; 2; 3] = Some et ∧
    mask_of "TC" [0; 1; 2; 3] = Some tc ∧
    mask_of "WT" [0; 1; 2; 3] = Some wt ∧
    ∀ i, (et !! i = Some 1 → tc !! i = Some 1) ∧
         (tc !! i = Some 1 → wt !! i = Some 1).
Proof.
  assert (H : Forall (λ x, 0 ≤ x ≤ 3) [0; 1; 2; 3]) by (repeat constructor; lia).
  split; [exact H | exact (tissue_masks_nested [0; 1; 2; 3] H)].
Defined.

(** C9, as the program has it: [get_TissueWiseSeg] returns the two array
    objects it was given and overwrites both in place.  When they are two
    distinct objects and the tissue type is one of WT, TC, ET, each ends up
    holding the 0/1 mask of its own previous contents, and no other object
    of the store changes. *)
Theorem get_TissueWiseSeg_in_place (h : heap) (p g : loc) (t : string)
    (a b : list Z) :
  t ∈ label_values → p ≠ g → h !! p = Some a → h !! g = Some b →
  ∃ h', get_TissueWiseSeg p g t h = ((p, g), h') ∧
        h' !! p = Some (spec_mask t a) ∧
        h' !! g = Some (spec_mask t b) ∧
        ∀ l, l ≠ p → l ≠ g → h' !! l = h !! l.
Proof.
  intros Ht Hpg Hp Hg. eexists. split; [apply get_TissueWiseSeg_heap|].
  repeat split.
  - rewrite lookup_alter_ne by done. rewrite lookup_alter_eq, Hp. simpl.
    by rewrite tissue_rule_spec.
  - rewrite lookup_alter_eq, lookup_alter_ne, Hg by done. simpl.
    by rewrite tissue_rule_spec.
  - intros l Hl1 Hl2. by rewrite !lookup_alter_ne.
Qed.

Lemma get_TissueWiseSeg_in_place_witness :
  ∃ h', get_TissueWiseSeg 0%nat 1%nat "ET"
          (<[1%nat := [1; 0; 3]]> {[0%nat := [2; 3; 0]]}) = ((0%nat, 1%nat), h') ∧
        h' !! 0%nat = Some (spec_mask "ET" [2; 3; 0]) ∧
        h' !! 1%nat = Some (spec_mask "ET" [1; 0; 3]) ∧
        ∀ l, l ≠ 0%nat → l ≠ 1%nat →
             h' !! l = (<[1%nat := [1; 0; 3]]> {[0%nat := [2; 3; 0]]} : heap) !! l.
Proof.
  refine (get_TissueWiseSeg_in_place _ 0%nat 1%nat "ET" [2; 3; 0] [1; 0; 3] _ _ _ _).
  - unfold label_values. repeat constructor.
  - discriminate.
  - reflexivity.
  - reflexivity.
Defined.

(** C9, as stated, fails: after the call the caller's prediction array no
    longer holds its labels. *)
Lemma get_TissueWiseSeg_overwrites_input :
  (<[1%nat := [1; 0; 3]]> {[0%nat := [2; 3; 0]]} : heap) !! 0%nat = Some [2; 3; 0] ∧
  (get_TissueWiseSeg 0%nat 1%nat "ET"
     (<[1%nat := [1; 0; 3]]> {[0%nat := [2; 3; 0]]})).2 !! 0%nat = Some [0; 1; 0].
Proof. split; reflexivity. Qed.

(** When both arguments are one and the same object the rule is applied to
    it twice; for ET that erases the mask. *)
Lemma get_TissueWiseSeg_aliased :
  (get_TissueWiseSeg 0%nat 0%nat "ET" {[0%nat := [2; 3; 0]]}).2 !! 0%nat
  = Some [0; 0; 0].
Proof. reflexivity. Qed.

(** C10: for a tissue type other than WT, TC and ET, [get_TissueWiseSeg]
    returns its two arguments and leaves the store as it was, raising
    nothing; [get_LesionWiseScores] then scores the raw label volumes (once
    the spacing tuple is unpacked, which does not depend on the tissue
    type). *)
Theorem get_TissueWiseSeg_unrecognized (t : string) :
  t ∉ label_values →
  (∀ p g h, get_TissueWiseSeg p g t h = ((p, g), h)) ∧
  (∀ cc dil hd w pred_nii gt_nii zooms,
     get_LesionWiseScores cc dil hd w pred_nii gt_nii zooms t =
     (z ← unpack_zooms zooms;
      score_masks cc dil hd w (shape pred_nii) (shape gt_nii)
        (data pred_nii) (data gt_nii) z)) ∧
  (∀ cc dil hd w pred_nii gt_nii sx sy sz,
     get_LesionWiseScores cc dil hd w pred_nii gt_nii [sx; sy; sz] t =
     score_masks cc dil hd w (shape pred_nii) (shape gt_nii)
       (data pred_nii) (data gt_nii) (sx, sy, sz)).
Proof.
  unfold label_values. rewrite !not_elem_of_cons. intros (H1 & H2 & H3 & _).
  assert (Hh : ∀ p g h, get_TissueWiseSeg p g t h = ((p, g), h)).
  { intros p g h. unfold get_TissueWiseSeg. by rewrite !decide_False. }
  assert (Hs : ∀ cc dil hd w pred_nii gt_nii zooms,
     get_LesionWiseScores cc dil hd w pred_nii gt_nii zooms t =
     (z ← unpack_zooms zooms;
      score_masks cc dil hd w (shape pred_nii) (shape gt_nii)
        (data pred_nii) (data gt_nii) z)).
  { intros cc dil hd w pred_nii gt_nii zooms. unfold get_LesionWiseScores.
    destruct (unpack_zooms zooms) as [e|z]; [done|]. cbn [mbind result_bind].
    rewrite Hh.
    rewrite lookup_insert_ne by done. rewrite lookup_singleton_eq, lookup_insert_eq.
    done. }
  split; [exact Hh|]. split; [exact Hs|].
  intros cc dil hd w pred_nii gt_nii sx sy sz. by rewrite Hs.
Qed.

Lemma get_TissueWiseSeg_unrecognized_witness :
  ("wt" ∉ label_values) ∧
  (∀ p g h, get_TissueWiseSeg p g "wt" h = ((p, g), h)) ∧
  (∀ cc dil hd w pred_nii gt_nii zooms,
     get_LesionWiseScores cc dil hd w pred_nii gt_nii zooms "wt" =
     (z ← unpack_zooms zooms;
      score_masks cc dil hd w (shape pred_nii) (shape gt_nii)
        (data pred_nii) (data gt_nii) z)) ∧
  (∀ cc dil hd w pred_nii gt_nii sx sy sz,
     get_LesionWiseScores cc dil hd w pred_nii gt_nii [sx; sy; sz] "wt" =
     score_masks cc dil hd w (shape pred_nii) (shape gt_nii)
       (data pred_nii) (data gt_nii) (sx, sy, sz)).
Proof.
  assert (H : "wt" ∉ label_values).
  { unfold label_values. rewrite !not_elem_of_cons. repeat split; try discriminate.
    apply not_elem_of_nil. }
  split; [exact H | exact (get_TissueWiseSeg_unrecognized "wt" H)].
Defined.

(** ** Merging ground-truth components by dilation *)

Lemma foldr_max_spec x a :
  (foldr Z.max x a = x ∨ foldr Z.max x a ∈ a) ∧ x ≤ foldr Z.max x a ∧
  ∀ y, y ∈ a → y ≤ foldr Z.max x a.
Proof.
  induction a as [|y a (IH1 & IH2 & IH3)]; simpl.
  - split; [by left|]. split; [lia|]. intros y Hy. by apply elem_of_nil in Hy.
  - split; [|split].
    + destruct (Z.max_spec y (foldr Z.max x a)) as [[_ ->]|[_ ->]].
      * destruct IH1 as [->|IH1]; [by left|]. right. by apply list_elem_of_further.
      * right. apply list_elem_of_here.
    + lia.
    + intros z Hz. apply elem_of_cons in Hz as [->|Hz]; [lia|].
      specialize (IH3 z Hz). lia.
Qed.

Lemma np_max_spec a m :
  np.max a = inr m → m ∈ a ∧ ∀ x, x ∈ a → x ≤ m.
Proof.
  destruct a as [|x a]; [done|]. intros [= <-].
  destruct (foldr_max_spec x a) as (H1 & H2 & H3). split.
  - destruct H1 as [->|H1]; [apply list_elem_of_here|by apply list_elem_of_further].
  - intros y Hy. apply elem_of_cons in Hy as [->|Hy]; [done|by apply H3].
Qed.

Lemma dilation_term_lookup dil lab c i d l :
  dil !! i = Some d → lab !! i = Some l →
  dilation_term dil lab c !! i = Some (term_at c d l).
Proof.
  intros Hd Hl. unfold dilation_term. rewrite place_where, list_lookup_fmap.
  unfold np.multiply. rewrite lookup_zip_with, Hl. simpl.
  rewrite lookup_place. unfold np.zeros_like, np.where_.
  rewrite !list_lookup_fmap, Hd. simpl. unfold term_at.
  by destruct (d =? c).
Qed.

Lemma length_dilation_term dil lab c :
  length dil = length lab → length (dilation_term dil lab c) = length dil.
Proof.
  intros H. unfold dilation_term. rewrite place_where, length_fmap.
  unfold np.multiply. rewrite length_zip_with, length_place.
  - rewrite length_zeros_like. lia.
  - by rewrite length_where, length_zeros_like.
Qed.

Lemma term_at_unsigned c d l :
  0 ≤ l → term_at c d l = if (d =? c) && (0 <? l) then c else 0.
Proof.
  intros Hl. unfold term_at.
  destruct (Z.eqb_spec d c); simpl.
  - rewrite Z.mul_1_r. destruct (Z.ltb_spec 0 l); [done|lia].
  - by rewrite Z.mul_0_r.
Qed.

(** The accumulation, seen at one voxel. *)
Lemma merge_fold_lookup w dil lab cs acc i d l v :
  dil !! i = Some d → lab !! i = Some l → acc !! i = Some v →
  foldl (λ a c, np.add w a (dilation_term dil lab c)) acc cs !! i =
    Some (foldl (λ v c, (v + term_at c d l) mod 2 ^ w) v cs).
Proof.
  intros Hd Hl. revert acc v. induction cs as [|c cs IH]; intros acc v Hv; [done|].
  simpl. apply IH. unfold np.add.
  by rewrite lookup_zip_with, Hv, (dilation_term_lookup _ _ _ _ d l).
Qed.

Lemma length_merge_fold w dil lab cs acc :
  length dil = length lab → length acc = length dil →
  length (foldl (λ a c, np.add w a (dilation_term dil lab c)) acc cs) = length dil.
Proof.
  intros H. revert acc. induction cs as [|c cs IH]; intros acc Hacc; [done|].
  simpl. apply IH. unfold np.add.
  rewrite length_zip_with, length_dilation_term by done. lia.
Qed.

(** At most one of the terms for 1..n is nonzero at a voxel, so the sum is
    that term. *)
Lemma merge_scalar_sum w d l n :
  0 ≤ l → 0 ≤ d < 2 ^ w →
  foldl (λ v c, (v + term_at c d l) mod 2 ^ w) 0 (seqZ 1 (Z.of_nat n)) =
    if (0 <? l) && (1 <=? d) && (d <=? Z.of_nat n) then d else 0.
Proof.
  intros Hl Hd. induction n as [|n IH].
  - rewrite seqZ_nil by done. simpl.
    destruct (0 <? l), (Z.leb_spec 1 d), (Z.leb_spec d (Z.of_nat 0));
      simpl; try done; lia.
  - rewrite seqZ_S, foldl_app, IH. simpl. rewrite term_at_unsigned by done.
    destruct (Z.ltb_spec 0 l), (Z.leb_spec 1 d), (Z.leb_spec d (Z.of_nat n)),
             (Z.leb_spec d (Z.of_nat (S n))), (Z.eqb_spec d (1 + Z.of_nat n));
      simpl; try lia; rewrite ?Z.add_0_r, ?Z.add_0_l;
      rewrite Z.mod_small; lia.
Qed.

(** For two maps of one size nothing is raised, and the loop is a fold of
    additions of [dilation_term]. *)
Lemma np_broadcast_same a b : length a = length b → np_broadcast a b = inr (a, b).
Proof. intros H. unfold np_broadcast. by rewrite decide_True. Qed.

Lemma dilation_step_same w dil lab acc c :
  length dil = length lab → length acc = length dil →
  dilation_step w dil lab acc c = inr (np.add w acc (dilation_term dil lab c)).
Proof.
  intros Hlen Hacc. unfold dilation_step.
  rewrite np_broadcast_same
    by (rewrite length_place, length_zeros_like;
        [done|by rewrite length_where, length_zeros_like]).
  cbn [mbind result_bind]. fold (dilation_term dil lab c).
  unfold np_iadd. rewrite np_broadcast_same
    by (rewrite length_dilation_term by done; lia).
  cbn [mbind result_bind]. by rewrite decide_True.
Qed.

Lemma for_each_dilation_step w dil lab cs : ∀ acc,
  length dil = length lab → length acc = length dil →
  for_each (dilation_step w dil lab) cs acc =
    inr (foldl (λ a c, np.add w a (dilation_term dil lab c)) acc cs).
Proof.
  induction cs as [|c cs IH]; intros acc Hlen Hacc; [done|].
  cbn [for_each foldl]. rewrite dilation_step_same by done.
  cbn [mbind result_bind]. apply IH; [done|].
  unfold np.add. rewrite length_zip_with, length_dilation_term by done. lia.
Qed.

Lemma combinedByDilation_same_size w dil lab m :
  length dil = length lab → np.max dil = inr m →
  get_GTseg_combinedByDilation w dil lab =
    inr (foldl (λ a c, np.add w a (dilation_term dil lab c)) (np.zeros_like dil)
           (seqZ 1 m)).
Proof.
  intros Hlen Hm. unfold get_GTseg_combinedByDilation. rewrite Hm.
  cbn [mbind result_bind]. apply for_each_dilation_step; [done|].
  apply length_zeros_like.
Qed.

Lemma combinedByDilation_lookup w dil lab m i d l :
  Forall (λ x, 0 ≤ x < 2 ^ w) dil → Forall (λ x, 0 ≤ x < 2 ^ w) lab →
  np.max dil = inr m → dil !! i = Some d → lab !! i = Some l →
  foldl (λ a c, np.add w a (dilation_term dil lab c)) (np.zeros_like dil) (seqZ 1 m) !! i
  = Some (if (0 <? l) && (1 <=? d) then d else 0).
Proof.
  intros Hdil Hlab Hm Hd Hl.
  destruct (np_max_spec _ _ Hm) as [Hin Hle].
  pose proof (Forall_lookup_1 _ _ _ _ Hdil Hd) as Hdr. simpl in Hdr.
  pose proof (Forall_lookup_1 _ _ _ _ Hlab Hl) as Hlr. simpl in Hlr.
  assert (d ≤ m) as Hdm.
  { apply Hle. eapply list_elem_of_lookup_2; eauto. }
  rewrite (merge_fold_lookup w dil lab _ _ i d l 0); try done.
  - f_equal. replace m with (Z.of_nat (Z.to_nat m)) by lia.
    rewrite merge_scalar_sum by lia.
    destruct (0 <? l), (Z.leb_spec 1 d), (Z.leb_spec d (Z.of_nat (Z.to_nat m)));
      simpl; try done; lia.
  - unfold np.zeros_like. by rewrite list_lookup_fmap, Hd.
Qed.

(** C2: the dilated component map [dil] gives every voxel one component id,
    so its components are pairwise voxel-disjoint.  When every nonzero voxel
    of the original map [lab] lies in some dilated component, the merged map
    is zero exactly where [lab] is zero and carries the id of the dilated
    component elsewhere; at most one loop term is nonzero at a voxel, the
    output there is that term, and it lies in 1..max(dil). *)
Theorem combinedByDilation_relabels (w : Z) (dil lab : list Z) (m : Z) :
  length dil = length lab →
  Forall (λ x, 0 ≤ x < 2 ^ w) dil →
  Forall (λ x, 0 ≤ x < 2 ^ w) lab →
  (∀ i d l, dil !! i = Some d → lab !! i = Some l → l ≠ 0 → d ≠ 0) →
  np.max dil = inr m →
  ∃ out,
    get_GTseg_combinedByDilation w dil lab = inr out ∧
    length out = length dil ∧
    (∀ i d l, dil !! i = Some d → lab !! i = Some l →
       ∃ x, out !! i = Some x ∧ (x = 0 ↔ l = 0) ∧ (l ≠ 0 → x = d)) ∧
    (∀ i c c' v v',
       dilation_term dil lab c !! i = Some v → v ≠ 0 →
       dilation_term dil lab c' !! i = Some v' → v' ≠ 0 → c = c') ∧
    (∀ i x, out !! i = Some x → x ≠ 0 →
       1 ≤ x ≤ m ∧ dilation_term dil lab x !! i = Some x).
Proof.
  intros Hlen Hdil Hlab Hin Hm.
  destruct (np_max_spec _ _ Hm) as [_ Hle].
  eexists. split; [by apply combinedByDilation_same_size|].
  assert (Hterm : ∀ i c v, dilation_term dil lab c !! i = Some v → v ≠ 0 →
            dil !! i = Some c ∧ v = c ∧ ∃ l, lab !! i = Some l ∧ 0 < l).
  { intros i c v Hv Hv0.
    assert (i < length dil)%nat as Hi.
    { apply lookup_lt_Some in Hv. by rewrite length_dilation_term in Hv. }
    destruct (lookup_lt_is_Some_2 dil i Hi) as [d Hd].
    destruct (lookup_lt_is_Some_2 lab i ltac:(lia)) as [l Hl].
    rewrite (dilation_term_lookup _ _ _ _ d l) in Hv by done.
    pose proof (Forall_lookup_1 _ _ _ _ Hlab Hl) as Hlr. simpl in Hlr.
    rewrite term_at_unsigned in Hv by lia.
    destruct (Z.eqb_spec d c), (Z.ltb_spec 0 l); simpl in Hv;
      injection Hv as <-; try done.
    subst d. eauto. }
  split; [|split; [|split]].
  - apply length_merge_fold; [done|apply length_zeros_like].
  - intros i d l Hd Hl.
    pose proof (Forall_lookup_1 _ _ _ _ Hdil Hd) as Hdr. simpl in Hdr.
    pose proof (Forall_lookup_1 _ _ _ _ Hlab Hl) as Hlr. simpl in Hlr.
    eexists. split; [by apply (combinedByDilation_lookup w dil lab m i d l)|].
    specialize (Hin i d l Hd Hl).
    destruct (Z.ltb_spec 0 l), (Z.leb_spec 1 d); simpl; split; lia.
  - intros i c c' v v' Hv Hv0 Hv' Hv0'.
    destruct (Hterm _ _ _ Hv Hv0) as [Hc _].
    destruct (Hterm _ _ _ Hv' Hv0') as [Hc' _]. congruence.
  - intros i x Hx Hx0.
    assert (i < length dil)%nat as Hi.
    { apply lookup_lt_Some in Hx.
      rewrite length_merge_fold in Hx; [done|done|apply length_zeros_like]. }
    destruct (lookup_lt_is_Some_2 dil i Hi) as [d Hd].
    destruct (lookup_lt_is_Some_2 lab i ltac:(lia)) as [l Hl].
    pose proof (Forall_lookup_1 _ _ _ _ Hlab Hl) as Hlr. simpl in Hlr.
    rewrite (combinedByDilation_lookup w dil lab m i d l) in Hx by done.
    assert (d ≤ m) by (apply Hle; eapply list_elem_of_lookup_2; eauto).
    destruct (Z.ltb_spec 0 l), (Z.leb_spec 1 d); simpl in Hx;
      injection Hx as <-; try done.
    split; [lia|].
    rewrite (dilation_term_lookup _ _ _ _ d l) by done.
    rewrite term_at_unsigned by lia. rewrite Z.eqb_refl.
    by destruct (Z.ltb_spec 0 l); [|lia].
Qed.

Lemma combinedByDilation_relabels_witness :
  ∃ out,
    get_GTseg_combinedByDilation 16 [1; 1; 1; 0; 2] [1; 0; 2; 0; 3] = inr out ∧
    length out = length [1; 1; 1; 0; 2] ∧
    (∀ i d l, [1; 1; 1; 0; 2] !! i = Some d → [1; 0; 2; 0; 3] !! i = Some l →
       ∃ x, out !! i = Some x ∧ (x = 0 ↔ l = 0) ∧ (l ≠ 0 → x = d)) ∧
    (∀ i c c' v v',
       dilation_term [1; 1; 1; 0; 2] [1; 0; 2; 0; 3] c !! i = Some v → v ≠ 0 →
       dilation_term [1; 1; 1; 0; 2] [1; 0; 2; 0; 3] c' !! i = Some v' → v' ≠ 0 →
       c = c') ∧
    (∀ i x, out !! i = Some x → x ≠ 0 →
       1 ≤ x ≤ 2 ∧ dilation_term [1; 1; 1; 0; 2] [1; 0; 2; 0; 3] x !! i = Some x).
Proof.
  apply (combinedByDilation_relabels 16 [1; 1; 1; 0; 2] [1; 0; 2; 0; 3] 2).
  - reflexivity.
  - repeat constructor; lia.
  - repeat constructor; lia.
  - intros [|[|[|[|[|i]]]]] d l; simpl; intros [= <-] [= <-]; lia.
  - reflexivity.
Defined.

(** Two original components (1 and 2) inside one dilated component (1) get
    one id; the component in dilated component 2 is relabelled 2. *)
Example combinedByDilation_merges :
  get_GTseg_combinedByDilation 16 [1; 1; 1; 0; 2] [1; 0; 2; 0; 3]
  = inr [1; 0; 1; 0; 2].
Proof. reflexivity. Qed.

(** ** Lesion matching *)

Lemma elem_of_unique a x : x ∈ np.unique a ↔ x ∈ a.
Proof.
  unfold np.unique. rewrite elem_of_remove_dups.
  by rewrite (merge_sort_Permutation Z.le a).
Qed.

Lemma NoDup_unique a : NoDup (np.unique a).
Proof. apply NoDup_remove_dups. Qed.

Lemma select_where (f : Z → bool) a :
  np.select a (np.where_ f a) = filter (λ x, f x = true) a.
Proof.
  unfold np.select, np.where_. induction a as [|x a IH]; [done|].
  csimpl. rewrite filter_cons, (filter_cons _ x). simpl.
  destruct (decide (f x = true)); csimpl; by rewrite IH.
Qed.

Lemma lesion_mask_fmap gt g :
  lesion_mask gt g = (λ q, if q =? g then 1 else 0) <$> gt.
Proof.
  unfold lesion_mask, np.place, np.zeros_like, np.where_.
  induction gt as [|q gt IH]; csimpl; [done|]. by rewrite IH.
Qed.

Lemma overlaps_lookup pred gt c g :
  overlaps pred gt c g ↔ ∃ i, pred !! i = Some c ∧ gt !! i = Some g.
Proof.
  unfold overlaps. rewrite Exists_exists. split.
  - intros ([p q] & Hin & Hp & Hq). simpl in *. subst.
    apply list_elem_of_lookup in Hin as [i Hi].
    apply lookup_zip_Some in Hi. eauto.
  - intros (i & Hp & Hq). exists (c, g). split; [|done].
    apply list_elem_of_lookup. exists i. by apply lookup_zip_Some.
Qed.

Lemma elem_of_intersecting_ids pred gt g c :
  c ∈ intersecting_ids pred gt g ↔ c ≠ 0 ∧ overlaps pred gt c g.
Proof.
  unfold intersecting_ids. rewrite list_elem_of_filter, elem_of_unique.
  rewrite overlaps_lookup, lesion_mask_fmap. unfold np.multiply.
  rewrite elem_of_lookup_zip_with. split.
  - intros (Hc & i & p & o & Hpo & Hp & Ho). split; [done|].
    rewrite list_lookup_fmap in Ho. destruct (gt !! i) as [q|] eqn:Hq; [|done].
    simpl in Ho. injection Ho as <-. exists i.
    destruct (Z.eqb_spec q g); [|lia]. subst. split; [|done].
    rewrite Hp. f_equal. lia.
  - intros (Hc & i & Hp & Hq). split; [done|]. exists i, c, 1.
    rewrite list_lookup_fmap, Hq. simpl. rewrite Z.eqb_refl.
    repeat split; [lia|done].
Qed.

Lemma NoDup_intersecting_ids pred gt g : NoDup (intersecting_ids pred gt g).
Proof. apply NoDup_filter, NoDup_unique. Qed.

Lemma occurrences_app c l1 l2 :
  occurrences c (l1 ++ l2) = (occurrences c l1 + occurrences c l2)%nat.
Proof. unfold occurrences. by rewrite filter_app, length_app. Qed.

Lemma occurrences_NoDup c l :
  NoDup l → occurrences c l = if decide (c ∈ l) then 1%nat else 0%nat.
Proof.
  unfold occurrences. induction 1 as [|x l Hx _ IH]; [done|].
  rewrite filter_cons. destruct (decide (x = c)) as [->|Hne]; simpl.
  - rewrite IH. rewrite decide_False by done.
    rewrite decide_True by apply list_elem_of_here. done.
  - rewrite IH. destruct (decide (c ∈ l)) as [Hin|Hnin].
    + by rewrite decide_True by (by apply list_elem_of_further).
    + rewrite decide_False; [done|]. intros [->|?]%elem_of_cons; done.
Qed.

Lemma dice_same_shape shp a b : ∃ v, dice (mk_ndarray shp a) (mk_ndarray shp b) = inr v.
Proof. unfold dice. simpl. rewrite decide_False by (intros H; by apply H). eauto. Qed.

Section Matching.

Variable robust_hausdorff95 : ndarray → ndarray → spacing → float.
Variable shp : list nat.
Variables pred gt : list Z.
Variable zooms : spacing.

Lemma lesion_step_ok acc g :
  ∃ r, lesion_row pred gt zooms g r ∧
    lesion_step robust_hausdorff95 shp pred gt zooms acc g =
    inr (mk_matches
           (gt_tp acc ++ filter (λ g, intersecting_ids pred gt g ≠ []) [g])
           (tp acc ++ intersecting_ids pred gt g)
           (fn acc ++ filter (λ g, intersecting_ids pred gt g = []) [g])
           (metric_pairs acc ++ [r])).
Proof.
  destruct zooms as [[sx sy] sz]. unfold lesion_step.
  fold (lesion_mask gt g). fold (intersecting_ids pred gt g).
  set (pred_tmp := np.place _ _ 1).
  destruct (dice_same_shape shp pred_tmp (lesion_mask gt g)) as [v ->]. simpl.
  eexists (mk_metric_pair _ _ _ _ _). split; [repeat split; reflexivity|].
  rewrite !filter_cons, !filter_nil. clearbody pred_tmp.
  destruct (intersecting_ids pred gt g) as [|c icc]; simpl.
  - rewrite !app_nil_r. reflexivity.
  - rewrite !app_nil_r. reflexivity.
Qed.

Lemma for_each_lesion_step cs : ∀ acc,
  ∃ rs, Forall2 (lesion_row pred gt zooms) cs rs ∧
    for_each (lesion_step robust_hausdorff95 shp pred gt zooms) cs acc =
    inr (mk_matches
           (gt_tp acc ++ filter (λ g, intersecting_ids pred gt g ≠ []) cs)
           (tp acc ++ concat (intersecting_ids pred gt <$> cs))
           (fn acc ++ filter (λ g, intersecting_ids pred gt g = []) cs)
           (metric_pairs acc ++ rs)).
Proof.
  induction cs as [|c cs IH]; intros acc.
  - exists []. split; [constructor|]. simpl. rewrite !app_nil_r. by destruct acc.
  - destruct (lesion_step_ok acc c) as (r & Hr & Hstep).
    simpl. rewrite Hstep. simpl.
    edestruct IH as (rs & Hrs & ->). exists (r :: rs). split; [by constructor|].
    simpl. rewrite <- !app_assoc. simpl.
    rewrite (filter_cons _ c cs), (filter_cons (λ g, _ = []) c cs).
    rewrite !filter_cons, !filter_nil.
    destruct (decide (intersecting_ids pred gt c ≠ []));
      destruct (decide (intersecting_ids pred gt c = [])); simpl; try done.
Qed.

End Matching.

Lemma occurrences_concat_intersecting pred gt c cs :
  c ≠ 0 →
  occurrences c (concat (intersecting_ids pred gt <$> cs)) =
  length (filter (overlaps pred gt c) cs).
Proof.
  intros Hc. induction cs as [|g cs IH]; [done|].
  csimpl. rewrite occurrences_app, IH, filter_cons.
  rewrite occurrences_NoDup by apply NoDup_intersecting_ids.
  destruct (decide (overlaps pred gt c g)) as [Ho|Ho].
  - rewrite decide_True by (by apply elem_of_intersecting_ids). done.
  - rewrite decide_False; [done|]. by intros [_ ?]%elem_of_intersecting_ids.
Qed.

Lemma two_distinct_elements {A} (l : list A) x y :
  x ∈ l → y ∈ l → x ≠ y → (2 ≤ length l)%nat.
Proof.
  intros [k Hk]%elem_of_Permutation Hy Hxy.
  rewrite Hk in Hy. apply elem_of_cons in Hy as [->|Hy]; [done|].
  rewrite Hk. destruct k; [by apply elem_of_nil in Hy|]. simpl. lia.
Qed.

Lemma overlaps_le_max pred gt c g m :
  np.max gt = inr m → overlaps pred gt c g → g ≤ m.
Proof.
  intros Hm (i & _ & Hg)%overlaps_lookup.
  apply (np_max_spec _ _ Hm). eapply list_elem_of_lookup_2; eauto.
Qed.

(** C1: the lesion matcher appends a nonzero predicted component id to the
    true-positive list once for every merged ground-truth lesion (an id in
    1..max) whose mask it overlaps, so an id overlapping two distinct lesions
    is listed at least twice; the false positives are exactly the distinct
    nonzero predicted ids that are nowhere in the true-positive list; no id
    is both. *)
Theorem lesion_matching_classifies
    (robust_hausdorff95 : ndarray → ndarray → spacing → float)
    (shp : list nat) (pred gt : list Z) (zooms : spacing) (m : Z) :
  np.max gt = inr m →
  ∃ acc fp,
    lesion_by_lesion robust_hausdorff95 shp pred gt zooms = inr (acc, fp) ∧
    (∀ c, c ≠ 0 →
       occurrences c (tp acc) = length (filter (overlaps pred gt c) (seqZ 1 m))) ∧
    (∀ c g1 g2, c ≠ 0 → 1 ≤ g1 → 1 ≤ g2 → g1 ≠ g2 →
       overlaps pred gt c g1 → overlaps pred gt c g2 →
       (2 ≤ occurrences c (tp acc))%nat ∧ c ∉ fp) ∧
    NoDup fp ∧
    (∀ x, x ∈ fp ↔ x ∈ pred ∧ x ≠ 0 ∧ x ∉ tp acc) ∧
    (∀ x, x ∈ tp acc → x ∉ fp).
Proof.
  intros Hm. unfold lesion_by_lesion. rewrite Hm. simpl.
  destruct (for_each_lesion_step robust_hausdorff95 shp pred gt zooms (seqZ 1 m)
              (mk_matches [] [] [] [])) as (rs & _ & ->). simpl.
  eexists _, _. split; [reflexivity|]. simpl.
  assert (Hfp : ∀ x ids,
            x ∈ np.unique (np.select pred (np.where_ (not_isin (ids ++ [0])) pred))
            ↔ x ∈ pred ∧ x ≠ 0 ∧ x ∉ ids).
  { intros x ids. rewrite elem_of_unique, select_where, list_elem_of_filter.
    unfold not_isin. rewrite bool_decide_eq_true, not_elem_of_app.
    rewrite not_elem_of_cons. split; [|intros (?&?&?); repeat split; try done].
    - intros ((?&?&_)&?). done.
    - apply not_elem_of_nil. }
  assert (Hocc : ∀ c, c ≠ 0 →
            occurrences c (concat (intersecting_ids pred gt <$> seqZ 1 m)) =
            length (filter (overlaps pred gt c) (seqZ 1 m))).
  { intros c Hc. by apply occurrences_concat_intersecting. }
  split; [exact Hocc|]. split; [|split; [apply NoDup_unique|split; [intros x; apply Hfp|]]].
  - intros c g1 g2 Hc Hg1 Hg2 Hne Ho1 Ho2.
    assert (2 ≤ occurrences c (concat (intersecting_ids pred gt <$> seqZ 1 m)))%nat
      as Htwo.
    { rewrite Hocc by done.
      apply (two_distinct_elements _ g1 g2); [| |done].
      - apply list_elem_of_filter. split; [done|]. apply elem_of_seqZ.
        pose proof (overlaps_le_max _ _ _ _ _ Hm Ho1). lia.
      - apply list_elem_of_filter. split; [done|]. apply elem_of_seqZ.
        pose proof (overlaps_le_max _ _ _ _ _ Hm Ho2). lia. }
    split; [exact Htwo|]. rewrite Hfp. intros (_ & _ & Hnot). apply Hnot.
    unfold occurrences in Htwo.
    destruct (filter (λ x, x = c) _) as [|y ys] eqn:Hf; [simpl in Htwo; lia|].
    assert (y ∈ filter (λ x, x = c) (concat (intersecting_ids pred gt <$> seqZ 1 m)))
      as Hy by (rewrite Hf; apply list_elem_of_here).
    apply list_elem_of_filter in Hy as [-> Hy]. done.
  - intros x Hx. rewrite Hfp. intros (_ & _ & Hnot). done.
Qed.

Lemma lesion_matching_classifies_witness :
  ∃ acc fp,
    lesion_by_lesion (λ _ _ _, 0%float) [5%nat] [1; 1; 1; 0; 2] [1; 0; 2; 0; 0]
      (1%float, 1%float, 1%float) = inr (acc, fp) ∧
    (∀ c, c ≠ 0 →
       occurrences c (tp acc) =
       length (filter (overlaps [1; 1; 1; 0; 2] [1; 0; 2; 0; 0] c) (seqZ 1 2))) ∧
    (∀ c g1 g2, c ≠ 0 → 1 ≤ g1 → 1 ≤ g2 → g1 ≠ g2 →
       overlaps [1; 1; 1; 0; 2] [1; 0; 2; 0; 0] c g1 →
       overlaps [1; 1; 1; 0; 2] [1; 0; 2; 0; 0] c g2 →
       (2 ≤ occurrences c (tp acc))%nat ∧ c ∉ fp) ∧
    NoDup fp ∧
    (∀ x, x ∈ fp ↔ x ∈ [1; 1; 1; 0; 2] ∧ x ≠ 0 ∧ x ∉ tp acc) ∧
    (∀ x, x ∈ tp acc → x ∉ fp).
Proof.
  apply (lesion_matching_classifies (λ _ _ _, 0%float) [5%nat]
           [1; 1; 1; 0; 2] [1; 0; 2; 0; 0] (1%float, 1%float, 1%float) 2).
  reflexivity.
Defined.

(** Predicted component 1 meets lesions 1 and 2 and is listed twice;
    predicted component 2 meets no lesion and is the one false positive. *)
Example lesion_matching_twice :
  ∃ acc,
    lesion_by_lesion (λ _ _ _, 0%float) [5%nat] [1; 1; 1; 0; 2] [1; 0; 2; 0; 0]
      (1%float, 1%float, 1%float) = inr (acc, [2]) ∧
    tp acc = [1; 1] ∧ gt_tp acc = [1; 2] ∧ fn acc = [].
Proof. eexists. split; [vm_compute; reflexivity|]. repeat split. Qed.

(** ** Dice *)

Lemma count_nonzero_astype_bool a :
  np.count_nonzero (np.astype_bool a) = mask_size a.
Proof.
  unfold np.count_nonzero, np.astype_bool, np.where_, mask_size. f_equal.
  induction a as [|x a IH]; [done|]. csimpl. rewrite !filter_cons.
  destruct (Z.eqb_spec x 0); simpl; destruct (decide (x ≠ 0)); simpl;
    first [by rewrite IH | done].
Qed.

Lemma count_nonzero_logical_and a b :
  np.count_nonzero (np.logical_and (np.astype_bool a) (np.astype_bool b))
  = overlap_size a b.
Proof.
  unfold np.count_nonzero, np.logical_and, np.astype_bool, np.where_, overlap_size.
  f_equal. revert b. induction a as [|x a IH]; intros [|y b]; try done.
  csimpl. rewrite !filter_cons. simpl.
  destruct (Z.eqb_spec x 0), (Z.eqb_spec y 0); simpl;
    destruct (decide (x ≠ 0 ∧ y ≠ 0)) as [[? ?]|Hn]; simpl;
    first [by rewrite IH | done | exfalso; by apply Hn].
Qed.

Lemma mask_size_empty a : Forall (λ x, x = 0) a → mask_size a = 0.
Proof.
  unfold mask_size. induction 1 as [|x a -> _ IH]; [done|].
  rewrite filter_cons, decide_False by (by intros []). done.
Qed.

Lemma overlap_size_empty a b : Forall (λ x, x = 0) a → overlap_size a b = 0.
Proof.
  unfold overlap_size. intros H. revert b.
  induction H as [|x a -> _ IH]; intros [|y b]; try done.
  simpl. rewrite filter_cons, decide_False by (simpl; by intros [[] _]).
  apply IH.
Qed.

(** C6: [dice] raises the shape-mismatch [ValueError] exactly when the two
    shapes differ; for equal shapes it returns 2·|a∧b| / (|a|+|b|) in
    binary64, both inputs read as boolean masks; for two empty masks of one
    shape that quotient is 0/0 and the result is NaN, not an exception. *)
Theorem dice_spec (im1 im2 : ndarray) :
  (shape im1 ≠ shape im2 ↔ ∃ e, dice im1 im2 = inl e) ∧
  (shape im1 ≠ shape im2 →
     dice im1 im2 =
     inl (ValueError "Shape mismatch: im1 and im2 must have the same shape.")) ∧
  (shape im1 = shape im2 →
     dice im1 im2 =
     inr (2 * Z2F (overlap_size (data im1) (data im2))
          / Z2F (mask_size (data im1) + mask_size (data im2)))%float) ∧
  (shape im1 = shape im2 →
     Forall (λ x, x = 0) (data im1) → Forall (λ x, x = 0) (data im2) →
     dice im1 im2 = inr nan).
Proof.
  assert (Heq : shape im1 = shape im2 →
     dice im1 im2 =
     inr (2 * Z2F (overlap_size (data im1) (data im2))
          / Z2F (mask_size (data im1) + mask_size (data im2)))%float).
  { intros H. unfold dice. rewrite decide_False by (intros Hne; by apply Hne).
    by rewrite count_nonzero_logical_and, !count_nonzero_astype_bool. }
  assert (Hne : shape im1 ≠ shape im2 →
     dice im1 im2 =
     inl (ValueError "Shape mismatch: im1 and im2 must have the same shape.")).
  { intros H. unfold dice. by rewrite decide_True by done. }
  split; [|split; [exact Hne|split; [exact Heq|]]].
  - split; [intros H; rewrite Hne by done; eauto|].
    intros [e He] H. by rewrite Heq in He.
  - intros H H1 H2. rewrite Heq by done.
    rewrite overlap_size_empty, !mask_size_empty by done. reflexivity.
Qed.

(** ** Binary64 arithmetic

    Facts about the primitive floats, derived from their specification
    ([SpecFloat]). *)

Lemma eqb_infinity x : (x =? infinity)%float = true ↔ x = infinity.
Proof.
  split.
  - rewrite FloatAxioms.eqb_spec. intros H. apply Prim2SF_inj.
    change (Prim2SF infinity) with (S754_infinity false) in *.
    destruct (Prim2SF x) as [s|s| |s m e]; try destruct s; try discriminate; done.
  - intros ->. reflexivity.
Qed.

Lemma replace_inf_finite x : replace_inf x ≠ infinity.
Proof.
  unfold replace_inf. destruct (x =? infinity)%float eqn:E.
  - intros H. apply eqb_infinity in H. discriminate H.
  - intros H. apply eqb_infinity in H. congruence.
Qed.

Lemma binary_round_aux_nonneg mx ex lx :
  sf_nonneg (binary_round_aux prec emax false mx ex lx).
Proof.
  unfold binary_round_aux.
  destruct (shr_fexp prec emax mx ex lx) as [mrs' e'].
  destruct (shr_fexp prec emax _ e' loc_Exact) as [mrs'' e''].
  destruct (shr_m mrs''); simpl; try done.
  by destruct (_ <=? _).
Qed.

Lemma binary_normalize_nonneg z : 0 ≤ z → sf_nonneg (binary_normalize prec emax z 0 false).
Proof.
  intros Hz. destruct z as [|p|p]; [done| |lia].
  unfold binary_normalize, binary_round.
  destruct (shl_align _ _ _). apply binary_round_aux_nonneg.
Qed.

Lemma SFldexp_nonneg s e : sf_nonneg s → sf_nonneg (SFldexp prec emax s e).
Proof.
  destruct s as [[]|[]| |[] m ex]; simpl; try done. intros _.
  unfold binary_round. destruct (shl_align _ _ _). apply binary_round_aux_nonneg.
Qed.

Lemma Z2F_nonneg z : 0 ≤ z → sf_nonneg (Prim2SF (Z2F z)).
Proof.
  intros Hz. unfold Z2F. pose proof (binary_normalize_nonneg z Hz) as H.
  destruct (binary_normalize prec emax z 0 false) as [[]|[]| |[] m e]; try done.
  simpl. rewrite Z_ldexp_spec. apply SFldexp_nonneg.
  rewrite of_uint63_spec. apply binary_normalize_nonneg.
  apply Uint63.to_Z_bounded.
Qed.

Lemma zero_add x : sf_nonneg (Prim2SF x) → (0 + x)%float = x.
Proof.
  intros H. apply Prim2SF_inj. rewrite FloatAxioms.add_spec.
  change (Prim2SF 0) with (S754_zero false).
  destruct (Prim2SF x) as [[]|[]| |[] m e]; done.
Qed.

(** -0.0 is neutral for addition on the left, for every operand; +0.0 is
    neutral but for -0.0. *)
Lemma neg_zero_add x : (neg_zero + x)%float = x.
Proof.
  apply Prim2SF_inj. rewrite FloatAxioms.add_spec.
  change (Prim2SF neg_zero) with (S754_zero true).
  destruct (Prim2SF x) as [[]|[]| |[] m e]; done.
Qed.

Lemma zero_add_cases x :
  (0 + x)%float = x ∨ (x = neg_zero ∧ (0 + x)%float = 0%float).
Proof.
  destruct (Prim2SF x) as [[]|[]| |[] m e] eqn:E;
    try (left; apply Prim2SF_inj; rewrite FloatAxioms.add_spec, E; done).
  right. assert (x = neg_zero) as -> by (by apply Prim2SF_inj). done.
Qed.

Lemma digits2_pos_size p : digits2_pos p = Pos.size p.
Proof. induction p; simpl; congruence. Qed.

Lemma digits2_bounds p :
  2 ^ (Zpos (digits2_pos p) - 1) ≤ Zpos p < 2 ^ Zpos (digits2_pos p).
Proof.
  rewrite digits2_pos_size. split.
  - pose proof (Pos.size_le p) as H.
    assert (Zpos (2 ^ Pos.size p) ≤ Zpos p~0) as H' by (apply Pos2Z.pos_le_pos, H).
    rewrite Pos2Z.inj_pow in H'.
    replace (Zpos (Pos.size p)) with (Z.succ (Zpos (Pos.size p) - 1)) in H' by lia.
    rewrite Z.pow_succ_r in H' by lia. lia.
  - pose proof (Pos.size_gt p) as H.
    assert (Zpos p < Zpos (2 ^ Pos.size p)) as H' by (apply Pos2Z.pos_lt_pos, H).
    by rewrite Pos2Z.inj_pow in H'.
Qed.

Lemma digits2_unique p d :
  2 ^ (d - 1) ≤ Zpos p < 2 ^ d → Zpos (digits2_pos p) = d.
Proof.
  intros [H1 H2]. pose proof (digits2_bounds p) as [H3 H4].
  set (d' := Zpos (digits2_pos p)) in *.
  assert (0 < d) as Hd.
  { destruct (Z.lt_trichotomy d 0) as [?|[->|?]]; [|simpl in H2; lia|done].
    rewrite Z.pow_neg_r in H2 by done. lia. }
  destruct (Z.lt_trichotomy d' d) as [Hlt|[Heq|Hgt]]; [|done|].
  - assert (2 ^ d' ≤ 2 ^ (d - 1)) by (apply Z.pow_le_mono_r; lia). lia.
  - assert (2 ^ d ≤ 2 ^ (d' - 1)) by (apply Z.pow_le_mono_r; lia). lia.
Qed.

Lemma iter_pos_nat {A} (f : A → A) p x :
  SpecFloat.iter_pos f p x = Nat.iter (Pos.to_nat p) f x.
Proof.
  revert x. induction p as [p IH|p IH|]; intros x; cbn [SpecFloat.iter_pos].
  - rewrite !IH, Pos2Nat.inj_xI.
    replace (S (2 * Pos.to_nat p)) with (Pos.to_nat p + (Pos.to_nat p + 1))%nat by lia.
    by rewrite !Nat.iter_add.
  - rewrite !IH, Pos2Nat.inj_xO.
    replace (2 * Pos.to_nat p)%nat with (Pos.to_nat p + Pos.to_nat p)%nat by lia.
    by rewrite Nat.iter_add.
  - done.
Qed.

Lemma shr_1_nonneg m r s :
  0 ≤ m → shr_1 (Build_shr_record m r s) = Build_shr_record (Z.div2 m) (Z.odd m) (r || s).
Proof. intros H. destruct m as [|[p|p|]|p]; try done; lia. Qed.

Lemma shr_iter n m r s :
  0 ≤ m →
  Nat.iter (S n) shr_1 (Build_shr_record m r s) =
  Build_shr_record (m / 2 ^ Z.of_nat (S n)) (Z.testbit m (Z.of_nat n))
    (r || s || negb (m mod 2 ^ Z.of_nat n =? 0)).
Proof.
  intros Hm. induction n as [|n IH].
  - rewrite Nat.iter_succ. cbn [Nat.iter nat_rect].
    rewrite shr_1_nonneg by done. rewrite Z.div2_div.
    change (2 ^ Z.of_nat 1) with 2. change (2 ^ Z.of_nat 0) with 1.
    rewrite Z.mod_1_r, Z.bit0_odd. simpl. by rewrite orb_false_r.
  - rewrite Nat.iter_succ, IH. rewrite shr_1_nonneg by (apply Z.div_pos; lia).
    f_equal.
    + rewrite Z.div2_div, Z.div_div by lia. f_equal.
      replace (Z.of_nat (S (S n))) with (Z.succ (Z.of_nat (S n))) by lia.
      rewrite Z.pow_succ_r by lia. lia.
    + rewrite (Z.testbit_odd m (Z.of_nat (S n))), Z.shiftr_div_pow2 by lia. done.
    + assert (Z.testbit m (Z.of_nat n) || negb (m mod 2 ^ Z.of_nat n =? 0)
              = negb (m mod 2 ^ Z.of_nat (S n) =? 0)) as <-.
      { rewrite (Z.testbit_odd m (Z.of_nat n)), Z.shiftr_div_pow2 by lia.
        replace (Z.of_nat (S n)) with (Z.succ (Z.of_nat n)) by lia.
        rewrite Z.pow_succ_r by lia.
        assert (0 < 2 ^ Z.of_nat n) as Hp by (apply Z.pow_pos_nonneg; lia).
        pose proof (Z.mod_pos_bound m (2 ^ Z.of_nat n) Hp).
        rewrite (Z.mul_comm 2), Z.rem_mul_r by lia.
        rewrite (Zmod_odd (m / 2 ^ Z.of_nat n)).
        destruct (Z.odd (m / 2 ^ Z.of_nat n)); simpl.
        - by destruct (Z.eqb_spec (m mod 2 ^ Z.of_nat n + 2 ^ Z.of_nat n * 1) 0); [lia|].
        - by rewrite Z.mul_0_r, Z.add_0_r. }
      by destruct r, s, (Z.testbit _ _), (negb _).
Qed.

Lemma shr_pos k m r s e :
  0 < k → 0 ≤ m →
  shr (Build_shr_record m r s) e k =
  (Build_shr_record (m / 2 ^ k) (Z.testbit m (k - 1))
     (r || s || negb (m mod 2 ^ (k - 1) =? 0)), e + k).
Proof.
  intros Hk Hm. destruct k as [|p|p]; try lia. unfold shr.
  rewrite iter_pos_nat.
  destruct (Pos.to_nat p) as [|n] eqn:Hn; [lia|].
  rewrite shr_iter by done.
  replace (Z.of_nat (S n)) with (Zpos p) by lia.
  replace (Z.of_nat n) with (Zpos p - 1) by lia. done.
Qed.

Lemma shr_nonpos k mrs e : k ≤ 0 → shr mrs e k = (mrs, e).
Proof. intros Hk. destruct k; done. Qed.

Lemma fexp64 x : fexp prec emax x = Z.max (x - 53) (-1074).
Proof. reflexivity. Qed.

Lemma iter_xO m d : Zpos (Pos.iter xO m d) = Zpos m * 2 ^ Zpos d.
Proof.
  induction d as [|d IH] using Pos.peano_ind.
  - simpl. lia.
  - rewrite Pos.iter_succ, Pos2Z.inj_xO, IH, Pos2Z.inj_succ, Z.pow_succ_r by lia. lia.
Qed.

Lemma shl_align_lt m e e' :
  e' < e → ∃ m', shl_align m e e' = (m', e') ∧ Zpos m' = Zpos m * 2 ^ (e - e').
Proof.
  intros H. unfold shl_align. destruct (e' - e) as [|d|d] eqn:Hd; try lia.
  eexists. split; [done|]. rewrite iter_xO. f_equal. f_equal. lia.
Qed.

Lemma shl_align_ge m e e' : e ≤ e' → shl_align m e e' = (m, e).
Proof. intros H. unfold shl_align. destruct (e' - e) eqn:Hd; try done. lia. Qed.

(** Rounding a mantissa of [53 + k] digits whose low [k] bits are below half
    an ulp gives the high 53 bits. *)
Lemma binary_round_aux_down s M E m c k :
  0 ≤ k → Zpos M = Zpos m * 2 ^ k + c → 0 ≤ c → (0 < k → c < 2 ^ (k - 1)) →
  (k = 0 → c = 0) →
  Zpos (digits2_pos m) = 53 → -1074 ≤ E + k ≤ 971 →
  binary_round_aux prec emax s (Zpos M) E loc_Exact = S754_finite s m (E + k).
Proof.
  intros Hk HM Hc0 Hc Hk0 Hm He.
  pose proof (digits2_bounds m) as Hmb. rewrite Hm in Hmb. simpl in Hmb.
  assert (0 < 2 ^ k) as Hpk by (apply Z.pow_pos_nonneg; lia).
  assert (Zpos (digits2_pos M) = 53 + k) as HdM.
  { apply digits2_unique. replace (53 + k - 1) with (52 + k) by lia.
    rewrite !Z.pow_add_r by lia. rewrite HM.
    assert (c < 2 ^ k).
    { destruct (Z.eq_dec k 0) as [->|]; [rewrite Hk0 by done; lia|].
      assert (2 ^ (k - 1) ≤ 2 ^ k) by (apply Z.pow_le_mono_r; lia).
      specialize (Hc ltac:(lia)). lia. }
    change (2 ^ 52) with 4503599627370496. change (2 ^ 53) with 9007199254740992.
    nia. }
  assert (Hdm : shr_fexp prec emax (Zpos m) (E + k) loc_Exact =
            (Build_shr_record (Zpos m) false false, E + k)).
  { unfold shr_fexp. cbn [Zdigits2]. rewrite Hm, fexp64, shr_nonpos by lia. done. }
  unfold binary_round_aux.
  assert (Hfirst : ∃ l, (l = loc_Exact ∨ l = loc_Inexact Lt) ∧
            shr_fexp prec emax (Zpos M) E loc_Exact =
            (shr_record_of_loc (Zpos m) l, E + k)).
  { unfold shr_fexp. cbn [Zdigits2]. rewrite HdM, fexp64.
    destruct (Z.eq_dec k 0) as [->|Hkne].
    - rewrite shr_nonpos by lia. exists loc_Exact. split; [by left|].
      rewrite Hk0 in HM by done. simpl. rewrite Z.add_0_r.
      f_equal. f_equal. lia.
    - specialize (Hc ltac:(lia)).
      replace (Z.max (53 + k + E - 53) (-1074) - E) with k by lia.
      simpl shr_record_of_loc. rewrite shr_pos by lia.
      assert (0 < 2 ^ (k - 1)) as Hpk1 by (apply Z.pow_pos_nonneg; lia).
      assert (2 ^ k = 2 * 2 ^ (k - 1)) as Hk2.
      { rewrite <- Z.pow_succ_r by lia. f_equal. lia. }
      assert (Zpos M / 2 ^ k = Zpos m) as ->.
      { rewrite HM. rewrite Z.div_add_l by lia. rewrite Z.div_small by lia. lia. }
      assert (Z.testbit (Zpos M) (k - 1) = false) as ->.
      { rewrite Z.testbit_odd, Z.shiftr_div_pow2 by lia.
        rewrite HM, Hk2.
        replace (Zpos m * (2 * 2 ^ (k - 1)) + c) with (2 * Zpos m * 2 ^ (k - 1) + c) by lia.
        rewrite Z.div_add_l by lia. rewrite Z.div_small by lia.
        rewrite Z.add_0_r. by rewrite Z.odd_mul. }
      assert (Zpos M mod 2 ^ (k - 1) = c) as ->.
      { rewrite HM, Hk2.
        replace (Zpos m * (2 * 2 ^ (k - 1)) + c) with (c + 2 * Zpos m * 2 ^ (k - 1)) by lia.
        rewrite Z.mod_add by lia. by apply Z.mod_small. }
      simpl. destruct (Z.eqb_spec c 0).
      + exists loc_Exact. split; [by left|done].
      + exists (loc_Inexact Lt). split; [by right|done]. }
  destruct Hfirst as (l & Hl & ->).
  assert (round_nearest_even (shr_m (shr_record_of_loc (Zpos m) l))
            (loc_of_shr_record (shr_record_of_loc (Zpos m) l)) = Zpos m) as ->.
  { by destruct Hl as [-> | ->]. }
  rewrite Hdm. simpl shr_m.
  assert ((E + k <=? emax - prec) = true) as ->.
  { apply Z.leb_le. change (emax - prec) with 971. lia. }
  done.
Qed.

Lemma digits2_shifted M m k c :
  0 ≤ k → Zpos M = Zpos m * 2 ^ k + c → 0 ≤ c < 2 ^ k →
  Zpos (digits2_pos M) = Zpos (digits2_pos m) + k.
Proof.
  intros Hk HM Hc.
  pose proof (digits2_bounds m) as Hmb.
  set (dm := Zpos (digits2_pos m)) in *.
  assert (1 ≤ dm) by (unfold dm; lia).
  apply digits2_unique. replace (dm + k - 1) with (dm - 1 + k) by lia.
  rewrite !Z.pow_add_r by lia. rewrite HM.
  assert (0 < 2 ^ k) by (apply Z.pow_pos_nonneg; lia).
  split; nia.
Qed.

Lemma Z2F_normal N :
  0 < N < 2 ^ 53 → ∃ m e, normal53 (Z2F N) m e ∧ -52 ≤ e ≤ 0.
Proof.
  intros HN. destruct N as [|p|p]; try lia.
  pose proof (digits2_bounds p) as Hb.
  set (d := Zpos (digits2_pos p)) in *.
  assert (1 ≤ d ≤ 53) as Hd.
  { split; [unfold d; lia|].
    destruct (Z_le_gt_dec d 53) as [|Hgt]; [done|].
    assert (2 ^ 53 ≤ 2 ^ (d - 1)) by (apply Z.pow_le_mono_r; lia). lia. }
  assert (∃ mz, shl_align p 0 (fexp prec emax (d + 0)) = (mz, d - 53) ∧
                Zpos (digits2_pos mz) = 53) as (mz & Hsh & Hmz).
  { rewrite fexp64. replace (Z.max (d + 0 - 53) (-1074)) with (d - 53) by lia.
    destruct (Z.eq_dec d 53) as [Hd53|Hd53].
    - exists p. rewrite Hd53. rewrite shl_align_ge by lia. done.
    - destruct (shl_align_lt p 0 (d - 53) ltac:(lia)) as (m' & -> & Hm').
      exists m'. split; [done|].
      rewrite (digits2_shifted m' p (0 - (d - 53)) 0); fold d; lia. }
  exists mz, (d - 53). split; [|lia]. split; [|done].
  unfold Z2F, binary_normalize, binary_round. fold d. rewrite Hsh.
  rewrite (binary_round_aux_down false mz (d - 53) mz 0 0) by lia.
  rewrite Z.add_0_r.
  apply Prim2SF_SF2Prim. unfold SpecFloat.valid_binary, bounded, canonical_mantissa.
  rewrite Hmz, fexp64.
  apply andb_true_intro. split; [apply Z.eqb_eq; lia|].
  apply Z.leb_le. change (emax - prec) with 971. lia.
Qed.

Lemma Prim2SF_float_min : Prim2SF float_min = S754_finite false 4503599627370496 (-1074).
Proof. reflexivity. Qed.

Lemma Prim2SF_one : Prim2SF 1 = S754_finite false 4503599627370496 (-52).
Proof. reflexivity. Qed.

Lemma add_float_min x m e :
  normal53 x m e → -52 ≤ e ≤ 971 → (x + float_min)%float = x.
Proof.
  intros [Hx Hm] He. apply Prim2SF_inj.
  rewrite FloatAxioms.add_spec, Hx, Prim2SF_float_min.
  unfold SF64add, SFadd. rewrite Z.min_r by lia.
  destruct (shl_align_lt m e (-1074) ltac:(lia)) as (m' & -> & Hm').
  rewrite shl_align_ge by lia. cbn [fst cond_Zopp].
  set (k := e - -1074) in *.
  assert (2 ^ 52 < 2 ^ (k - 1)) as Hlt by (apply Z.pow_lt_mono_r; lia).
  assert (2 ^ (k - 1) < 2 ^ k) as Hlt' by (apply Z.pow_lt_mono_r; lia).
  change (2 ^ 52) with 4503599627370496 in Hlt.
  change (Zpos m' + 4503599627370496) with (Zpos (m' + 4503599627370496)).
  assert (Zpos (m' + 4503599627370496) = Zpos m * 2 ^ k + 4503599627370496) as HM by lia.
  unfold binary_normalize, binary_round.
  rewrite (digits2_shifted _ m k 4503599627370496), Hm, fexp64 by lia.
  rewrite shl_align_ge by lia.
  rewrite (binary_round_aux_down false _ (-1074) m 4503599627370496 k) by lia.
  f_equal. lia.
Qed.

Lemma mul_one_l x m e :
  normal53 x m e → -1022 ≤ e ≤ 971 → (1 * x)%float = x.
Proof.
  intros [Hx Hm] He. apply Prim2SF_inj.
  rewrite FloatAxioms.mul_spec, Hx, Prim2SF_one.
  unfold SF64mul, SFmul. cbn [xorb].
  rewrite (binary_round_aux_down false _ (-52 + e) m 0 52); try lia.
  f_equal. lia.
Qed.

Lemma div_self x m e : normal53 x m e → (x / x)%float = 1%float.
Proof.
  intros [Hx Hm]. apply Prim2SF_inj.
  rewrite FloatAxioms.div_spec, Hx, Prim2SF_one.
  unfold SF64div, SFdiv, SFdiv_core_binary. cbn [Zdigits2 xorb]. rewrite Hm.
  replace (53 + e - (53 + e)) with 0 by lia. rewrite Z.sub_diag.
  change (Z.min (fexp prec emax 0) 0) with (-53). change (0 - -53) with 53.
  cbv beta iota zeta.
  rewrite Z.shiftl_mul_pow2 by lia.
  assert (Z.div_eucl (Zpos m * 2 ^ 53) (Zpos m) = (2 ^ 53, 0)) as ->.
  { pose proof (Z.div_mul (2 ^ 53) (Zpos m) ltac:(lia)) as Hq.
    pose proof (Z.mod_mul (2 ^ 53) (Zpos m) ltac:(lia)) as Hr.
    rewrite (Z.mul_comm (2 ^ 53)) in Hq, Hr. unfold Z.div, Z.modulo in Hq, Hr.
    destruct (Z.div_eucl _ _) as [q r]. by subst. }
  assert (new_location (Zpos m) 0 = loc_Exact) as ->.
  { unfold new_location. by destruct (Z.even _). }
  reflexivity.
Qed.

Lemma add_zero_r x m e : normal53 x m e → (x + 0)%float = x.
Proof.
  intros [Hx Hm]. apply Prim2SF_inj.
  rewrite FloatAxioms.add_spec, Hx. reflexivity.
Qed.

Lemma quotient_one N :
  0 < N < 2 ^ 53 → (1 * Z2F N / (Z2F N + 0 + float_min))%float = 1%float.
Proof.
  intros HN. destruct (Z2F_normal N HN) as (m & e & Hn & He).
  rewrite (mul_one_l _ m e), (add_zero_r _ m e), (add_float_min _ m e) by (done || lia).
  by apply (div_self _ m e).
Qed.

(** ** Sensitivity and specificity *)

Lemma Z2F_eqb_zero s : 0 ≤ s < 2 ^ 53 → (Z2F s =? 0)%float = bool_decide (s = 0).
Proof.
  intros Hs. destruct (decide (s = 0)) as [->|Hne].
  - reflexivity.
  - rewrite bool_decide_false by done.
    destruct (Z2F_normal s ltac:(lia)) as (m & e & [Hm _] & _).
    rewrite FloatAxioms.eqb_spec, Hm. reflexivity.
Qed.

Lemma sum_cons x l : np.sum (x :: l) = x + np.sum l.
Proof. done. Qed.

Lemma TP_count_both_one result target :
  np.sum (np.select (zip_with (λ r t, if r =? t then 1 else 0) result target)
            (np.where_ (λ x, x =? 1) result))
  = count_both_one result target.
Proof.
  unfold np.select, np.where_, count_both_one. revert target.
  induction result as [|r rs IH]; intros [|t ts]; try done.
  csimpl. rewrite !filter_cons. specialize (IH ts). cbn [snd fst].
  destruct (decide ((r =? 1) = true)) as [Hr|Hr];
    destruct (decide (r = 1 ∧ t = 1)) as [[-> ->]|Hn].
  - rewrite fmap_cons, sum_cons. cbn [fst length]. rewrite Z.eqb_refl, IH. lia.
  - rewrite fmap_cons, sum_cons. cbn [fst]. apply Z.eqb_eq in Hr as ->.
    destruct (Z.eqb_spec 1 t) as [<-|?]; [by destruct Hn|]. by rewrite IH.
  - done.
  - apply IH.
Qed.

Lemma TN_count_neither_one result target :
  np.count_nonzero
    (np.logical_and (np.where_ (λ x, negb (x =? 1)) result)
                    (np.where_ (λ x, negb (x =? 1)) target))
  = count_neither_one result target.
Proof.
  unfold np.count_nonzero, np.logical_and, np.where_, count_neither_one. f_equal.
  revert target. induction result as [|r rs IH]; intros [|t ts]; try done.
  csimpl. rewrite !filter_cons. simpl.
  destruct (Z.eqb_spec r 1), (Z.eqb_spec t 1); simpl;
    destruct (decide (r ≠ 1 ∧ t ≠ 1)) as [[? ?]|Hn]; simpl;
    first [by rewrite IH | done | exfalso; by apply Hn].
Qed.

Lemma sum_mask_bounds a :
  Forall (λ x, x = 0 ∨ x = 1) a → 0 ≤ np.sum a ≤ Z.of_nat (length a).
Proof.
  unfold np.sum. induction 1 as [|x a [-> | ->] _ IH]; simpl; lia.
Qed.

Lemma sum_mask_zero a :
  Forall (λ x, x = 0 ∨ x = 1) a → np.sum a = 0 → Forall (λ x, x = 0) a.
Proof.
  intros H. induction H as [|x a Hx Ha IH]; [constructor|].
  pose proof (sum_mask_bounds a Ha). unfold np.sum in *. simpl. intros Hs.
  constructor; [lia|]. apply IH. lia.
Qed.

Lemma counts_of_empty_masks result target :
  length result = length target →
  Forall (λ x, x = 0) result → Forall (λ x, x = 0) target →
  count_both_one result target = 0 ∧
  count_neither_one result target = Z.of_nat (length result).
Proof.
  unfold count_both_one, count_neither_one.
  intros Hlen Hr. revert target Hlen.
  induction Hr as [|r rs -> _ IH]; intros [|t ts] Hlen Ht; try done.
  inversion Ht as [|? ? -> Hts]; subst. cbn [length] in Hlen.
  destruct (IH ts ltac:(lia) Hts) as [IH1 IH2].
  csimpl. rewrite !filter_cons. cbn [fst snd].
  rewrite decide_False by (by intros [? _]). split; [done|lia].
Qed.

(** C7, as the program has it: for two 0/1 masks of one shape with fewer
    than 2^53 voxels, Specificity = TN/(TN+FP+ε) and, unless both masks are
    empty, Sensitivity = TP/(TP+FN+ε), in binary64, with TP the number of
    voxels equal to 1 in both, TN the number of voxels where both differ from
    1, FP = sum(result) − TP, FN = sum(target) − TP and ε =
    [sys.float_info.min].  When both masks are empty Sensitivity is 1.0 and
    Specificity is still the formula's value: 1.0 when the masks have a
    voxel, 0.0 when they have none. *)
Theorem sensitivity_specificity_spec (result target : list Z) :
  length result = length target →
  Forall (λ x, x = 0 ∨ x = 1) result →
  Forall (λ x, x = 0 ∨ x = 1) target →
  Z.of_nat (length result) < 2 ^ 53 →
  let TP := count_both_one result target in
  let TN := count_neither_one result target in
  let FP := (Z2F (np.sum result) - Z2F TP)%float in
  let FN := (Z2F (np.sum target) - Z2F TP)%float in
  let both_empty := np.sum result = 0 ∧ np.sum target = 0 in
  ∃ Sens Spec,
    get_sensitivity_and_specificity result target = (Sens, Spec) ∧
    Spec = (1 * Z2F TN / (Z2F TN + FP + float_min))%float ∧
    (¬ both_empty → Sens = (1 * Z2F TP / (Z2F TP + FN + float_min))%float) ∧
    (both_empty →
       Sens = 1%float ∧
       (result ≠ [] → Spec = 1%float) ∧
       (result = [] → Spec = 0%float)).
Proof.
  intros Hlen Hr Ht Hsize TP TN FP FN both_empty.
  pose proof (sum_mask_bounds _ Hr) as Hsr.
  pose proof (sum_mask_bounds _ Ht) as Hst.
  unfold get_sensitivity_and_specificity.
  rewrite TP_count_both_one, TN_count_neither_one.
  fold TP TN FP FN. rewrite !Z2F_eqb_zero by lia.
  eexists _, _. split; [reflexivity|]. split; [reflexivity|]. split.
  - intros Hne. destruct (decide (np.sum result = 0)) as [H1|H1];
      destruct (decide (np.sum target = 0)) as [H2|H2];
      rewrite ?(bool_decide_true _ H1), ?(bool_decide_false _ H1),
              ?(bool_decide_true _ H2), ?(bool_decide_false _ H2); simpl;
      try done.
    exfalso. by apply Hne.
  - intros [H1 H2]. rewrite !bool_decide_true by done. simpl.
    split; [done|].
    destruct (counts_of_empty_masks result target Hlen) as [HTP HTN];
      [by apply sum_mask_zero..|].
    subst FP. fold TP in HTP. fold TN in HTN. rewrite HTN, HTP, H1.
    change (Z2F 0 - Z2F 0)%float with 0%float.
    split.
    + intros Hnil. apply quotient_one.
      destruct result; [done|]. simpl in *. lia.
    + intros ->. reflexivity.
Qed.

Lemma sensitivity_specificity_spec_witness :
  ∃ Sens Spec,
    get_sensitivity_and_specificity example_result example_target = (Sens, Spec) ∧
    Spec = (1 * Z2F (count_neither_one example_result example_target)
            / (Z2F (count_neither_one example_result example_target)
               + (Z2F (np.sum example_result)
                  - Z2F (count_both_one example_result example_target))
               + float_min))%float ∧
    (¬ (np.sum example_result = 0 ∧ np.sum example_target = 0) →
       Sens = (1 * Z2F (count_both_one example_result example_target)
               / (Z2F (count_both_one example_result example_target)
                  + (Z2F (np.sum example_target)
                     - Z2F (count_both_one example_result example_target))
                  + float_min))%float) ∧
    (np.sum example_result = 0 ∧ np.sum example_target = 0 →
       Sens = 1%float ∧
       (example_result ≠ [] → Spec = 1%float) ∧
       (example_result = [] → Spec = 0%float)).
Proof.
  apply (sensitivity_specificity_spec example_result example_target).
  - reflexivity.
  - unfold example_result. repeat constructor; lia.
  - unfold example_target. repeat constructor; lia.
  - reflexivity.
Defined.

(** Half of the predicted voxels are right and half of the background is
    kept: both ratios are 0.5. *)
Example sensitivity_specificity_half :
  get_sensitivity_and_specificity example_result example_target
  = (0.5%float, 0.5%float).
Proof. reflexivity. Qed.

(** C7, as stated, fails on masks with no voxel: both sums are 0 and the
    formula's Specificity is 0/(0+0+ε) = 0.0, not 1.0. *)
Lemma specificity_of_zero_voxels :
  np.sum [] = 0 ∧
  get_sensitivity_and_specificity [] [] = (1%float, 0%float).
Proof. split; reflexivity. Qed.

(** On empty masks that do have voxels, Specificity is 1.0. *)
Example specificity_of_empty_masks :
  get_sensitivity_and_specificity [0; 0; 0] [0; 0; 0] = (1%float, 1%float).
Proof. reflexivity. Qed.

(** ** Lesion-wise aggregation *)

(** *** The column sum *)

Lemma lane_upto_S a j k :
  (1 ≤ k)%nat → lane_upto a j (S k) = (lane_upto a j k + a !!! (8 * k + j)%nat)%float.
Proof.
  intros Hk. unfold lane_upto.
  replace (S k - 1)%nat with (S (k - 1)) by lia.
  rewrite seq_S, foldl_snoc.
  replace (1 + (k - 1))%nat with k by lia. by rewrite (Nat.add_comm j).
Qed.

Lemma pairwise_block_short r0 r1 r2 r3 r4 r5 r6 r7 a :
  (length a < 8)%nat →
  DOUBLE_pairwise_block r0 r1 r2 r3 r4 r5 r6 r7 a =
  foldl PrimFloat.add (((r0 + r1) + (r2 + r3)) + ((r4 + r5) + (r6 + r7)))%float a.
Proof.
  intros Hlen.
  do 8 (destruct a as [|? a]; [reflexivity|]). simpl in Hlen. lia.
Qed.

Lemma drop_8 (a : list float) i :
  (i + 8 ≤ length a)%nat →
  drop i a = a !!! i :: a !!! (i + 1)%nat :: a !!! (i + 2)%nat :: a !!! (i + 3)%nat ::
             a !!! (i + 4)%nat :: a !!! (i + 5)%nat :: a !!! (i + 6)%nat ::
             a !!! (i + 7)%nat :: drop (i + 8) a.
Proof.
  intros Hlen.
  assert (H : ∀ n, (n < length a)%nat → drop n a = a !!! n :: drop (S n) a).
  { intros n Hn. apply drop_S. by apply list_lookup_lookup_total_lt. }
  rewrite (H i) by lia. f_equal.
  replace (S i) with (i + 1)%nat by lia. rewrite (H (i + 1)%nat) by lia. f_equal.
  replace (S (i + 1)) with (i + 2)%nat by lia. rewrite (H (i + 2)%nat) by lia. f_equal.
  replace (S (i + 2)) with (i + 3)%nat by lia. rewrite (H (i + 3)%nat) by lia. f_equal.
  replace (S (i + 3)) with (i + 4)%nat by lia. rewrite (H (i + 4)%nat) by lia. f_equal.
  replace (S (i + 4)) with (i + 5)%nat by lia. rewrite (H (i + 5)%nat) by lia. f_equal.
  replace (S (i + 5)) with (i + 6)%nat by lia. rewrite (H (i + 6)%nat) by lia. f_equal.
  replace (S (i + 6)) with (i + 7)%nat by lia. rewrite (H (i + 7)%nat) by lia. f_equal.
  f_equal. lia.
Qed.

(** The loop invariant: after [k] blocks the running sum [j] holds the
    values at j, j+8, ..., j+8(k-1). *)
Lemma pairwise_block_from a k d :
  (1 ≤ k)%nat → (k + d = length a / 8)%nat →
  DOUBLE_pairwise_block (lane_upto a 0 k) (lane_upto a 1 k) (lane_upto a 2 k)
    (lane_upto a 3 k) (lane_upto a 4 k) (lane_upto a 5 k) (lane_upto a 6 k)
    (lane_upto a 7 k) (drop (8 * k) a) =
  foldl PrimFloat.add
    (((strided_sum a 0 + strided_sum a 1) + (strided_sum a 2 + strided_sum a 3))
     + ((strided_sum a 4 + strided_sum a 5) + (strided_sum a 6 + strided_sum a 7)))%float
    (drop (8 * (length a / 8)) a).
Proof.
  revert k. induction d as [|d IH]; intros k Hk Hd.
  - replace (length a / 8)%nat with k by lia.
    rewrite pairwise_block_short.
    + unfold strided_sum. replace (length a / 8)%nat with k by lia. done.
    + rewrite length_drop.
      pose proof (Nat.div_mod_eq (length a) 8) as E.
      pose proof (Nat.mod_upper_bound (length a) 8 ltac:(lia)). lia.
  - pose proof (Nat.div_mod_eq (length a) 8) as E.
    rewrite (drop_8 a (8 * k)) by lia.
    cbn [DOUBLE_pairwise_block].
    replace (8 * k + 8)%nat with (8 * S k)%nat by lia.
    rewrite <- (IH (S k)) by lia.
    rewrite !lane_upto_S by done. rewrite Nat.add_0_r. done.
Qed.

Lemma pairwise_sum_short z fuel a :
  (length a < 8)%nat → DOUBLE_pairwise_sum z fuel a = foldl PrimFloat.add z a.
Proof.
  intros Hs. destruct fuel;
    do 8 (destruct a as [|? a]; [reflexivity|]); simpl in Hs; lia.
Qed.

Lemma pairwise_sum_long z fuel a :
  (8 ≤ length a)%nat →
  DOUBLE_pairwise_sum z (S fuel) a =
  if decide (length a ≤ 128)%nat then
    match a with
    | a0 :: a1 :: a2 :: a3 :: a4 :: a5 :: a6 :: a7 :: a' =>
        DOUBLE_pairwise_block a0 a1 a2 a3 a4 a5 a6 a7 a'
    | _ => z
    end
  else
    (DOUBLE_pairwise_sum z fuel (take (length a / 2 - (length a / 2) mod 8) a)
     + DOUBLE_pairwise_sum z fuel (drop (length a / 2 - (length a / 2) mod 8) a))%float.
Proof.
  intros Hs.
  destruct a as [|a0 [|a1 [|a2 [|a3 [|a4 [|a5 [|a6 [|a7 a']]]]]]]];
    try (simpl in Hs; lia).
  reflexivity.
Qed.

Lemma pairwise_block_total a0 a1 a2 a3 a4 a5 a6 a7 a' :
  let a := a0 :: a1 :: a2 :: a3 :: a4 :: a5 :: a6 :: a7 :: a' in
  (length a ≤ 128)%nat →
  pairwise_total a (DOUBLE_pairwise_block a0 a1 a2 a3 a4 a5 a6 a7 a').
Proof.
  intros a Hb.
  assert (8 ≤ length a)%nat as H8 by (simpl; lia).
  assert (1 ≤ length a / 8)%nat as Hq by (apply Nat.div_le_lower_bound; lia).
  assert (1 + (length a / 8 - 1) = length a / 8)%nat as H1 by lia.
  pose proof (pairwise_block_from a 1 (length a / 8 - 1) (le_n 1) H1) as H.
  change (drop (8 * 1) a) with a' in H.
  change (DOUBLE_pairwise_block a0 a1 a2 a3 a4 a5 a6 a7 a') with
    (DOUBLE_pairwise_block (lane_upto a 0 1) (lane_upto a 1 1) (lane_upto a 2 1)
       (lane_upto a 3 1) (lane_upto a 4 1) (lane_upto a 5 1) (lane_upto a 6 1)
       (lane_upto a 7 1) a').
  rewrite H. apply pairwise_total_block. lia.
Qed.

(** With the length as fuel, the loops compute the pairwise sum. *)
Lemma DOUBLE_pairwise_sum_total fuel : ∀ a,
  a ≠ [] → (length a ≤ fuel)%nat →
  pairwise_total a (DOUBLE_pairwise_sum neg_zero fuel a).
Proof.
  induction fuel as [|fuel IH]; intros a Hne Hfuel.
  { destruct a; [done|simpl in Hfuel; lia]. }
  destruct (decide (length a < 8)%nat) as [Hs|Hs].
  { rewrite pairwise_sum_short by done. destruct a as [|a0 a]; [done|].
    cbn [foldl]. rewrite neg_zero_add. by apply pairwise_total_small. }
  rewrite pairwise_sum_long by lia.
  destruct (decide (length a ≤ 128)%nat) as [Hb|Hb].
  - destruct a as [|a0 [|a1 [|a2 [|a3 [|a4 [|a5 [|a6 [|a7 a']]]]]]]];
      try (simpl in Hs; lia).
    by apply pairwise_block_total.
  - pose proof (Nat.mod_upper_bound (length a / 2) 8 ltac:(lia)) as Hm.
    assert (64 ≤ length a / 2)%nat by (apply Nat.div_le_lower_bound; lia).
    assert (2 * (length a / 2) ≤ length a)%nat by (apply Nat.Div0.mul_div_le).
    apply pairwise_total_split; [lia| |].
    + apply IH.
      * intros E. apply (f_equal length) in E. rewrite length_take in E.
        cbn [length] in E. lia.
      * rewrite length_take. lia.
    + apply IH.
      * intros E. apply (f_equal length) in E. rewrite length_drop in E.
        cbn [length] in E. lia.
      * rewrite length_drop. lia.
Qed.

Lemma pairwise_total_functional a : ∀ t1 t2,
  pairwise_total a t1 → pairwise_total a t2 → t1 = t2.
Proof.
  intros t1 t2 H1. revert t2.
  induction H1 as [a0 a Ha|a Ha|a t1 t1' Ha H1 IH1 H1' IH1'];
    intros t2 H2; inversion H2; subst; simpl in *; try lia; try done.
  f_equal; auto.
Qed.

(** [nansum] computes the column's total, and nothing else is one. *)
Lemma nansum_total col : column_total col (nansum col).
Proof.
  unfold column_total, nansum. destruct col as [|x col]; [by left|right].
  split; [done|]. rewrite fmap_cons. unfold np_sum_float64.
  rewrite neg_zero_add. by apply DOUBLE_pairwise_sum_total.
Qed.

Lemma column_total_functional col t1 t2 :
  column_total col t1 → column_total col t2 → t1 = t2.
Proof.
  intros [[E1 ->]|[Hne Ht1]] [[E2 ->]|[Hne2 Ht2]].
  - done.
  - by subst.
  - by subst.
  - exact (pairwise_total_functional _ _ _ Ht1 Ht2).
Qed.

(** Fewer than eight values, none missing, are added from left to right. *)
Lemma column_total_few x col :
  (length (x :: col) < 8)%nat →
  Forall (λ y, is_nan y = false) (x :: col) →
  column_total (x :: col) (foldl PrimFloat.add x col).
Proof.
  intros Hlen Hnan. right. split; [done|].
  replace ((λ y, if is_nan y then 0%float else y) <$> x :: col) with (x :: col).
  - by apply pairwise_total_small.
  - symmetry. rewrite <- (list_fmap_id (x :: col)) at 2.
    apply Forall_fmap_ext_1. eapply Forall_impl; [exact Hnan|].
    intros y Hy. simpl in *. by rewrite Hy.
Qed.

(** A sum that starts from 0.0, as numpy's did before version 1.25, differs
    in one case only: a total of -0.0 becomes 0.0. *)
Lemma foldl_add_zero_start a : ∀ s s',
  s = s' ∨ (s = 0%float ∧ s' = neg_zero) →
  foldl PrimFloat.add s a = foldl PrimFloat.add s' a ∨
  (foldl PrimFloat.add s a = 0%float ∧ foldl PrimFloat.add s' a = neg_zero).
Proof.
  induction a as [|x a IH]; intros s s' H; [done|].
  cbn [foldl]. apply IH. destruct H as [->|[-> ->]]; [by left|].
  rewrite neg_zero_add. destruct (zero_add_cases x) as [->|[-> ->]]; [by left|by right].
Qed.

Lemma pairwise_sum_zero_start fuel : ∀ a,
  (8 ≤ length a ≤ fuel)%nat →
  DOUBLE_pairwise_sum 0 fuel a = DOUBLE_pairwise_sum neg_zero fuel a.
Proof.
  induction fuel as [|fuel IH]; intros a Hlen; [lia|].
  rewrite !pairwise_sum_long by lia.
  destruct (decide (length a ≤ 128)%nat) as [Hb|Hb].
  - destruct a as [|a0 [|a1 [|a2 [|a3 [|a4 [|a5 [|a6 [|a7 a']]]]]]]];
      try (simpl in Hlen; lia). done.
  - pose proof (Nat.mod_upper_bound (length a / 2) 8 ltac:(lia)) as Hm.
    assert (64 ≤ length a / 2)%nat by (apply Nat.div_le_lower_bound; lia).
    assert (2 * (length a / 2) ≤ length a)%nat by (apply Nat.Div0.mul_div_le).
    rewrite !IH; [done| |].
    + rewrite length_drop. lia.
    + rewrite length_take. lia.
Qed.

Lemma np_sum_zero_start a :
  np_sum_float64 0 a = np_sum_float64 neg_zero a ∨
  (np_sum_float64 0 a = 0%float ∧ np_sum_float64 neg_zero a = neg_zero).
Proof.
  destruct a as [|x a']; [by left|]. set (a := x :: a').
  unfold np_sum_float64. fold a. rewrite neg_zero_add.
  assert (DOUBLE_pairwise_sum 0 (length a) a = DOUBLE_pairwise_sum neg_zero (length a) a ∨
          (DOUBLE_pairwise_sum 0 (length a) a = 0%float ∧
           DOUBLE_pairwise_sum neg_zero (length a) a = neg_zero)) as H.
  { destruct (decide (length a < 8)%nat) as [Hs|Hs].
    - rewrite !pairwise_sum_short by done. apply foldl_add_zero_start. by right.
    - left. apply pairwise_sum_zero_start. lia. }
  destruct H as [->|[-> ->]]; [|by right].
  destruct (zero_add_cases (DOUBLE_pairwise_sum neg_zero (length a) a)) as [->|[-> ->]];
    [by left|by right].
Qed.
Lemma thresh5_nil_of_length df :
  Z.of_nat (length (thresh5 df)) = 0 → thresh5 df = [].
Proof. destruct (thresh5 df); [done|simpl; lia]. Qed.

Lemma lesion_wise_dice_spec df fp :
  let th := thresh5 df in
  let n := Z.of_nat (length th) + Z.of_nat (length fp) in
  (n ≠ 0 → lesion_wise_dice df fp = (nansum (dice_lesionwise <$> th) / Z2F n)%float) ∧
  (n = 0 → lesion_wise_dice df fp = nan).
Proof.
  intros th n. unfold lesion_wise_dice, column_sum, truediv. fold th. fold n.
  split.
  - intros Hn. destruct df as [|r df]; [|done].
    destruct (Z.eqb_spec n 0); [done|]. reflexivity.
  - intros Hn. rewrite Hn.
    assert (thresh5 df = []) as Hth.
    { apply thresh5_nil_of_length. unfold n, th in Hn. lia. }
    unfold th. rewrite Hth. destruct df; reflexivity.
Qed.

Lemma lesion_wise_hd95_spec df fp :
  let th := thresh5 df in
  let k := Z.of_nat (length fp) in
  let n := Z.of_nat (length th) + k in
  (n ≠ 0 → lesion_wise_hd95 df fp =
             ((nansum (hd95_lesionwise <$> th) + Z2F (k * 374)) / Z2F n)%float) ∧
  (n = 0 → lesion_wise_hd95 df fp = nan).
Proof.
  intros th k n. unfold lesion_wise_hd95, column_sum, truediv, pynum_add_int.
  fold th. fold k. fold n. split.
  - intros Hn. destruct df as [|r df]; [|done].
    destruct (Z.eqb_spec n 0); [done|]. simpl.
    change (nansum (hd95_lesionwise <$> th)) with 0%float.
    rewrite zero_add by (apply Z2F_nonneg; lia). reflexivity.
  - intros Hn. rewrite Hn.
    assert (thresh5 df = []) as Hth.
    { apply thresh5_nil_of_length. unfold n, k, th in Hn. lia. }
    assert (k = 0) as Hk by (unfold n, k, th in *; lia).
    unfold th. rewrite Hth, Hk. destruct df; reflexivity.
Qed.

(** C3: the lesion-wise Dice is the sum of the Dice scores of the records
    whose volume exceeds 5, over (their number + the number of false
    positives); the lesion-wise HD95 is (the sum of their HD95 + 374 per
    false positive) over the same denominator.  The arithmetic is binary64
    and a sum is the column's total: its values added pairwise, a missing
    value counting as 0.  When the denominator is 0 both scores are NaN.
    [tissue_metrics] is a function: nothing is raised past the handlers. *)
Theorem lesion_wise_scores_spec (s : scores) :
  let df := (tissue_metrics s).1 in
  let d := (tissue_metrics s).2 in
  let th := filter (λ r, (5 <? gt_lesion_vol r)%float = true) df in
  let k := Z.of_nat (length (fp s)) in
  let n := Z.of_nat (length th) + k in
  (n ≠ 0 →
     ∃ total_dice total_hd95,
       column_total (dice_lesionwise <$> th) total_dice ∧
       column_total (hd95_lesionwise <$> th) total_hd95 ∧
       LesionWise_Score_Dice d = (total_dice / Z2F n)%float ∧
       LesionWise_Score_HD95 d = ((total_hd95 + Z2F (k * 374)) / Z2F n)%float) ∧
  (n = 0 → LesionWise_Score_Dice d = nan ∧ LesionWise_Score_HD95 d = nan).
Proof.
  intros df d th k n. unfold d, tissue_metrics. simpl.
  destruct (lesion_wise_dice_spec df (fp s)) as [D1 D2].
  destruct (lesion_wise_hd95_spec df (fp s)) as [H1 H2].
  split; intros Hn.
  - exists (nansum (dice_lesionwise <$> th)), (nansum (hd95_lesionwise <$> th)).
    split; [apply nansum_total|]. split; [apply nansum_total|].
    split; [by apply D1|by apply H1].
  - split; [by apply D2|by apply H2].
Qed.

(** Eight values whose pairwise sum is not their sum from left to right:
    added one by one to 1, each 2^-53 is rounded away. *)
Example pairwise_not_left_to_right :
  let col := [1; 0x1p-53; 0x1p-53; 0x1p-53; 0x1p-53; 0x1p-53; 0x1p-53; 0x1p-53]%float in
  nansum col = 0x1.0000000000003p+0%float ∧
  foldl PrimFloat.add 0%float col = 1%float.
Proof. split; reflexivity. Qed.

(** Three Dice scores, one of them missing: the missing one counts as 0 in
    the sum and as a record in the denominator. *)
Example lesion_wise_dice_with_missing :
  let row := λ g v, mk_metric_pair [] g 8 v 0 in
  lesion_wise_dice [row 1 0.5%float; row 2 nan; row 3 1%float] [] = 0.5%float.
Proof. reflexivity. Qed.

(** With no lesion and no false positive the division is between two Python
    integers and raises; the handler turns that into NaN. *)
Example lesion_wise_dice_handler :
  truediv (column_sum [] (thresh5 []) dice_lesionwise) 0 = inl ZeroDivisionError ∧
  lesion_wise_dice [] [] = nan ∧ lesion_wise_hd95 [] [] = nan.
Proof. repeat split. Qed.

Lemma replace_inf_infinity : replace_inf infinity = 374%float.
Proof. reflexivity. Qed.

Lemma replace_inf_other x : x ≠ infinity → replace_inf x = x.
Proof.
  intros Hx. unfold replace_inf.
  destruct (x =? infinity)%float eqn:E; [|done].
  by apply eqb_infinity in E.
Qed.

Lemma thresh5_elem_of df r :
  r ∈ thresh5 df ↔ r ∈ df ∧ (5 <? gt_lesion_vol r)%float = true.
Proof. unfold thresh5. rewrite list_elem_of_filter. tauto. Qed.

Lemma metric_df_of_Permutation rows :
  metric_df_of rows ≡ₚ replace_row <$> rows.
Proof.
  unfold metric_df_of. apply fmap_Permutation, merge_sort_Permutation.
Qed.

(** C4: the per-lesion frame that is reported holds the rows of
    [metric_pairs] with every +infinity replaced by 374, so no HD95 in it is
    +infinity; the threshold filter and the aggregate HD95 work on that
    frame, so no value that is summed is +infinity either. *)
Theorem infinite_hd95_replaced (s : scores) :
  let df := (tissue_metrics s).1 in
  let d := (tissue_metrics s).2 in
  df ≡ₚ replace_row <$> metric_pairs (lesions s) ∧
  (∀ r, hd95_lesionwise r = infinity →
        hd95_lesionwise (replace_row r) = 374%float) ∧
  (∀ r, hd95_lesionwise r ≠ infinity →
        hd95_lesionwise (replace_row r) = hd95_lesionwise r) ∧
  (∀ r, r ∈ df → hd95_lesionwise r ≠ infinity) ∧
  LesionWise_Score_HD95 d = lesion_wise_hd95 df (fp s) ∧
  (∀ x, x ∈ hd95_lesionwise <$> thresh5 df → x ≠ infinity).
Proof.
  intros df d. unfold d, df, tissue_metrics. simpl.
  assert (Hdf : ∀ r, r ∈ metric_df_of (metric_pairs (lesions s)) →
                     hd95_lesionwise r ≠ infinity).
  { intros r Hr. rewrite metric_df_of_Permutation in Hr.
    apply list_elem_of_fmap in Hr as (r0 & -> & _). simpl.
    apply replace_inf_finite. }
  split; [apply metric_df_of_Permutation|].
  split; [intros r Hr; simpl; rewrite Hr; apply replace_inf_infinity|].
  split; [intros r Hr; simpl; by apply replace_inf_other|].
  split; [exact Hdf|]. split; [done|].
  intros x (r & -> & Hr)%list_elem_of_fmap.
  apply Hdf. by apply thresh5_elem_of in Hr as [Hr _].
Qed.

(** A lesion without overlap has HD95 +infinity; its row and the aggregate
    show 374. *)
Example infinite_hd95_scenario :
  let s := mk_scores
             (mk_matches [] [] [1] [mk_metric_pair [] 1 8 0 infinity])
             [] 0 8 0 0 1 in
  hd95_lesionwise <$> (tissue_metrics s).1 = [374%float] ∧
  LesionWise_Score_HD95 (tissue_metrics s).2 = 374%float.
Proof. split; reflexivity. Qed.

Lemma lesion_wise_only_thresholded df df' fp :
  thresh5 df' = thresh5 df →
  lesion_wise_dice df' fp = lesion_wise_dice df fp ∧
  lesion_wise_hd95 df' fp = lesion_wise_hd95 df fp.
Proof.
  intros Hth.
  destruct (lesion_wise_dice_spec df fp) as [D1 D2].
  destruct (lesion_wise_dice_spec df' fp) as [D1' D2'].
  destruct (lesion_wise_hd95_spec df fp) as [H1 H2].
  destruct (lesion_wise_hd95_spec df' fp) as [H1' H2'].
  rewrite Hth in D1', D2', H1', H2'.
  destruct (decide (Z.of_nat (length (thresh5 df)) + Z.of_nat (length fp) = 0))
    as [Hn|Hn].
  - by rewrite D2, D2', H2, H2'.
  - by rewrite D1, D1', H1, H1'.
Qed.

Lemma intersecting_ids_nonempty pred gt g :
  intersecting_ids pred gt g ≠ [] ↔ ∃ c, c ≠ 0 ∧ overlaps pred gt c g.
Proof.
  split.
  - destruct (intersecting_ids pred gt g) as [|c l] eqn:E; [done|]. intros _.
    exists c. apply elem_of_intersecting_ids. rewrite E. apply list_elem_of_here.
  - intros (c & Hc) Hnil. apply elem_of_intersecting_ids in Hc.
    rewrite Hnil in Hc. by apply elem_of_nil in Hc.
Qed.

Lemma length_filter_split {A} (f : A → list Z) (l : list A) :
  (length (filter (λ x, f x ≠ []) l) + length (filter (λ x, f x = []) l))%nat
  = length l.
Proof.
  induction l as [|x l IH]; [done|]. rewrite !filter_cons.
  destruct (decide (f x ≠ [])), (decide (f x = [])); simpl; try done; lia.
Qed.

(** Both lesions of the example have volume 1: neither takes part in the
    aggregates (Dice 0/(0+1), HD95 374/(0+1), from the one false positive),
    yet both are counted as detected. *)
Example small_lesions_counted :
  ∃ acc fp,
    lesion_by_lesion example_hd95 [5%nat] example_pred_cc example_gt_cc
      example_zooms = inr (acc, fp) ∧
    gt_lesion_vol <$> (tissue_metrics (mk_scores acc fp 0 1 1 0 1)).1
      = [1%float; 1%float] ∧
    (tissue_metrics (mk_scores acc fp 0 1 1 0 1)).2
      = mk_metrics_dict 2 2 1 0 0 1 0 1 0 374.
Proof. eexists _, _. split; [vm_compute; reflexivity|]. split; reflexivity. Qed.

(** * Further properties *)

(** ** More binary64 arithmetic *)

(** The binary64 image of an integer below 2^53 is exact: its mantissa is
    the integer shifted to 53 digits. *)
Lemma Z2F_normal_value N :
  0 < N < 2 ^ 53 →
  ∃ m e, normal53 (Z2F N) m e ∧ -52 ≤ e ≤ 0 ∧ Zpos m = N * 2 ^ (- e) ∧
         Zpos (digits2_pos (Z.to_pos N)) = 53 + e.
Proof.
  intros HN. destruct N as [|p|p]; try lia.
  pose proof (digits2_bounds p) as Hb.
  rewrite Pos2Z.id.
  set (d := Zpos (digits2_pos p)) in *.
  assert (1 ≤ d ≤ 53) as Hd.
  { split; [unfold d; lia|].
    destruct (Z_le_gt_dec d 53) as [|Hgt]; [done|].
    assert (2 ^ 53 ≤ 2 ^ (d - 1)) by (apply Z.pow_le_mono_r; lia). lia. }
  assert (∃ mz, shl_align p 0 (fexp prec emax (d + 0)) = (mz, d - 53) ∧
                Zpos (digits2_pos mz) = 53 ∧ Zpos mz = Zpos p * 2 ^ (53 - d))
    as (mz & Hsh & Hmz & Hval).
  { rewrite fexp64. replace (Z.max (d + 0 - 53) (-1074)) with (d - 53) by lia.
    destruct (Z.eq_dec d 53) as [Hd53|Hd53].
    - exists p. rewrite Hd53. rewrite shl_align_ge by lia. simpl.
      split; [done|]. split; [done|]. lia.
    - destruct (shl_align_lt p 0 (d - 53) ltac:(lia)) as (m' & -> & Hm').
      exists m'. split; [done|]. split.
      + rewrite (digits2_shifted m' p (0 - (d - 53)) 0); fold d; lia.
      + rewrite Hm'. f_equal. f_equal. lia. }
  exists mz, (d - 53).
  split; [|split; [lia|split; [rewrite Hval; f_equal; f_equal; lia|lia]]].
  split; [|done].
  unfold Z2F, binary_normalize, binary_round. fold d. rewrite Hsh.
  rewrite (binary_round_aux_down false mz (d - 53) mz 0 0) by lia.
  rewrite Z.add_0_r.
  apply Prim2SF_SF2Prim. unfold SpecFloat.valid_binary, bounded, canonical_mantissa.
  rewrite Hmz, fexp64.
  apply andb_true_intro. split; [apply Z.eqb_eq; lia|].
  apply Z.leb_le. change (emax - prec) with 971. lia.
Qed.

Lemma Prim2SF_two : Prim2SF 2 = S754_finite false 4503599627370496 (-51).
Proof. reflexivity. Qed.

Lemma mul_two_l x m e :
  normal53 x m e → -1022 ≤ e ≤ 970 → normal53 (2 * x)%float m (e + 1).
Proof.
  intros [Hx Hm] He. split; [|done].
  rewrite FloatAxioms.mul_spec, Hx, Prim2SF_two.
  unfold SF64mul, SFmul. cbn [xorb].
  rewrite (binary_round_aux_down false _ (-51 + e) m 0 52); try lia.
  f_equal. lia.
Qed.

(** Doubling is exact. *)
Lemma Z2F_double N :
  0 < N < 2 ^ 52 → (2 * Z2F N)%float = Z2F (2 * N).
Proof.
  intros HN.
  destruct (Z2F_normal_value N ltac:(lia)) as (m & e & Hn & He & Hv & Hd).
  destruct (Z2F_normal_value (2 * N) ltac:(lia)) as (m' & e' & Hn' & He' & Hv' & Hd').
  destruct N as [|p|p]; try lia.
  change (2 * Zpos p) with (Zpos p~0) in *. rewrite Pos2Z.id in *.
  cbn [digits2_pos] in Hd'. rewrite Pos2Z.inj_succ in Hd'.
  assert (e' = e + 1) as -> by lia.
  assert (m' = m) as ->.
  { apply Pos2Z.inj. rewrite Hv, Hv'.
    replace (- e) with (Z.succ (- (e + 1))) by lia.
    rewrite Z.pow_succ_r by lia. lia. }
  pose proof (mul_two_l _ m e Hn ltac:(lia)) as [H2 _].
  destruct Hn' as [Hn' _]. apply Prim2SF_inj. congruence.
Qed.

Lemma div_zero_l x m e : normal53 x m e → (0 / x)%float = 0%float.
Proof.
  intros [Hx _]. apply Prim2SF_inj. rewrite FloatAxioms.div_spec, Hx. reflexivity.
Qed.

(** ** More on dice *)

Lemma dice_counts im1 im2 :
  shape im1 = shape im2 →
  dice im1 im2 =
  inr (2 * Z2F (overlap_size (data im1) (data im2))
       / Z2F (mask_size (data im1) + mask_size (data im2)))%float.
Proof.
  intros H. unfold dice. rewrite decide_False by (intros Hne; by apply Hne).
  by rewrite count_nonzero_logical_and, !count_nonzero_astype_bool.
Qed.

Lemma overlap_size_comm a b : overlap_size a b = overlap_size b a.
Proof.
  unfold overlap_size. f_equal. revert b.
  induction a as [|x a IH]; intros [|y b]; try done.
  simpl. rewrite !filter_cons. cbn [fst snd].
  destruct (decide (x ≠ 0 ∧ y ≠ 0)) as [[? ?]|Hn];
    destruct (decide (y ≠ 0 ∧ x ≠ 0)) as [[? ?]|Hn']; simpl;
    first [by rewrite IH | exfalso; by (apply Hn || apply Hn')].
Qed.

Lemma overlap_size_diag a : overlap_size a a = mask_size a.
Proof.
  unfold overlap_size, mask_size. f_equal.
  induction a as [|x a IH]; [done|].
  simpl. rewrite !filter_cons. cbn [fst snd].
  destruct (decide (x ≠ 0 ∧ x ≠ 0)) as [[? ?]|Hn]; destruct (decide (x ≠ 0)); simpl;
    first [by rewrite IH | done | exfalso; by apply Hn].
Qed.

Lemma overlap_size_disjoint a b :
  (∀ i x y, a !! i = Some x → b !! i = Some y → x = 0 ∨ y = 0) →
  overlap_size a b = 0.
Proof.
  unfold overlap_size. revert b.
  induction a as [|x a IH]; intros [|y b] H; try done.
  simpl. rewrite filter_cons. cbn [fst snd].
  rewrite decide_False.
  - apply IH. intros i. apply (H (S i)).
  - intros [? ?]. by destruct (H 0%nat x y eq_refl eq_refl).
Qed.

(** X1: [dice] is symmetric in its two arguments, errors included. *)
Theorem dice_symmetric (im1 im2 : ndarray) : dice im1 im2 = dice im2 im1.
Proof.
  destruct (decide (shape im1 = shape im2)) as [Heq|Hne].
  - rewrite (dice_counts im1 im2), (dice_counts im2 im1) by done.
    by rewrite overlap_size_comm, Z.add_comm.
  - unfold dice. rewrite !decide_True; [done|congruence|done].
Qed.

(** X2: the Dice score of an array with itself is exactly 1.0 as soon as it
    has a nonzero voxel (and fewer than 2^52 of them); with none it is NaN. *)
Theorem dice_self (im : ndarray) :
  (0 < mask_size (data im) < 2 ^ 52 → dice im im = inr 1%float) ∧
  (mask_size (data im) = 0 → dice im im = inr nan).
Proof.
  rewrite (dice_counts im im) by done. rewrite overlap_size_diag. split.
  - intros Hn. rewrite Z2F_double by done. f_equal.
    replace (mask_size (data im) + mask_size (data im)) with (2 * mask_size (data im))
      by lia.
    destruct (Z2F_normal (2 * mask_size (data im)) ltac:(lia)) as (m & e & Hn' & _).
    by apply (div_self _ m e).
  - intros ->. reflexivity.
Qed.

(** X3: when no voxel is nonzero in both arrays and at least one array has a
    nonzero voxel, the Dice score is exactly 0.0. *)
Theorem dice_disjoint (im1 im2 : ndarray) :
  shape im1 = shape im2 →
  (∀ i x y, data im1 !! i = Some x → data im2 !! i = Some y → x = 0 ∨ y = 0) →
  0 < mask_size (data im1) + mask_size (data im2) < 2 ^ 53 →
  dice im1 im2 = inr 0%float.
Proof.
  intros Hs Hd Hn. rewrite dice_counts by done.
  rewrite overlap_size_disjoint by done. f_equal.
  destruct (Z2F_normal _ Hn) as (m & e & Hn' & _).
  change (2 * Z2F 0)%float with 0%float. by apply (div_zero_l _ m e).
Qed.

Lemma dice_disjoint_witness :
  dice (mk_ndarray [3%nat] [1; 0; 0]) (mk_ndarray [3%nat] [0; 2; 0]) = inr 0%float.
Proof.
  apply (dice_disjoint (mk_ndarray [3%nat] [1; 0; 0]) (mk_ndarray [3%nat] [0; 2; 0])).
  - reflexivity.
  - intros [|[|[|i]]] x y; simpl; intros [= <-] [= <-]; lia.
  - vm_compute. split; reflexivity.
Defined.

(** ** More on the tissue masks *)

(** Masking a mask: 1 is a foreground label of WT and of TC but not of ET. *)
Lemma tissue_rule_twice t1 t2 a :
  t1 ∈ label_values → t2 ∈ label_values →
  tissue_rule t2 (tissue_rule t1 a) =
    if decide (t2 = "ET") then np.zeros_like a else spec_mask t1 a.
Proof.
  intros H1 H2. rewrite !tissue_rule_spec by done. clear H1.
  unfold label_values in H2. rewrite !elem_of_cons, elem_of_nil in H2.
  unfold np.zeros_like.
  destruct H2 as [->|[->|[->|[]]]];
    [rewrite decide_False by done..|rewrite decide_True by done];
    unfold spec_mask; rewrite <- list_fmap_compose;
    apply list_fmap_ext; intros _ x _; simpl;
    destruct (bool_decide (x ∈ spec_foreground t1)); done.
Qed.

(** X4: the masks cannot be refined by a second call on the same arrays.
    After a call for one tissue type, a call for WT or TC leaves both arrays
    as the first call made them, and a call for ET sets both to zero. *)
Theorem get_TissueWiseSeg_second_call (h : heap) (p g : loc) (t1 t2 : string)
    (a b : list Z) :
  t1 ∈ label_values → t2 ∈ label_values → p ≠ g →
  h !! p = Some a → h !! g = Some b →
  ∃ h1 h2,
    get_TissueWiseSeg p g t1 h = ((p, g), h1) ∧
    get_TissueWiseSeg p g t2 h1 = ((p, g), h2) ∧
    h2 !! p = Some (if decide (t2 = "ET") then np.zeros_like a else spec_mask t1 a) ∧
    h2 !! g = Some (if decide (t2 = "ET") then np.zeros_like b else spec_mask t1 b).
Proof.
  intros H1 H2 Hpg Hp Hg. eexists _, _.
  split; [apply get_TissueWiseSeg_heap|]. split; [apply get_TissueWiseSeg_heap|].
  split.
  - rewrite lookup_alter_ne, lookup_alter_eq by done.
    rewrite lookup_alter_ne, lookup_alter_eq, Hp by done. simpl.
    by rewrite tissue_rule_twice.
  - rewrite lookup_alter_eq, lookup_alter_ne by done.
    rewrite lookup_alter_eq, lookup_alter_ne, Hg by done. simpl.
    by rewrite tissue_rule_twice.
Qed.

Lemma get_TissueWiseSeg_second_call_witness :
  ∃ h1 h2,
    get_TissueWiseSeg 0%nat 1%nat "WT"
      (<[1%nat := [1; 0; 3]]> {[0%nat := [2; 3; 0]]}) = ((0%nat, 1%nat), h1) ∧
    get_TissueWiseSeg 0%nat 1%nat "TC" h1 = ((0%nat, 1%nat), h2) ∧
    h2 !! 0%nat = Some (if decide ("TC" = "ET") then np.zeros_like [2; 3; 0]
                        else spec_mask "WT" [2; 3; 0]) ∧
    h2 !! 1%nat = Some (if decide ("TC" = "ET") then np.zeros_like [1; 0; 3]
                        else spec_mask "WT" [1; 0; 3]).
Proof.
  refine (get_TissueWiseSeg_second_call _ 0%nat 1%nat "WT" "TC" [2; 3; 0] [1; 0; 3]
            _ _ _ _ _).
  - unfold label_values. repeat constructor.
  - unfold label_values. repeat constructor.
  - discriminate.
  - reflexivity.
  - reflexivity.
Defined.

(** X5: when the prediction and the ground truth are one and the same array
    object, the rule is applied to it twice: for WT and TC it ends up holding
    its mask, for ET it ends up all zero. *)
Theorem get_TissueWiseSeg_same_object (h : heap) (p : loc) (t : string)
    (a : list Z) :
  t ∈ label_values → h !! p = Some a →
  ∃ h', get_TissueWiseSeg p p t h = ((p, p), h') ∧
        h' !! p = Some (if decide (t = "ET") then np.zeros_like a else spec_mask t a) ∧
        ∀ l, l ≠ p → h' !! l = h !! l.
Proof.
  intros Ht Hp. eexists. split; [apply get_TissueWiseSeg_heap|]. split.
  - rewrite !lookup_alter_eq, Hp. simpl. by rewrite tissue_rule_twice.
  - intros l Hl. by rewrite !lookup_alter_ne.
Qed.

Lemma get_TissueWiseSeg_same_object_witness :
  ∃ h', get_TissueWiseSeg 0%nat 0%nat "ET" {[0%nat := [2; 3; 0]]} = ((0%nat, 0%nat), h') ∧
        h' !! 0%nat = Some (if decide ("ET" = "ET") then np.zeros_like [2; 3; 0]
                            else spec_mask "ET" [2; 3; 0]) ∧
        ∀ l, l ≠ 0%nat → h' !! l = ({[0%nat := [2; 3; 0]]} : heap) !! l.
Proof.
  refine (get_TissueWiseSeg_same_object _ 0%nat "ET" [2; 3; 0] _ _).
  - unfold label_values. repeat constructor.
  - reflexivity.
Defined.

(** ** More on merging by dilation *)

(** X6: on a zero-size dilated map the maximum cannot be taken and
    [get_GTseg_combinedByDilation] raises numpy's [ValueError], whatever the
    original map is; when the dilated map has no component (its maximum is
    not positive) the loop body never runs, the original map is never looked
    at, and the result is all zero; for two non-empty maps of one size the
    function returns a map of that size. *)
Theorem combinedByDilation_edge_cases (w : Z) (lab : list Z) :
  get_GTseg_combinedByDilation w [] lab =
    inl (ValueError "zero-size array to reduction operation maximum which has no identity") ∧
  (∀ dil m, np.max dil = inr m → m ≤ 0 →
     get_GTseg_combinedByDilation w dil lab = inr (np.zeros_like dil)) ∧
  (∀ dil, dil ≠ [] → length dil = length lab →
     ∃ out, get_GTseg_combinedByDilation w dil lab = inr out ∧
            length out = length dil).
Proof.
  split; [done|]. split.
  - intros dil m Hm Hle. unfold get_GTseg_combinedByDilation. rewrite Hm.
    cbn [mbind result_bind]. by rewrite seqZ_nil by lia.
  - intros dil Hne Hlen.
    destruct (np.max dil) as [e|m] eqn:Hm; [by destruct dil|].
    eexists. split; [by apply combinedByDilation_same_size|].
    apply length_merge_fold; [done|apply length_zeros_like].
Qed.

(** Two maps of different sizes, the original one not a single element:
    the first iteration raises, at the product of line 104 or at the
    addition of line 107. *)
Lemma combinedByDilation_size_mismatch w dil lab m :
  np.max dil = inr m → 1 ≤ m →
  length lab ≠ length dil → length lab ≠ 1%nat →
  ∃ msg, get_GTseg_combinedByDilation w dil lab = inl (ValueError msg).
Proof.
  intros Hm Hpos Hlen Hone. unfold get_GTseg_combinedByDilation. rewrite Hm.
  cbn [mbind result_bind]. rewrite seqZ_cons by lia. cbn [for_each].
  assert (∃ msg, dilation_step w dil lab (np.zeros_like dil) 1 = inl (ValueError msg))
    as [msg ->]; [|by exists msg].
  unfold dilation_step.
  set (tmp := np.place _ _ 1).
  assert (length tmp = length dil) as Htmp.
  { unfold tmp. rewrite length_place, length_zeros_like;
      [done|by rewrite length_where, length_zeros_like]. }
  unfold np_broadcast at 1. rewrite decide_False by lia.
  destruct lab as [|l0 [|l1 lab]]; [| done |].
  - destruct tmp as [|t0 [|t1 tmp]]; [done| |eauto].
    cbn [mbind result_bind]. unfold np_iadd, np_broadcast.
    destruct dil as [|d0 [|d1 dil]]; try done. simpl. eauto.
  - destruct tmp as [|t0 [|t1 tmp]]; [eauto| |eauto].
    cbn [mbind result_bind]. unfold np_iadd, np_broadcast.
    destruct dil as [|d0 [|d1 dil]]; try done. simpl. eauto.
Qed.

(** X7: the merged map is the dilated component map restricted to the
    nonzero voxels of the original map.  The ids of the original components
    play no part, and a nonzero original voxel that lies in no dilated
    component is set to 0. *)
Theorem combinedByDilation_closed_form (w : Z) (dil lab : list Z) :
  length dil = length lab →
  Forall (λ x, 0 ≤ x < 2 ^ w) dil →
  Forall (λ x, 0 ≤ x < 2 ^ w) lab →
  dil ≠ [] →
  get_GTseg_combinedByDilation w dil lab =
    inr (zip_with (λ d l, if bool_decide (l = 0) then 0 else d) dil lab).
Proof.
  intros Hlen Hdil Hlab Hne.
  destruct (np.max dil) as [e|m] eqn:Hm; [by destruct dil|].
  rewrite (combinedByDilation_same_size w dil lab m) by done. f_equal.
  apply list_eq. intros i.
  destruct (dil !! i) as [d|] eqn:Hd.
  - destruct (lookup_lt_is_Some_2 lab i) as [l Hl].
    { apply lookup_lt_Some in Hd. lia. }
    rewrite (combinedByDilation_lookup w dil lab m i d l) by done.
    rewrite lookup_zip_with, Hd, Hl. simpl. f_equal.
    pose proof (Forall_lookup_1 _ _ _ _ Hdil Hd) as Hdr. simpl in Hdr.
    pose proof (Forall_lookup_1 _ _ _ _ Hlab Hl) as Hlr. simpl in Hlr.
    case_bool_decide; destruct (Z.ltb_spec 0 l), (Z.leb_spec 1 d); simpl; lia.
  - rewrite lookup_zip_with, Hd. simpl.
    apply lookup_ge_None. rewrite length_merge_fold; [|done|apply length_zeros_like].
    by apply lookup_ge_None.
Qed.

Lemma combinedByDilation_closed_form_witness :
  get_GTseg_combinedByDilation 16 [1; 1; 0; 0; 2] [1; 0; 2; 0; 3] =
    inr (zip_with (λ d l, if bool_decide (l = 0) then 0 else d)
           [1; 1; 0; 0; 2] [1; 0; 2; 0; 3]).
Proof.
  apply (combinedByDilation_closed_form 16 [1; 1; 0; 0; 2] [1; 0; 2; 0; 3]).
  - reflexivity.
  - repeat constructor; lia.
  - repeat constructor; lia.
  - discriminate.
Defined.

(** In that example the original component 2 lies in no dilated component
    and disappears. *)
Example combinedByDilation_drops_uncovered :
  get_GTseg_combinedByDilation 16 [1; 1; 0; 0; 2] [1; 0; 2; 0; 3]
  = inr [1; 0; 0; 0; 2].
Proof. reflexivity. Qed.

(** ** More on sensitivity and specificity *)

Lemma sub_self x m e : normal53 x m e → (x - x)%float = 0%float.
Proof.
  intros [Hx _]. apply Prim2SF_inj. rewrite FloatAxioms.sub_spec, Hx.
  unfold SF64sub, SFsub. rewrite Z.min_id, shl_align_ge by lia.
  cbn [fst cond_Zopp]. rewrite Z.sub_diag. reflexivity.
Qed.

Lemma sub_zero_r x m e : normal53 x m e → (x - 0)%float = x.
Proof.
  intros [Hx _]. apply Prim2SF_inj. rewrite FloatAxioms.sub_spec, Hx. reflexivity.
Qed.

Lemma count_both_one_diag a :
  Forall (λ x, x = 0 ∨ x = 1) a → count_both_one a a = np.sum a.
Proof.
  unfold count_both_one. induction 1 as [|x a Hx _ IH]; [done|].
  rewrite sum_cons, <- IH. simpl. rewrite filter_cons. cbn [fst snd].
  destruct Hx as [-> | ->].
  - rewrite decide_False by (by intros [? _]). lia.
  - rewrite decide_True by done. cbn [length]. lia.
Qed.

Lemma count_neither_one_diag a :
  Forall (λ x, x = 0 ∨ x = 1) a →
  count_neither_one a a = Z.of_nat (length a) - np.sum a.
Proof.
  unfold count_neither_one. induction 1 as [|x a Hx _ IH]; [done|].
  rewrite sum_cons. simpl zip. rewrite filter_cons. cbn [fst snd].
  destruct Hx as [-> | ->].
  - rewrite decide_True by done. cbn [length]. lia.
  - rewrite decide_False by (by intros [? _]). cbn [length]. lia.
Qed.

(** A 0/1 mask has a background voxel exactly when its sum is below its
    size. *)
Lemma background_voxel a :
  Forall (λ x, x = 0 ∨ x = 1) a →
  (0 ∈ a ↔ 0 < Z.of_nat (length a) - np.sum a).
Proof.
  induction 1 as [|x a Hx Ha IH].
  - split; [by intros ?%elem_of_nil|simpl; lia].
  - pose proof (sum_mask_bounds a Ha). rewrite elem_of_cons, sum_cons, IH.
    cbn [length]. destruct Hx as [-> | ->]; split; lia.
Qed.

Lemma counts_of_empty_prediction result target :
  length result = length target →
  Forall (λ x, x = 0) result → Forall (λ x, x = 0 ∨ x = 1) target →
  np.sum result = 0 ∧ count_both_one result target = 0 ∧
  count_neither_one result target = Z.of_nat (length target) - np.sum target.
Proof.
  unfold count_both_one, count_neither_one.
  intros Hlen Hr. revert target Hlen.
  induction Hr as [|r rs -> _ IH]; intros [|t ts] Hlen Ht; try done.
  inversion Ht as [|? ? Hx Hts]; subst. cbn [length] in Hlen.
  destruct (IH ts ltac:(lia) Hts) as (IH1 & IH2 & IH3).
  rewrite !sum_cons. simpl zip. rewrite !filter_cons. cbn [fst snd].
  rewrite decide_False by (by intros [? _]).
  split; [lia|]. split; [done|].
  destruct Hx as [-> | ->].
  - rewrite decide_True by done. cbn [length]. lia.
  - rewrite decide_False by (by intros [_ ?]). cbn [length]. lia.
Qed.

(** X8: a 0/1 mask compared with itself (fewer than 2^53 voxels) has
    Sensitivity exactly 1.0, and Specificity exactly 1.0 when it has a
    background voxel; a mask with no background voxel gets Specificity 0.0,
    although nothing was predicted wrongly. *)
Theorem sensitivity_specificity_identical (a : list Z) :
  Forall (λ x, x = 0 ∨ x = 1) a →
  Z.of_nat (length a) < 2 ^ 53 →
  get_sensitivity_and_specificity a a =
    (1%float, if bool_decide (0 ∈ a) then 1%float else 0%float).
Proof.
  intros Ha Hsize.
  pose proof (sum_mask_bounds _ Ha) as Hs.
  pose proof (background_voxel _ Ha) as Hbg.
  unfold get_sensitivity_and_specificity.
  rewrite TP_count_both_one, TN_count_neither_one.
  rewrite count_both_one_diag, count_neither_one_diag by done.
  rewrite !Z2F_eqb_zero by lia.
  set (s := np.sum a) in *. set (n := Z.of_nat (length a) - s) in *.
  assert ((Z2F s - Z2F s)%float = 0%float) as ->.
  { destruct (decide (s = 0)) as [->|Hne]; [reflexivity|].
    destruct (Z2F_normal s ltac:(lia)) as (m & e & Hn & _). by apply (sub_self _ m e). }
  f_equal.
  - case_bool_decide as H0; simpl; [done|]. apply quotient_one. lia.
  - case_bool_decide as H0.
    + apply quotient_one. apply Hbg in H0. lia.
    + assert (n = 0) as -> by (rewrite Hbg in H0; lia). reflexivity.
Qed.

Lemma sensitivity_specificity_identical_witness :
  get_sensitivity_and_specificity example_target example_target =
    (1%float, if bool_decide (0 ∈ example_target) then 1%float else 0%float).
Proof.
  apply (sensitivity_specificity_identical example_target).
  - unfold example_target. repeat constructor; lia.
  - reflexivity.
Defined.

(** A mask that is foreground everywhere, compared with itself. *)
Example specificity_of_full_masks :
  get_sensitivity_and_specificity [1; 1; 1] [1; 1; 1] = (1%float, 0%float).
Proof. reflexivity. Qed.

(** X9: when the prediction mask is empty and the target mask is not (0/1
    masks of one size, fewer than 2^53 voxels), Sensitivity is exactly 0.0;
    Specificity is 1.0 when the target has a background voxel and 0.0 when it
    has none. *)
Theorem sensitivity_of_empty_prediction (result target : list Z) :
  length result = length target →
  Forall (λ x, x = 0) result →
  Forall (λ x, x = 0 ∨ x = 1) target →
  0 < np.sum target →
  Z.of_nat (length target) < 2 ^ 53 →
  get_sensitivity_and_specificity result target =
    (0%float, if bool_decide (0 ∈ target) then 1%float else 0%float).
Proof.
  intros Hlen Hr Ht Hpos Hsize.
  pose proof (sum_mask_bounds _ Ht) as Hs.
  pose proof (background_voxel _ Ht) as Hbg.
  destruct (counts_of_empty_prediction _ _ Hlen Hr Ht) as (H0 & HTP & HTN).
  unfold get_sensitivity_and_specificity.
  rewrite TP_count_both_one, TN_count_neither_one, H0, HTP, HTN.
  rewrite !Z2F_eqb_zero by lia.
  set (s := np.sum target) in *. set (n := Z.of_nat (length target) - s) in *.
  change (Z2F 0) with 0%float. change (0 - 0)%float with 0%float.
  change (1 * 0)%float with 0%float.
  destruct (Z2F_normal s ltac:(lia)) as (m & e & Hn & He).
  rewrite (sub_zero_r _ m e) by done.
  rewrite zero_add by (apply Z2F_nonneg; lia).
  rewrite (add_float_min _ m e) by (done || lia).
  rewrite (div_zero_l _ m e) by done.
  rewrite (bool_decide_false (s = 0)) by lia. rewrite andb_false_r.
  f_equal. case_bool_decide as Hz.
  - apply quotient_one. apply Hbg in Hz. lia.
  - assert (n = 0) as -> by (rewrite Hbg in Hz; lia). reflexivity.
Qed.

Lemma sensitivity_of_empty_prediction_witness :
  get_sensitivity_and_specificity [0; 0; 0; 0] example_target =
    (0%float, if bool_decide (0 ∈ example_target) then 1%float else 0%float).
Proof.
  apply (sensitivity_of_empty_prediction [0; 0; 0; 0] example_target).
  - reflexivity.
  - repeat constructor.
  - unfold example_target. repeat constructor; lia.
  - reflexivity.
  - reflexivity.
Defined.

(** ** More on the lesion loop *)

(** The mask of the matched predicted components, voxel by voxel. *)
Lemma matched_mask_fmap pred gt g :
  matched_mask pred gt g =
    (λ c, if bool_decide (c ∈ intersecting_ids pred gt g) then 1 else 0) <$> pred.
Proof.
  unfold matched_mask. cbv zeta. rewrite !place_where, <- list_fmap_compose.
  apply list_fmap_ext. intros _ c _. unfold not_isin, isin. simpl.
  destruct (decide (c ∈ intersecting_ids pred gt g)) as [Hin|Hnin].
  - rewrite (bool_decide_false (c ∉ _)) by (intros H; by apply H).
    by rewrite !bool_decide_true.
  - rewrite (bool_decide_true (c ∉ _)) by done.
    rewrite (bool_decide_false (c ∈ _)) by done.
    rewrite bool_decide_false; [done|].
    intros [H0 _]%elem_of_intersecting_ids. done.
Qed.

Section Records.

Variable robust_hausdorff95 : ndarray → ndarray → spacing → float.
Variable shp : list nat.
Variables pred gt : list Z.
Variable zooms : spacing.

Lemma lesion_step_record acc g :
  ∃ r, lesion_row pred gt zooms g r ∧
    lesion_scores robust_hausdorff95 shp pred gt zooms g r ∧
    lesion_step robust_hausdorff95 shp pred gt zooms acc g =
    inr (mk_matches
           (gt_tp acc ++ filter (λ g, intersecting_ids pred gt g ≠ []) [g])
           (tp acc ++ intersecting_ids pred gt g)
           (fn acc ++ filter (λ g, intersecting_ids pred gt g = []) [g])
           (metric_pairs acc ++ [r])).
Proof.
  destruct zooms as [[sx sy] sz] eqn:Hz. unfold lesion_step.
  fold (lesion_mask gt g). fold (intersecting_ids pred gt g).
  change (np.place (np.place pred _ 0) _ 1) with (matched_mask pred gt g).
  destruct (dice_same_shape shp (matched_mask pred gt g) (lesion_mask gt g)) as [v Hv].
  rewrite Hv. simpl.
  eexists (mk_metric_pair _ _ _ _ _).
  split; [repeat split; reflexivity|]. split; [split; [exact Hv|reflexivity]|].
  rewrite !filter_cons, !filter_nil.
  destruct (intersecting_ids pred gt g) as [|c icc]; simpl.
  - rewrite !app_nil_r. reflexivity.
  - rewrite !app_nil_r. reflexivity.
Qed.

Lemma for_each_lesion_record cs : ∀ acc,
  ∃ rs, Forall2 (λ g r, lesion_row pred gt zooms g r ∧
                        lesion_scores robust_hausdorff95 shp pred gt zooms g r) cs rs ∧
    for_each (lesion_step robust_hausdorff95 shp pred gt zooms) cs acc =
    inr (mk_matches
           (gt_tp acc ++ filter (λ g, intersecting_ids pred gt g ≠ []) cs)
           (tp acc ++ concat (intersecting_ids pred gt <$> cs))
           (fn acc ++ filter (λ g, intersecting_ids pred gt g = []) cs)
           (metric_pairs acc ++ rs)).
Proof.
  induction cs as [|c cs IH]; intros acc.
  - exists []. split; [constructor|]. simpl. rewrite !app_nil_r. by destruct acc.
  - destruct (lesion_step_record acc c) as (r & Hr & Hs & Hstep).
    simpl. rewrite Hstep. simpl.
    edestruct IH as (rs & Hrs & ->). exists (r :: rs). split; [by constructor|].
    simpl. rewrite <- !app_assoc. simpl.
    rewrite (filter_cons _ c cs), (filter_cons (λ g, _ = []) c cs).
    rewrite !filter_cons, !filter_nil.
    destruct (decide (intersecting_ids pred gt c ≠ []));
      destruct (decide (intersecting_ids pred gt c = [])); simpl; try done.
Qed.

(** The outcome of the whole comparison, in closed form. *)
Lemma lesion_by_lesion_closed m :
  np.max gt = inr m →
  ∃ rs,
    Forall2 (λ g r, lesion_row pred gt zooms g r ∧
                    lesion_scores robust_hausdorff95 shp pred gt zooms g r)
      (seqZ 1 m) rs ∧
    lesion_by_lesion robust_hausdorff95 shp pred gt zooms =
      inr (mk_matches
             (filter (λ g, intersecting_ids pred gt g ≠ []) (seqZ 1 m))
             (concat (intersecting_ids pred gt <$> seqZ 1 m))
             (filter (λ g, intersecting_ids pred gt g = []) (seqZ 1 m))
             rs,
           np.unique (np.select pred
             (np.where_ (not_isin (concat (intersecting_ids pred gt <$> seqZ 1 m) ++ [0]))
                pred))).
Proof.
  intros Hm. unfold lesion_by_lesion. rewrite Hm. simpl.
  destruct (for_each_lesion_record (seqZ 1 m) (mk_matches [] [] [] []))
    as (rs & Hrs & ->).
  exists rs. split; [exact Hrs|]. reflexivity.
Qed.

End Records.

Lemma StronglySorted_seqZ a n : StronglySorted Z.lt (seqZ a n).
Proof.
  remember (Z.to_nat n) as k eqn:Hk. revert a n Hk.
  induction k as [|k IH]; intros a n Hk.
  - rewrite seqZ_nil by lia. constructor.
  - rewrite seqZ_cons by lia. constructor; [apply IH; lia|].
    apply Forall_forall. intros x Hx%elem_of_seqZ. lia.
Qed.

Lemma records_of_lesions hd shp pred gt zooms cs rs :
  Forall2 (λ g r, lesion_row pred gt zooms g r ∧
                  lesion_scores hd shp pred gt zooms g r) cs rs →
  gt_lesion_numbers <$> rs = cs ∧
  concat (predicted_lesion_numbers <$> rs) = concat (intersecting_ids pred gt <$> cs) ∧
  ∀ r, r ∈ rs →
    gt_lesion_numbers r ∈ cs ∧
    lesion_row pred gt zooms (gt_lesion_numbers r) r ∧
    lesion_scores hd shp pred gt zooms (gt_lesion_numbers r) r.
Proof.
  induction 1 as [|g r cs rs [Hrow Hsc] _ (IH1 & IH2 & IH3)].
  - split; [done|]. split; [done|]. intros r0 Hr0. by apply elem_of_nil in Hr0.
  - pose proof Hrow as (Hg & Hp & _). csimpl. rewrite IH1, IH2, Hg, Hp.
    split; [done|]. split; [done|].
    intros r0 [->|Hin]%elem_of_cons.
    + rewrite Hg. split; [apply list_elem_of_here|done].
    + destruct (IH3 _ Hin) as (Hc & Hrest). split; [by apply list_elem_of_further|done].
Qed.

Lemma detected_le_matched pred gt cs :
  (length (filter (λ g, intersecting_ids pred gt g ≠ []) cs)
   ≤ length (concat (intersecting_ids pred gt <$> cs)))%nat.
Proof.
  induction cs as [|c cs IH]; [done|]. csimpl. rewrite filter_cons, length_app.
  destruct (decide (intersecting_ids pred gt c ≠ [])) as [Hne|_]; [|lia].
  destruct (intersecting_ids pred gt c); [done|]. simpl. lia.
Qed.

Lemma StronglySorted_filter_lt (P : Z → Prop) `{∀ x, Decision (P x)} l :
  StronglySorted Z.lt l → StronglySorted Z.lt (filter P l).
Proof.
  induction 1 as [|x l Hl IH Hx]; [constructor|].
  rewrite filter_cons. destruct (decide (P x)); [|done].
  constructor; [done|]. rewrite Forall_forall in Hx. apply Forall_forall.
  intros y [_ Hy]%list_elem_of_filter. by apply Hx.
Qed.

(** X10: every merged lesion id 1..max is listed in exactly one of [gt_tp]
    and [fn]: in [gt_tp] when some nonzero predicted component overlaps it,
    in [fn] otherwise; both lists are strictly ascending, and [tp] has at
    least as many entries as [gt_tp]. *)
Theorem detected_missed_partition
    (robust_hausdorff95 : ndarray → ndarray → spacing → float)
    (shp : list nat) (pred gt : list Z) (zooms : spacing) (m : Z) :
  np.max gt = inr m →
  ∃ acc fp,
    lesion_by_lesion robust_hausdorff95 shp pred gt zooms = inr (acc, fp) ∧
    gt_tp acc ++ fn acc ≡ₚ seqZ 1 m ∧
    (∀ g, g ∈ gt_tp acc ↔ 1 ≤ g ≤ m ∧ ∃ c, c ≠ 0 ∧ overlaps pred gt c g) ∧
    (∀ g, g ∈ fn acc ↔ 1 ≤ g ≤ m ∧ ¬ ∃ c, c ≠ 0 ∧ overlaps pred gt c g) ∧
    StronglySorted Z.lt (gt_tp acc) ∧ StronglySorted Z.lt (fn acc) ∧
    (length (gt_tp acc) ≤ length (tp acc))%nat.
Proof.
  intros Hm.
  destruct (lesion_by_lesion_closed robust_hausdorff95 shp pred gt zooms m Hm)
    as (rs & _ & ->).
  eexists _, _. split; [reflexivity|]. simpl.
  split; [|split; [|split; [|split; [|split]]]].
  - rewrite Permutation_app_comm. apply filter_app_complement.
  - intros g. rewrite list_elem_of_filter, elem_of_seqZ, intersecting_ids_nonempty. 
    split; intros [? ?]; split; first [done | lia].
  - intros g. rewrite list_elem_of_filter, elem_of_seqZ.
    rewrite <- intersecting_ids_nonempty.
    split; intros [H1 H2]; split; try lia.
    + intros Hne. by apply Hne.
    + destruct (decide (intersecting_ids pred gt g = [])) as [|Hne]; [done|].
      by destruct (H2 Hne).
  - apply StronglySorted_filter_lt, StronglySorted_seqZ.
  - apply StronglySorted_filter_lt, StronglySorted_seqZ.
  - apply detected_le_matched.
Qed.

Lemma detected_missed_partition_witness :
  ∃ acc fp,
    lesion_by_lesion example_hd95 [5%nat] example_pred_cc example_gt_cc example_zooms
      = inr (acc, fp) ∧
    gt_tp acc ++ fn acc ≡ₚ seqZ 1 2 ∧
    (∀ g, g ∈ gt_tp acc ↔
          1 ≤ g ≤ 2 ∧ ∃ c, c ≠ 0 ∧ overlaps example_pred_cc example_gt_cc c g) ∧
    (∀ g, g ∈ fn acc ↔
          1 ≤ g ≤ 2 ∧ ¬ ∃ c, c ≠ 0 ∧ overlaps example_pred_cc example_gt_cc c g) ∧
    StronglySorted Z.lt (gt_tp acc) ∧ StronglySorted Z.lt (fn acc) ∧
    (length (gt_tp acc) ≤ length (tp acc))%nat.
Proof.
  apply (detected_missed_partition example_hd95 [5%nat] example_pred_cc example_gt_cc
           example_zooms 2).
  reflexivity.
Defined.

Lemma sum_lesion_mask gt g : np.sum (lesion_mask gt g) = Z.of_nat (occurrences g gt).
Proof.
  rewrite lesion_mask_fmap. unfold occurrences.
  induction gt as [|q gt IH]; [done|].
  rewrite fmap_cons, sum_cons, IH, filter_cons.
  destruct (Z.eqb_spec q g); destruct (decide (q = g)); try done; simpl; lia.
Qed.

Lemma mask_size_lesion_mask gt g :
  mask_size (lesion_mask gt g) = Z.of_nat (occurrences g gt).
Proof.
  rewrite lesion_mask_fmap. unfold occurrences, mask_size. f_equal.
  induction gt as [|q gt IH]; [done|].
  rewrite fmap_cons, !filter_cons.
  destruct (Z.eqb_spec q g); destruct (decide (q = g)); try done;
    rewrite ?decide_True by done; rewrite ?decide_False by (intros H; by apply H);
    simpl; by rewrite IH.
Qed.

Lemma occurrences_bounds g l :
  (g ∈ l ↔ 0 < Z.of_nat (occurrences g l)) ∧ (occurrences g l ≤ length l)%nat.
Proof.
  unfold occurrences. induction l as [|x l [IH1 IH2]].
  - split; [|done]. split; [by intros ?%elem_of_nil|simpl; lia].
  - rewrite filter_cons, elem_of_cons. destruct (decide (x = g)) as [->|Hne]; simpl.
    + split; [|lia]. split; [lia|]. intros _. by left.
    + split; [|lia]. rewrite IH1. split.
      * intros [Heq|Hpos]; [congruence|done].
      * intros Hpos. by right.
Qed.

Lemma lookup_lesion_mask gt g i :
  lesion_mask gt g !! i = Some 1 ↔ gt !! i = Some g.
Proof.
  rewrite lesion_mask_fmap, list_lookup_fmap.
  destruct (gt !! i) as [q|]; simpl; [|done].
  destruct (Z.eqb_spec q g) as [->|Hne]; [done|]. split; intros [=]; done.
Qed.

Lemma lookup_matched_mask pred gt g i :
  matched_mask pred gt g !! i = Some 1 ↔
  ∃ c, pred !! i = Some c ∧ c ≠ 0 ∧ overlaps pred gt c g.
Proof.
  rewrite matched_mask_fmap, list_lookup_fmap.
  destruct (pred !! i) as [c|]; simpl; [|split; [done|by intros (? & ? & _)]].
  case_bool_decide as Hc; rewrite elem_of_intersecting_ids in Hc.
  - split; [intros _; eauto|done].
  - split; [done|]. intros (c' & [= <-] & ?). tauto.
Qed.

Lemma matched_mask_none pred gt g :
  intersecting_ids pred gt g = [] → Forall (λ x, x = 0) (matched_mask pred gt g).
Proof.
  intros Hnil. rewrite matched_mask_fmap, Hnil. apply Forall_fmap, Forall_forall.
  intros c _. simpl. by rewrite ?bool_decide_false by apply not_elem_of_nil.
Qed.

Lemma dice_without_match shp a b :
  Forall (λ x, x = 0) a →
  (0 < mask_size b < 2 ^ 53 → dice (mk_ndarray shp a) (mk_ndarray shp b) = inr 0%float) ∧
  (mask_size b = 0 → dice (mk_ndarray shp a) (mk_ndarray shp b) = inr nan).
Proof.
  intros Ha. rewrite (dice_counts (mk_ndarray shp a) (mk_ndarray shp b) eq_refl). simpl.
  rewrite (overlap_size_empty a b Ha), (mask_size_empty a Ha), Z.add_0_l.
  change (2 * Z2F 0)%float with 0%float. split.
  - intros Hn. destruct (Z2F_normal _ Hn) as (m & e & Hn' & _).
    f_equal. by apply (div_zero_l _ m e).
  - intros ->. reflexivity.
Qed.

Lemma dice_of_equal_masks shp a :
  0 < mask_size a < 2 ^ 52 → dice (mk_ndarray shp a) (mk_ndarray shp a) = inr 1%float.
Proof.
  intros Hn. rewrite (dice_counts (mk_ndarray shp a) (mk_ndarray shp a) eq_refl). simpl.
  rewrite overlap_size_diag.
  rewrite Z2F_double by done. f_equal.
  replace (mask_size a + mask_size a) with (2 * mask_size a) by lia.
  destruct (Z2F_normal (2 * mask_size a) ltac:(lia)) as (m & e & Hn' & _).
  by apply (div_self _ m e).
Qed.

(** X11: [metric_pairs] holds one record per merged lesion, in the order
    1..max, and [tp] is the concatenation of the records' predicted ids.  A
    record carries the ids of the predicted components that overlap the
    lesion, the lesion's voxel count times the spacing, and the Dice score
    and Hausdorff distance between the lesion's mask and the mask of ALL
    voxels of those predicted components, inside the lesion or not. *)
Theorem lesion_records_spec
    (robust_hausdorff95 : ndarray → ndarray → spacing → float)
    (shp : list nat) (pred gt : list Z) (zooms : spacing) (m : Z) :
  np.max gt = inr m →
  ∃ acc fp,
    lesion_by_lesion robust_hausdorff95 shp pred gt zooms = inr (acc, fp) ∧
    gt_lesion_numbers <$> metric_pairs acc = seqZ 1 m ∧
    tp acc = concat (predicted_lesion_numbers <$> metric_pairs acc) ∧
    (∀ r, r ∈ metric_pairs acc →
       let g := gt_lesion_numbers r in
       predicted_lesion_numbers r = intersecting_ids pred gt g ∧
       gt_lesion_vol r =
         (Z2F (Z.of_nat (occurrences g gt)) * zooms.1.1 * zooms.1.2 * zooms.2)%float ∧
       dice (mk_ndarray shp (matched_mask pred gt g)) (mk_ndarray shp (lesion_mask gt g))
         = inr (dice_lesionwise r) ∧
       hd95_lesionwise r =
         robust_hausdorff95 (mk_ndarray shp (lesion_mask gt g))
           (mk_ndarray shp (matched_mask pred gt g)) zooms) ∧
    (∀ g i, lesion_mask gt g !! i = Some 1 ↔ gt !! i = Some g) ∧
    (∀ g i, matched_mask pred gt g !! i = Some 1 ↔
            ∃ c, pred !! i = Some c ∧ c ≠ 0 ∧ overlaps pred gt c g).
Proof.
  intros Hm.
  destruct (lesion_by_lesion_closed robust_hausdorff95 shp pred gt zooms m Hm)
    as (rs & Hrs & ->).
  destruct (records_of_lesions _ _ _ _ _ _ _ Hrs) as (Hnum & Htp & Hrow).
  eexists _, _. split; [reflexivity|]. simpl.
  split; [done|]. split; [done|]. split; [|split].
  - intros r Hr. destruct (Hrow r Hr) as (_ & (_ & Hp & Hv) & Hd & Hh).
    rewrite sum_lesion_mask in Hv. done.
  - apply lookup_lesion_mask.
  - apply lookup_matched_mask.
Qed.

Lemma lesion_records_spec_witness :
  ∃ acc fp,
    lesion_by_lesion example_hd95 [5%nat] example_pred_cc example_gt_cc example_zooms
      = inr (acc, fp) ∧
    gt_lesion_numbers <$> metric_pairs acc = seqZ 1 2 ∧
    tp acc = concat (predicted_lesion_numbers <$> metric_pairs acc) ∧
    (∀ r, r ∈ metric_pairs acc →
       let g := gt_lesion_numbers r in
       predicted_lesion_numbers r = intersecting_ids example_pred_cc example_gt_cc g ∧
       gt_lesion_vol r =
         (Z2F (Z.of_nat (occurrences g example_gt_cc))
          * example_zooms.1.1 * example_zooms.1.2 * example_zooms.2)%float ∧
       dice (mk_ndarray [5%nat] (matched_mask example_pred_cc example_gt_cc g))
            (mk_ndarray [5%nat] (lesion_mask example_gt_cc g))
         = inr (dice_lesionwise r) ∧
       hd95_lesionwise r =
         example_hd95 (mk_ndarray [5%nat] (lesion_mask example_gt_cc g))
           (mk_ndarray [5%nat] (matched_mask example_pred_cc example_gt_cc g))
           example_zooms) ∧
    (∀ g i, lesion_mask example_gt_cc g !! i = Some 1 ↔ example_gt_cc !! i = Some g) ∧
    (∀ g i, matched_mask example_pred_cc example_gt_cc g !! i = Some 1 ↔
            ∃ c, example_pred_cc !! i = Some c ∧ c ≠ 0 ∧
                 overlaps example_pred_cc example_gt_cc c g).
Proof.
  apply (lesion_records_spec example_hd95 [5%nat] example_pred_cc example_gt_cc
           example_zooms 2).
  reflexivity.
Defined.

(** In the example, predicted component 1 has three voxels and meets both
    one-voxel lesions: each lesion is scored against all three voxels,
    2·1/(3+1). *)
Example lesion_scored_against_whole_components :
  ∃ acc fp,
    lesion_by_lesion example_hd95 [5%nat] example_pred_cc example_gt_cc example_zooms
      = inr (acc, fp) ∧
    dice_lesionwise <$> metric_pairs acc = [0.5%float; 0.5%float].
Proof. eexists _, _. split; [vm_compute; reflexivity|]. reflexivity. Qed.

Lemma rows_by_number_inj (rows : list metric_pair) x y :
  StronglySorted Z.lt (gt_lesion_numbers <$> rows) →
  x ∈ rows → y ∈ rows → gt_lesion_numbers x = gt_lesion_numbers y → x = y.
Proof.
  induction rows as [|r rows IH]; csimpl; intros Hs Hx Hy Hxy.
  { by apply elem_of_nil in Hx. }
  apply StronglySorted_inv in Hs as [Hs Hr]. rewrite Forall_fmap, Forall_forall in Hr.
  apply elem_of_cons in Hx as [->|Hx]; apply elem_of_cons in Hy as [->|Hy].
  - done.
  - specialize (Hr _ Hy). simpl in Hr. lia.
  - specialize (Hr _ Hx). simpl in Hr. lia.
  - by apply IH.
Qed.

Lemma rows_by_number_sorted (rows : list metric_pair) :
  StronglySorted Z.lt (gt_lesion_numbers <$> rows) →
  StronglySorted by_gt_lesion_numbers rows.
Proof.
  induction rows as [|r rows IH]; csimpl; intros Hs; [constructor|].
  apply StronglySorted_inv in Hs as [Hs Hr]. constructor; [by apply IH|].
  rewrite Forall_fmap in Hr. eapply Forall_impl; [exact Hr|].
  intros y Hy. unfold by_gt_lesion_numbers. simpl in Hy. lia.
Qed.

Lemma merge_sort_rows_in_order (rows : list metric_pair) :
  StronglySorted Z.lt (gt_lesion_numbers <$> rows) →
  merge_sort by_gt_lesion_numbers rows = rows.
Proof.
  intros Hs.
  assert (Transitive by_gt_lesion_numbers) as Htrans.
  { intros x y z. unfold by_gt_lesion_numbers. lia. }
  assert (Total by_gt_lesion_numbers) as Htotal.
  { intros x y. unfold by_gt_lesion_numbers. lia. }
  apply (StronglySorted_unique_strong by_gt_lesion_numbers).
  - intros x1 x2 Hx1 Hx2 H12 H21. rewrite merge_sort_Permutation in Hx1.
    apply (rows_by_number_inj rows); try done.
    unfold by_gt_lesion_numbers in *. lia.
  - apply StronglySorted_merge_sort; apply _.
  - by apply rows_by_number_sorted.
  - apply merge_sort_Permutation.
Qed.

(** X12: the records are appended in the order of their lesion ids, so
    sorting them by [gt_lesion_numbers] changes nothing: the per-lesion frame
    is the list of records, each with its infinities replaced, lesion 1
    first. *)
Theorem lesion_table_in_order
    (robust_hausdorff95 : ndarray → ndarray → spacing → float)
    (shp : list nat) (pred gt : list Z) (zooms : spacing) (m : Z) :
  np.max gt = inr m →
  ∃ acc fp,
    lesion_by_lesion robust_hausdorff95 shp pred gt zooms = inr (acc, fp) ∧
    merge_sort by_gt_lesion_numbers (metric_pairs acc) = metric_pairs acc ∧
    metric_df_of (metric_pairs acc) = replace_row <$> metric_pairs acc ∧
    gt_lesion_numbers <$> metric_df_of (metric_pairs acc) = seqZ 1 m.
Proof.
  intros Hm.
  destruct (lesion_by_lesion_closed robust_hausdorff95 shp pred gt zooms m Hm)
    as (rs & Hrs & ->).
  destruct (records_of_lesions _ _ _ _ _ _ _ Hrs) as (Hnum & _ & _).
  eexists _, _. split; [reflexivity|]. simpl.
  assert (merge_sort by_gt_lesion_numbers rs = rs) as Hsort.
  { apply merge_sort_rows_in_order. rewrite Hnum. apply StronglySorted_seqZ. }
  split; [done|]. unfold metric_df_of. rewrite Hsort. split; [done|].
  rewrite <- list_fmap_compose. rewrite <- Hnum. by apply list_fmap_ext.
Qed.

Lemma lesion_table_in_order_witness :
  ∃ acc fp,
    lesion_by_lesion example_hd95 [5%nat] example_pred_cc example_gt_cc example_zooms
      = inr (acc, fp) ∧
    merge_sort by_gt_lesion_numbers (metric_pairs acc) = metric_pairs acc ∧
    metric_df_of (metric_pairs acc) = replace_row <$> metric_pairs acc ∧
    gt_lesion_numbers <$> metric_df_of (metric_pairs acc) = seqZ 1 2.
Proof.
  apply (lesion_table_in_order example_hd95 [5%nat] example_pred_cc example_gt_cc
           example_zooms 2).
  reflexivity.
Defined.

(** ** The volume threshold *)

Lemma ltb_replace_inf x : (5 <? replace_inf x)%float = (5 <? x)%float.
Proof.
  unfold replace_inf. destruct (x =? infinity)%float eqn:E; [|done].
  apply eqb_infinity in E as ->. reflexivity.
Qed.

Lemma filter_ext_elem {A} (P Q : A → Prop) `{∀ x, Decision (P x)} `{∀ x, Decision (Q x)}
    (l : list A) :
  (∀ x, x ∈ l → P x ↔ Q x) → filter P l = filter Q l.
Proof.
  induction l as [|x l IH]; intros HPQ; [done|].
  rewrite !filter_cons.
  rewrite IH by (intros y Hy; apply HPQ; by apply list_elem_of_further).
  pose proof (HPQ x (list_elem_of_here _ _)) as Hx.
  destruct (decide (P x)) as [HP|HP], (decide (Q x)) as [HQ|HQ]; try done; tauto.
Qed.

Lemma filter_fmap_list {A B} (f : A → B) (P : B → Prop) `{∀ y, Decision (P y)}
    (l : list A) :
  filter P (f <$> l) = f <$> filter (λ x, P (f x)) l.
Proof.
  induction l as [|x l IH]; [done|]. csimpl. rewrite !filter_cons, IH.
  by destruct (decide (P (f x))).
Qed.

Lemma detected_overlaps pred gt g :
  detected pred gt g ↔ ∃ c, c ≠ 0 ∧ overlaps pred gt c g.
Proof.
  unfold detected, overlaps. rewrite Exists_exists. split.
  - intros ([c q] & Hin & Hc & Hq). exists c. split; [done|].
    apply Exists_exists. by exists (c, q).
  - intros (c & Hc & ([c' q] & Hin & Hc' & Hq)%Exists_exists).
    simpl in *. subst. by exists (c, g).
Qed.

Lemma overlaps_elem_of pred gt c g : overlaps pred gt c g → c ∈ pred.
Proof.
  intros (i & Hp & _)%overlaps_lookup. by eapply list_elem_of_lookup_2.
Qed.

Lemma length_intersecting_ids pred gt g :
  length (intersecting_ids pred gt g) =
  length (filter (λ c, overlaps pred gt c g) (predicted_components pred)).
Proof.
  apply Permutation_length, NoDup_Permutation.
  - apply NoDup_intersecting_ids.
  - apply NoDup_filter, NoDup_filter, NoDup_remove_dups.
  - intros c. rewrite elem_of_intersecting_ids. unfold predicted_components.
    rewrite !list_elem_of_filter, elem_of_remove_dups. split.
    + intros [Hc Ho]. split; [done|]. split; [done|]. by eapply overlaps_elem_of.
    + intros (Ho & Hc & _). done.
Qed.

Lemma length_concat_intersecting pred gt cs :
  length (concat (intersecting_ids pred gt <$> cs)) =
  sum_list ((λ g, length (filter (λ c, overlaps pred gt c g) (predicted_components pred)))
              <$> cs).
Proof.
  induction cs as [|g cs IH]; [done|].
  csimpl. by rewrite length_app, IH, length_intersecting_ids.
Qed.

Lemma elem_of_concat_intersecting pred gt cs c :
  c ∈ concat (intersecting_ids pred gt <$> cs) ↔
  c ≠ 0 ∧ Exists (λ g, overlaps pred gt c g) cs.
Proof.
  induction cs as [|g cs IH]; csimpl.
  - split; [by intros ?%elem_of_nil|]. by intros [_ ?%Exists_nil].
  - rewrite elem_of_app, IH, elem_of_intersecting_ids, Exists_cons. tauto.
Qed.

Lemma length_false_positives pred gt cs :
  length (np.unique (np.select pred
            (np.where_ (not_isin (concat (intersecting_ids pred gt <$> cs) ++ [0])) pred)))
  = length (filter (λ c, Forall (λ g, ¬ overlaps pred gt c g) cs)
              (predicted_components pred)).
Proof.
  apply Permutation_length, NoDup_Permutation.
  - apply NoDup_unique.
  - apply NoDup_filter, NoDup_filter, NoDup_remove_dups.
  - intros x. rewrite elem_of_unique, select_where, list_elem_of_filter.
    unfold not_isin, predicted_components.
    rewrite bool_decide_eq_true, not_elem_of_app, not_elem_of_cons.
    rewrite !list_elem_of_filter, elem_of_remove_dups.
    rewrite elem_of_concat_intersecting.
    pose proof (Forall_Exists_neg (λ g, overlaps pred gt x g) cs) as HFE.
    pose proof (not_elem_of_nil x). tauto.
Qed.

(** C5: a record takes part in the lesion-wise aggregation exactly when the
    physical volume of its lesion (voxel count times spacings) exceeds 5: the
    rows that pass the threshold are the records of those lesions, in order,
    and both scores are computed from these rows and the false positives
    alone.  Whatever its volume, every merged lesion 1..max is counted once,
    in Num_GT_TP when one of its voxels carries a nonzero predicted
    component and in Num_FN otherwise; Num_TP counts the pairs of a lesion
    and a predicted component that overlaps it, Num_FP the predicted
    components that overlap no lesion.  None of the four counts depends on
    the spacings, hence on the volumes. *)
Theorem volume_threshold_spec
    (robust_hausdorff95 : ndarray → ndarray → spacing → float)
    (shp : list nat) (pred gt : list Z) (sx sy sz : float) (m : Z)
    (full_dice full_gt_vol full_pred_vol full_sens full_specs : float) :
  length pred = length gt →
  np.max gt = inr m →
  ∃ acc fp,
    lesion_by_lesion robust_hausdorff95 shp pred gt (sx, sy, sz) = inr (acc, fp) ∧
    let s := mk_scores acc fp full_dice full_gt_vol full_pred_vol
               full_sens full_specs in
    let df := (tissue_metrics s).1 in
    let d := (tissue_metrics s).2 in
    let chosen :=
      filter (λ r, (5 <? lesion_volume gt sx sy sz (gt_lesion_numbers r))%float = true)
        (metric_pairs acc) in
    let n := Z.of_nat (length chosen) + Z.of_nat (length fp) in
    gt_lesion_numbers <$> metric_pairs acc = seqZ 1 m ∧
    (∀ r, r ∈ metric_pairs acc →
       gt_lesion_vol r = lesion_volume gt sx sy sz (gt_lesion_numbers r)) ∧
    filter (λ r, (5 <? gt_lesion_vol r)%float = true) df = replace_row <$> chosen ∧
    (n ≠ 0 →
       ∃ total_dice total_hd95,
         column_total ((λ r, replace_inf (dice_lesionwise r)) <$> chosen) total_dice ∧
         column_total ((λ r, replace_inf (hd95_lesionwise r)) <$> chosen) total_hd95 ∧
         LesionWise_Score_Dice d = (total_dice / Z2F n)%float ∧
         LesionWise_Score_HD95 d =
           ((total_hd95 + Z2F (Z.of_nat (length fp) * 374)) / Z2F n)%float) ∧
    (n = 0 → LesionWise_Score_Dice d = nan ∧ LesionWise_Score_HD95 d = nan) ∧
    Num_GT_TP d = length (filter (detected pred gt) (seqZ 1 m)) ∧
    Num_FN d = length (filter (λ g, ¬ detected pred gt g) (seqZ 1 m)) ∧
    (Num_GT_TP d + Num_FN d)%nat = Z.to_nat m ∧
    Num_TP d =
      sum_list ((λ g, length (filter (λ c, overlaps pred gt c g)
                                (predicted_components pred))) <$> seqZ 1 m) ∧
    Num_FP d =
      length (filter (λ c, Forall (λ g, ¬ overlaps pred gt c g) (seqZ 1 m))
                (predicted_components pred)) ∧
    (∀ sx' sy' sz', ∃ acc' fp',
       lesion_by_lesion robust_hausdorff95 shp pred gt (sx', sy', sz') = inr (acc', fp') ∧
       gt_tp acc' = gt_tp acc ∧ tp acc' = tp acc ∧ fn acc' = fn acc ∧ fp' = fp).
Proof.
  intros _ Hm.
  destruct (lesion_by_lesion_closed robust_hausdorff95 shp pred gt (sx, sy, sz) m Hm)
    as (rs & Hrs & ->).
  destruct (records_of_lesions _ _ _ _ _ _ _ Hrs) as (Hnum & _ & Hrow).
  eexists _, _. split; [reflexivity|]. cbv zeta.
  unfold tissue_metrics. cbn [fst snd lesions fp metric_pairs gt_tp tp fn
    Num_GT_TP Num_TP Num_FP Num_FN LesionWise_Score_Dice LesionWise_Score_HD95].
  set (fps := np.unique _).
  set (chosen := filter _ rs).
  assert (Hvol : ∀ r, r ∈ rs →
            gt_lesion_vol r = lesion_volume gt sx sy sz (gt_lesion_numbers r)).
  { intros r Hr. destruct (Hrow r Hr) as (_ & (_ & _ & Hv) & _).
    rewrite sum_lesion_mask in Hv. exact Hv. }
  assert (Hdf : metric_df_of rs = replace_row <$> rs).
  { unfold metric_df_of. rewrite merge_sort_rows_in_order; [done|].
    rewrite Hnum. apply StronglySorted_seqZ. }
  assert (Hth : thresh5 (metric_df_of rs) = replace_row <$> chosen).
  { unfold thresh5. rewrite Hdf, filter_fmap_list. f_equal.
    apply filter_ext_elem. intros r Hr. simpl.
    by rewrite ltb_replace_inf, (Hvol r Hr). }
  split; [done|]. split; [exact Hvol|]. split; [exact Hth|].
  destruct (lesion_wise_dice_spec (metric_df_of rs) fps) as [D1 D2].
  destruct (lesion_wise_hd95_spec (metric_df_of rs) fps) as [H1 H2].
  cbv zeta in D1, D2, H1, H2. rewrite Hth, length_fmap in D1, D2, H1, H2.
  rewrite <- !list_fmap_compose in D1, H1.
  split; [|split].
  - intros Hn. eexists _, _.
    split; [apply nansum_total|]. split; [apply nansum_total|].
    split; [by apply D1|by apply H1].
  - intros Hn. split; [by apply D2|by apply H2].
  - split.
    { f_equal. apply list_filter_iff. intros g.
      by rewrite intersecting_ids_nonempty, detected_overlaps. }
    split.
    { f_equal. apply list_filter_iff. intros g.
      rewrite detected_overlaps, <- intersecting_ids_nonempty.
      destruct (intersecting_ids pred gt g) as [|c l]; split.
      - intros _ H. by apply H.
      - done.
      - done.
      - intros H. exfalso. by apply H. }
    split; [by rewrite length_filter_split, length_seqZ|].
    split; [apply length_concat_intersecting|].
    split; [apply length_false_positives|].
    intros sx' sy' sz'.
    destruct (lesion_by_lesion_closed robust_hausdorff95 shp pred gt (sx', sy', sz') m Hm)
      as (rs' & _ & ->).
    eexists _, _. split; [reflexivity|]. done.
Qed.

Lemma volume_threshold_spec_witness :
  ∃ acc fp,
    lesion_by_lesion example_hd95 [2%nat; 2%nat; 3%nat] example_lesions_pred
      example_lesions_gt (1%float, 1%float, 1%float) = inr (acc, fp) ∧
    let s := mk_scores acc fp 0 8 4 0 1 in
    let df := (tissue_metrics s).1 in
    let d := (tissue_metrics s).2 in
    let chosen :=
      filter (λ r, (5 <? lesion_volume example_lesions_gt 1 1 1
                           (gt_lesion_numbers r))%float = true)
        (metric_pairs acc) in
    let n := Z.of_nat (length chosen) + Z.of_nat (length fp) in
    gt_lesion_numbers <$> metric_pairs acc = seqZ 1 3 ∧
    (∀ r, r ∈ metric_pairs acc →
       gt_lesion_vol r = lesion_volume example_lesions_gt 1 1 1 (gt_lesion_numbers r)) ∧
    filter (λ r, (5 <? gt_lesion_vol r)%float = true) df = replace_row <$> chosen ∧
    (n ≠ 0 →
       ∃ total_dice total_hd95,
         column_total ((λ r, replace_inf (dice_lesionwise r)) <$> chosen) total_dice ∧
         column_total ((λ r, replace_inf (hd95_lesionwise r)) <$> chosen) total_hd95 ∧
         LesionWise_Score_Dice d = (total_dice / Z2F n)%float ∧
         LesionWise_Score_HD95 d =
           ((total_hd95 + Z2F (Z.of_nat (length fp) * 374)) / Z2F n)%float) ∧
    (n = 0 → LesionWise_Score_Dice d = nan ∧ LesionWise_Score_HD95 d = nan) ∧
    Num_GT_TP d =
      length (filter (detected example_lesions_pred example_lesions_gt) (seqZ 1 3)) ∧
    Num_FN d =
      length (filter (λ g, ¬ detected example_lesions_pred example_lesions_gt g)
                (seqZ 1 3)) ∧
    (Num_GT_TP d + Num_FN d)%nat = Z.to_nat 3 ∧
    Num_TP d =
      sum_list ((λ g, length (filter (λ c, overlaps example_lesions_pred
                                             example_lesions_gt c g)
                                (predicted_components example_lesions_pred)))
                  <$> seqZ 1 3) ∧
    Num_FP d =
      length (filter (λ c, Forall (λ g, ¬ overlaps example_lesions_pred
                                          example_lesions_gt c g) (seqZ 1 3))
                (predicted_components example_lesions_pred)) ∧
    (∀ sx' sy' sz', ∃ acc' fp',
       lesion_by_lesion example_hd95 [2%nat; 2%nat; 3%nat] example_lesions_pred
         example_lesions_gt (sx', sy', sz') = inr (acc', fp') ∧
       gt_tp acc' = gt_tp acc ∧ tp acc' = tp acc ∧ fn acc' = fn acc ∧ fp' = fp).
Proof.
  apply (volume_threshold_spec example_hd95 [2%nat; 2%nat; 3%nat]
           example_lesions_pred example_lesions_gt 1 1 1 3 0 8 4 0 1).
  - reflexivity.
  - reflexivity.
Defined.

(** In the example the volumes are 6, 1 and 1: only lesion 1 takes part in
    the scores (Dice (2/3)/(1+1), HD95 (0+374)/(1+1)), although lesion 2 is
    matched perfectly; lesions 2 and 3 are counted all the same, as detected
    and as missed. *)
Example one_lesion_above_threshold :
  ∃ acc fp,
    lesion_by_lesion example_hd95 [2%nat; 2%nat; 3%nat] example_lesions_pred
      example_lesions_gt (1%float, 1%float, 1%float) = inr (acc, fp) ∧
    gt_lesion_vol <$> metric_pairs acc = [6%float; 1%float; 1%float] ∧
    dice_lesionwise <$> metric_pairs acc = [(2 / 3)%float; 1%float; 0%float] ∧
    (tissue_metrics (mk_scores acc fp 0 8 4 0 1)).2
      = mk_metrics_dict 2 2 1 1 0 1 0 8 (2 / 3 / 2)%float 187.
Proof. eexists _, _. split; [vm_compute; reflexivity|]. repeat split. Qed.

(** X13: the record of a lesion listed in [fn] has no predicted id, and its
    Dice score is exactly 0.0 when the lesion has a voxel (maps of fewer
    than 2^53 voxels). *)
Theorem missed_lesion_record
    (robust_hausdorff95 : ndarray → ndarray → spacing → float)
    (shp : list nat) (pred gt : list Z) (zooms : spacing) (m : Z) :
  np.max gt = inr m →
  Z.of_nat (length gt) < 2 ^ 53 →
  ∃ acc fp,
    lesion_by_lesion robust_hausdorff95 shp pred gt zooms = inr (acc, fp) ∧
    ∀ r, r ∈ metric_pairs acc → gt_lesion_numbers r ∈ fn acc →
      predicted_lesion_numbers r = [] ∧
      (gt_lesion_numbers r ∈ gt → dice_lesionwise r = 0%float).
Proof.
  intros Hm Hsize.
  destruct (lesion_by_lesion_closed robust_hausdorff95 shp pred gt zooms m Hm)
    as (rs & Hrs & ->).
  destruct (records_of_lesions _ _ _ _ _ _ _ Hrs) as (_ & _ & Hrow).
  eexists _, _. split; [reflexivity|]. simpl.
  intros r Hr [Hnil _]%list_elem_of_filter.
  destruct (Hrow r Hr) as (_ & (_ & Hp & _) & Hd & _).
  split; [congruence|]. intros Hin.
  destruct (dice_without_match shp _ (lesion_mask gt (gt_lesion_numbers r))
              (matched_mask_none _ _ _ Hnil)) as [Hzero _].
  rewrite Hzero in Hd; [by injection Hd|].
  rewrite mask_size_lesion_mask.
  destruct (occurrences_bounds (gt_lesion_numbers r) gt) as [Hpos Hle].
  apply Hpos in Hin. lia.
Qed.

Lemma missed_lesion_record_witness :
  ∃ acc fp,
    lesion_by_lesion example_hd95 [5%nat] [0; 1; 1; 0; 2] example_gt_cc example_zooms
      = inr (acc, fp) ∧
    ∀ r, r ∈ metric_pairs acc → gt_lesion_numbers r ∈ fn acc →
      predicted_lesion_numbers r = [] ∧
      (gt_lesion_numbers r ∈ example_gt_cc → dice_lesionwise r = 0%float).
Proof.
  apply (missed_lesion_record example_hd95 [5%nat] [0; 1; 1; 0; 2] example_gt_cc
           example_zooms 2).
  - reflexivity.
  - reflexivity.
Defined.

(** X14: an id between 1 and the maximum that labels no voxel of the merged
    map is still visited: it is listed in [fn], and its record has no
    predicted id, a volume of 0 times the spacing, and Dice NaN. *)
Theorem absent_id_counted_missed
    (robust_hausdorff95 : ndarray → ndarray → spacing → float)
    (shp : list nat) (pred gt : list Z) (zooms : spacing) (m g : Z) :
  np.max gt = inr m → 1 ≤ g ≤ m → g ∉ gt →
  ∃ acc fp,
    lesion_by_lesion robust_hausdorff95 shp pred gt zooms = inr (acc, fp) ∧
    g ∈ fn acc ∧
    ∃ r, r ∈ metric_pairs acc ∧ gt_lesion_numbers r = g ∧
         predicted_lesion_numbers r = [] ∧
         gt_lesion_vol r = (0 * zooms.1.1 * zooms.1.2 * zooms.2)%float ∧
         dice_lesionwise r = nan.
Proof.
  intros Hm Hg Hnot.
  destruct (lesion_by_lesion_closed robust_hausdorff95 shp pred gt zooms m Hm)
    as (rs & Hrs & ->).
  destruct (records_of_lesions _ _ _ _ _ _ _ Hrs) as (Hnum & _ & Hrow).
  eexists _, _. split; [reflexivity|]. simpl.
  assert (intersecting_ids pred gt g = []) as Hnil.
  { destruct (intersecting_ids pred gt g) as [|c l] eqn:E; [done|].
    assert (c ∈ intersecting_ids pred gt g) as Hc by (rewrite E; apply list_elem_of_here).
    apply elem_of_intersecting_ids in Hc as [_ (i & _ & Hi)%overlaps_lookup].
    destruct Hnot. eapply list_elem_of_lookup_2; eauto. }
  assert (occurrences g gt = 0%nat) as Hocc.
  { destruct (occurrences_bounds g gt) as [Hpos _].
    destruct (occurrences g gt) eqn:E; [done|]. destruct Hnot. apply Hpos. lia. }
  split; [apply list_elem_of_filter; split; [done|apply elem_of_seqZ; lia]|].
  assert (g ∈ gt_lesion_numbers <$> rs) as (r & Hgr & Hr)%list_elem_of_fmap.
  { rewrite Hnum. apply elem_of_seqZ. lia. }
  exists r. split; [done|]. split; [done|].
  destruct (Hrow r Hr) as (_ & (_ & Hp & Hv) & Hd & _). rewrite <- Hgr in *.
  split; [congruence|]. split.
  - rewrite Hv, sum_lesion_mask, Hocc. reflexivity.
  - destruct (dice_without_match shp _ (lesion_mask gt g)
                (matched_mask_none _ _ _ Hnil)) as [_ Hnan].
    rewrite Hnan in Hd; [by injection Hd|].
    by rewrite mask_size_lesion_mask, Hocc.
Qed.

Lemma absent_id_counted_missed_witness :
  ∃ acc fp,
    lesion_by_lesion example_hd95 [3%nat] [1; 0; 0] [1; 0; 3] example_zooms
      = inr (acc, fp) ∧
    2 ∈ fn acc ∧
    ∃ r, r ∈ metric_pairs acc ∧ gt_lesion_numbers r = 2 ∧
         predicted_lesion_numbers r = [] ∧
         gt_lesion_vol r =
           (0 * example_zooms.1.1 * example_zooms.1.2 * example_zooms.2)%float ∧
         dice_lesionwise r = nan.
Proof.
  apply (absent_id_counted_missed example_hd95 [3%nat] [1; 0; 0] [1; 0; 3]
           example_zooms 3 2).
  - reflexivity.
  - lia.
  - intros H. repeat (apply elem_of_cons in H as [H|H]; [discriminate H|]).
    by apply elem_of_nil in H.
Defined.

(** X15: when the predicted components that overlap a lesion cover exactly
    the lesion's voxels, the lesion's Dice score is exactly 1.0 (maps of
    fewer than 2^52 voxels). *)
Theorem exactly_matched_lesion
    (robust_hausdorff95 : ndarray → ndarray → spacing → float)
    (shp : list nat) (pred gt : list Z) (zooms : spacing) (m : Z) :
  np.max gt = inr m →
  Z.of_nat (length gt) < 2 ^ 52 →
  ∃ acc fp,
    lesion_by_lesion robust_hausdorff95 shp pred gt zooms = inr (acc, fp) ∧
    ∀ r, r ∈ metric_pairs acc →
      gt_lesion_numbers r ∈ gt →
      matched_mask pred gt (gt_lesion_numbers r) = lesion_mask gt (gt_lesion_numbers r) →
      dice_lesionwise r = 1%float.
Proof.
  intros Hm Hsize.
  destruct (lesion_by_lesion_closed robust_hausdorff95 shp pred gt zooms m Hm)
    as (rs & Hrs & ->).
  destruct (records_of_lesions _ _ _ _ _ _ _ Hrs) as (_ & _ & Hrow).
  eexists _, _. split; [reflexivity|]. simpl.
  intros r Hr Hin Heq.
  destruct (Hrow r Hr) as (_ & _ & Hd & _).
  rewrite Heq, dice_of_equal_masks in Hd; [by injection Hd|].
  rewrite mask_size_lesion_mask.
  destruct (occurrences_bounds (gt_lesion_numbers r) gt) as [Hpos Hle].
  apply Hpos in Hin. lia.
Qed.

Lemma exactly_matched_lesion_witness :
  ∃ acc fp,
    lesion_by_lesion example_hd95 [3%nat] [2; 2; 0] [1; 1; 0] example_zooms
      = inr (acc, fp) ∧
    ∀ r, r ∈ metric_pairs acc →
      gt_lesion_numbers r ∈ [1; 1; 0] →
      matched_mask [2; 2; 0] [1; 1; 0] (gt_lesion_numbers r)
        = lesion_mask [1; 1; 0] (gt_lesion_numbers r) →
      dice_lesionwise r = 1%float.
Proof.
  apply (exactly_matched_lesion example_hd95 [3%nat] [2; 2; 0] [1; 1; 0]
           example_zooms 1).
  - reflexivity.
  - reflexivity.
Defined.

(** ** The whole pipeline *)

Lemma length_tissue_rule t a : length (tissue_rule t a) = length a.
Proof.
  unfold tissue_rule. repeat case_decide; rewrite ?binarize_fmap, ?length_fmap; done.
Qed.

Lemma for_each_cons_inr {A S} (body : S → A → result S) x xs s s' :
  body s x = inr s' → for_each body (x :: xs) s = for_each body xs s'.
Proof. intros H. simpl. by rewrite H. Qed.

Lemma for_each_cons_inl {A S} (body : S → A → result S) x xs s e :
  body s x = inl e → for_each body (x :: xs) s = inl e.
Proof. intros H. simpl. by rewrite H. Qed.

Lemma np_max_nonempty a : a ≠ [] → ∃ m, np.max a = inr m.
Proof. destruct a; [done|]. intros _. eexists. reflexivity. Qed.

(** Unpacking succeeds on exactly three spacings. *)
Lemma unpack_zooms_three zooms :
  length zooms = 3%nat →
  ∃ sx sy sz, zooms = [sx; sy; sz] ∧ unpack_zooms zooms = inr (sx, sy, sz).
Proof. destruct zooms as [|sx [|sy [|sz [|? ?]]]]; try done. intros _. eauto. Qed.

Lemma unpack_zooms_other zooms :
  length zooms ≠ 3%nat → ∃ msg, unpack_zooms zooms = inl (ValueError msg).
Proof. destruct zooms as [|sx [|sy [|sz [|? ?]]]]; try done; intros _; simpl; eauto. Qed.

Lemma unpack_zooms_inv zooms z :
  unpack_zooms zooms = inr z → zooms = [z.1.1; z.1.2; z.2].
Proof. destruct zooms as [|sx [|sy [|sz [|? ?]]]]; try done. by intros [= <-]. Qed.

Section Pipeline.

Variable connected_components : list Z → list Z.
Variable binary_dilation : list Z → list Z.
Variable robust_hausdorff95 : ndarray → ndarray → spacing → float.

Lemma get_LesionWiseScores_masks w pred_nii gt_nii zooms l :
  get_LesionWiseScores connected_components binary_dilation robust_hausdorff95
    w pred_nii gt_nii zooms l =
  (z ← unpack_zooms zooms;
   score_masks connected_components binary_dilation robust_hausdorff95
     w (shape pred_nii) (shape gt_nii)
     (tissue_rule l (data pred_nii)) (tissue_rule l (data gt_nii)) z).
Proof.
  unfold get_LesionWiseScores. destruct (unpack_zooms zooms) as [e|z]; [done|].
  cbn [mbind result_bind]. rewrite get_TissueWiseSeg_heap.
  rewrite lookup_alter_ne by done. rewrite !lookup_alter_eq.
  rewrite lookup_alter_ne by done.
  rewrite lookup_insert_ne by done. rewrite lookup_singleton_eq, lookup_insert_eq.
  done.
Qed.

Lemma score_masks_shape_mismatch w s1 s2 a b zooms :
  s1 ≠ s2 →
  score_masks connected_components binary_dilation robust_hausdorff95 w s1 s2 a b zooms
  = inl (ValueError "Shape mismatch: im1 and im2 must have the same shape.").
Proof.
  intros Hne. destruct zooms as [[sx sy] sz]. unfold score_masks, dice. simpl.
  by rewrite decide_True by done.
Qed.

Hypothesis connected_components_length : ∀ a, length (connected_components a) = length a.
Hypothesis binary_dilation_length : ∀ a, length (binary_dilation a) = length a.

Lemma score_masks_zero_size w s a zooms :
  score_masks connected_components binary_dilation robust_hausdorff95 w s s a [] zooms
  = inl (ValueError "zero-size array to reduction operation maximum which has no identity").
Proof.
  destruct zooms as [[sx sy] sz]. unfold score_masks.
  destruct (dice_same_shape s a []) as [v ->]. simpl.
  destruct (get_sensitivity_and_specificity a []) as [se sp].
  assert (connected_components (binary_dilation []) = []) as ->.
  { apply length_zero_iff_nil.
    by rewrite connected_components_length, binary_dilation_length. }
  reflexivity.
Qed.

Lemma score_masks_returns w s a b zooms :
  b ≠ [] →
  ∃ r, score_masks connected_components binary_dilation robust_hausdorff95
         w s s a b zooms = inr r.
Proof.
  intros Hb. destruct zooms as [[sx sy] sz] eqn:Hz. unfold score_masks.
  destruct (dice_same_shape s a b) as [v ->]. simpl.
  destruct (get_sensitivity_and_specificity a b) as [se sp].
  set (dcc := connected_components (binary_dilation b)).
  set (lab := connected_components b).
  assert (length dcc = length lab) as Hlen.
  { unfold dcc, lab.
    by rewrite !connected_components_length, binary_dilation_length. }
  assert (dcc ≠ []) as Hd.
  { intros H. apply (f_equal length) in H. unfold dcc in H.
    rewrite connected_components_length, binary_dilation_length in H.
    by destruct b. }
  destruct (np_max_nonempty dcc Hd) as [m Hm].
  rewrite (combinedByDilation_same_size w dcc lab m) by done.
  cbn [mbind result_bind].
  set (merged := foldl _ _ _).
  assert (merged ≠ []) as Hmerged.
  { intros H. apply (f_equal length) in H. unfold merged in H.
    rewrite length_merge_fold in H; [|done|apply length_zeros_like].
    by destruct dcc. }
  destruct (np_max_nonempty merged Hmerged) as [m' Hm'].
  destruct (lesion_by_lesion_closed robust_hausdorff95 s (connected_components a)
              merged (sx, sy, sz) m' Hm') as (rs & _ & ->).
  simpl. eexists. reflexivity.
Qed.

Lemma tissue_rule_nil t : tissue_rule t [] = [].
Proof. apply length_zero_iff_nil. by rewrite length_tissue_rule. Qed.

Lemma tissue_rule_nonempty t a : a ≠ [] → tissue_rule t a ≠ [].
Proof.
  intros Ha H. apply (f_equal length) in H. rewrite length_tissue_rule in H.
  by destruct a.
Qed.

End Pipeline.

(** X16: what [get_LesionWiseScores] raises, for any tissue type, recognised
    or not.  The header gives one spacing per axis of the prediction, and
    unless there are exactly three the unpacking of line 143 raises
    [ValueError] before anything is computed.  For three spacings, volumes
    of different shapes give the shape-mismatch [ValueError] of [dice]; with
    a labeller and a dilation that return arrays of the size of their input,
    volumes of one shape give numpy's zero-size [ValueError] when they have
    no voxel, and a result otherwise. *)
Theorem get_LesionWiseScores_errors
    (connected_components binary_dilation : list Z → list Z)
    (robust_hausdorff95 : ndarray → ndarray → spacing → float)
    (w : Z) (pred_nii gt_nii : ndarray) (zooms : list float) (label_value : string) :
  (∀ a, length (connected_components a) = length a) →
  (∀ a, length (binary_dilation a) = length a) →
  (length zooms ≠ 3%nat →
     ∃ msg,
       get_LesionWiseScores connected_components binary_dilation robust_hausdorff95
         w pred_nii gt_nii zooms label_value = inl (ValueError msg)) ∧
  (length zooms = 3%nat → shape pred_nii ≠ shape gt_nii →
     get_LesionWiseScores connected_components binary_dilation robust_hausdorff95
       w pred_nii gt_nii zooms label_value
     = inl (ValueError "Shape mismatch: im1 and im2 must have the same shape.")) ∧
  (length zooms = 3%nat → shape pred_nii = shape gt_nii → data gt_nii = [] →
     get_LesionWiseScores connected_components binary_dilation robust_hausdorff95
       w pred_nii gt_nii zooms label_value
     = inl (ValueError "zero-size array to reduction operation maximum which has no identity")) ∧
  (length zooms = 3%nat → shape pred_nii = shape gt_nii → data gt_nii ≠ [] →
     ∃ s, get_LesionWiseScores connected_components binary_dilation robust_hausdorff95
            w pred_nii gt_nii zooms label_value = inr s).
Proof.
  intros Hcc Hdil. rewrite get_LesionWiseScores_masks. split; [|split; [|split]].
  - intros Hz. destruct (unpack_zooms_other zooms Hz) as [msg ->]. by exists msg.
  - intros Hz Hne. destruct (unpack_zooms_three zooms Hz) as (sx & sy & sz & _ & ->).
    cbn [mbind result_bind]. by apply score_masks_shape_mismatch.
  - intros Hz -> ->. destruct (unpack_zooms_three zooms Hz) as (sx & sy & sz & _ & ->).
    cbn [mbind result_bind]. rewrite tissue_rule_nil. by apply score_masks_zero_size.
  - intros Hz -> Hne. destruct (unpack_zooms_three zooms Hz) as (sx & sy & sz & _ & ->).
    cbn [mbind result_bind]. apply score_masks_returns; try done.
    by apply tissue_rule_nonempty.
Qed.

Lemma get_LesionWiseScores_errors_witness :
  (length example_header_zooms ≠ 3%nat →
     ∃ msg,
       get_LesionWiseScores example_components example_dilation example_hd95
         16 example_pred_nii example_gt_nii example_header_zooms "WT"
       = inl (ValueError msg)) ∧
  (length example_header_zooms = 3%nat →
   shape example_pred_nii ≠ shape example_gt_nii →
     get_LesionWiseScores example_components example_dilation example_hd95
       16 example_pred_nii example_gt_nii example_header_zooms "WT"
     = inl (ValueError "Shape mismatch: im1 and im2 must have the same shape.")) ∧
  (length example_header_zooms = 3%nat →
   shape example_pred_nii = shape example_gt_nii → data example_gt_nii = [] →
     get_LesionWiseScores example_components example_dilation example_hd95
       16 example_pred_nii example_gt_nii example_header_zooms "WT"
     = inl (ValueError "zero-size array to reduction operation maximum which has no identity")) ∧
  (length example_header_zooms = 3%nat →
   shape example_pred_nii = shape example_gt_nii → data example_gt_nii ≠ [] →
     ∃ s, get_LesionWiseScores example_components example_dilation example_hd95
            16 example_pred_nii example_gt_nii example_header_zooms "WT" = inr s).
Proof.
  apply (get_LesionWiseScores_errors example_components example_dilation example_hd95
           16 example_pred_nii example_gt_nii example_header_zooms "WT").
  - intros a. reflexivity.
  - intros a. reflexivity.
Defined.

(** A prediction with two axes: its header has two spacings. *)
Example get_LesionWiseScores_two_axes :
  get_LesionWiseScores example_components example_dilation example_hd95
    16 (mk_ndarray [1%nat; 3%nat] [1; 0; 3]) (mk_ndarray [1%nat; 3%nat] [1; 2; 0])
    [1%float; 1%float] "WT"
  = inl (ValueError "not enough values to unpack (expected 3, got 2)").
Proof. reflexivity. Qed.

(** X17: [get_LesionWiseResults] reports all three tissue types or nothing.
    It raises what the first call of [get_LesionWiseScores] (for WT) raises,
    under the conditions of X16, which do not depend on the tissue type;
    otherwise it returns exactly three rows, labelled WT, TC, ET in this
    order, each made from the scores of its own tissue type.  (The frames
    are those of a pandas that still has [DataFrame.append], which line 296
    calls, and whose [replace] of line 294 accepts the column of lists of
    predicted ids.) *)
Theorem get_LesionWiseResults_all_or_nothing
    (connected_components binary_dilation : list Z → list Z)
    (robust_hausdorff95 : ndarray → ndarray → spacing → float)
    (w : Z) (pred_nii gt_nii : ndarray) (zooms : list float) :
  (∀ a, length (connected_components a) = length a) →
  (∀ a, length (binary_dilation a) = length a) →
  (length zooms ≠ 3%nat →
     ∃ msg,
       get_LesionWiseResults connected_components binary_dilation robust_hausdorff95
         w pred_nii gt_nii zooms = inl (ValueError msg)) ∧
  (length zooms = 3%nat → shape pred_nii ≠ shape gt_nii →
     get_LesionWiseResults connected_components binary_dilation robust_hausdorff95
       w pred_nii gt_nii zooms
     = inl (ValueError "Shape mismatch: im1 and im2 must have the same shape.")) ∧
  (length zooms = 3%nat → shape pred_nii = shape gt_nii → data gt_nii = [] →
     get_LesionWiseResults connected_components binary_dilation robust_hausdorff95
       w pred_nii gt_nii zooms
     = inl (ValueError "zero-size array to reduction operation maximum which has no identity")) ∧
  (length zooms = 3%nat → shape pred_nii = shape gt_nii → data gt_nii ≠ [] →
     ∃ sWT sTC sET,
       get_LesionWiseScores connected_components binary_dilation robust_hausdorff95
         w pred_nii gt_nii zooms "WT" = inr sWT ∧
       get_LesionWiseScores connected_components binary_dilation robust_hausdorff95
         w pred_nii gt_nii zooms "TC" = inr sTC ∧
       get_LesionWiseScores connected_components binary_dilation robust_hausdorff95
         w pred_nii gt_nii zooms "ET" = inr sET ∧
       get_LesionWiseResults connected_components binary_dilation robust_hausdorff95
         w pred_nii gt_nii zooms
       = inr ([("WT", (tissue_metrics sWT).1); ("TC", (tissue_metrics sTC).1);
               ("ET", (tissue_metrics sET).1)],
              [("WT", (tissue_metrics sWT).2); ("TC", (tissue_metrics sTC).2);
               ("ET", (tissue_metrics sET).2)])).
Proof.
  intros Hcc Hdil. unfold get_LesionWiseResults, label_values.
  set (body := λ '(_, _) _, _).
  assert (Hraise : ∀ acc l e,
            get_LesionWiseScores connected_components binary_dilation robust_hausdorff95
              w pred_nii gt_nii zooms l = inl e → body acc l = inl e).
  { intros [dfs rows] l e He. unfold body. by rewrite He. }
  assert (Hstep : ∀ dfs rows l s,
            get_LesionWiseScores connected_components binary_dilation robust_hausdorff95
              w pred_nii gt_nii zooms l = inr s →
            body (dfs, rows) l =
              inr (dfs ++ [(l, (tissue_metrics s).1)], rows ++ [(l, (tissue_metrics s).2)])).
  { intros dfs rows l s Hs. unfold body. rewrite Hs. cbn [mbind result_bind].
    by destruct (tissue_metrics s). }
  clearbody body. split; [|split; [|split]].
  - intros Hz. destruct (unpack_zooms_other zooms Hz) as [msg Hmsg]. exists msg.
    apply for_each_cons_inl, Hraise. by rewrite get_LesionWiseScores_masks, Hmsg.
  - intros Hz Hne. destruct (unpack_zooms_three zooms Hz) as (sx & sy & sz & _ & Hu).
    apply for_each_cons_inl, Hraise. rewrite get_LesionWiseScores_masks, Hu.
    cbn [mbind result_bind]. by apply score_masks_shape_mismatch.
  - intros Hz Heq Hnil.
    destruct (unpack_zooms_three zooms Hz) as (sx & sy & sz & _ & Hu).
    apply for_each_cons_inl, Hraise.
    rewrite get_LesionWiseScores_masks, Hu, Heq, Hnil, tissue_rule_nil.
    cbn [mbind result_bind]. by apply score_masks_zero_size.
  - intros Hz Heq Hne.
    destruct (unpack_zooms_three zooms Hz) as (sx & sy & sz & _ & Hu).
    assert (Hret : ∀ l, ∃ s,
              get_LesionWiseScores connected_components binary_dilation
                robust_hausdorff95 w pred_nii gt_nii zooms l = inr s).
    { intros l. rewrite get_LesionWiseScores_masks, Hu, Heq.
      cbn [mbind result_bind].
      apply score_masks_returns; try done. by apply tissue_rule_nonempty. }
    destruct (Hret "WT") as [sWT HWT], (Hret "TC") as [sTC HTC],
             (Hret "ET") as [sET HET].
    exists sWT, sTC, sET. split; [done|]. split; [done|]. split; [done|].
    rewrite (for_each_cons_inr _ _ _ _ _ (Hstep _ _ _ _ HWT)).
    rewrite (for_each_cons_inr _ _ _ _ _ (Hstep _ _ _ _ HTC)).
    rewrite (for_each_cons_inr _ _ _ _ _ (Hstep _ _ _ _ HET)).
    reflexivity.
Qed.

Lemma get_LesionWiseResults_all_or_nothing_witness :
  (length example_header_zooms ≠ 3%nat →
     ∃ msg,
       get_LesionWiseResults example_components example_dilation example_hd95
         16 example_pred_nii example_gt_nii example_header_zooms
       = inl (ValueError msg)) ∧
  (length example_header_zooms = 3%nat →
   shape example_pred_nii ≠ shape example_gt_nii →
     get_LesionWiseResults example_components example_dilation example_hd95
       16 example_pred_nii example_gt_nii example_header_zooms
     = inl (ValueError "Shape mismatch: im1 and im2 must have the same shape.")) ∧
  (length example_header_zooms = 3%nat →
   shape example_pred_nii = shape example_gt_nii → data example_gt_nii = [] →
     get_LesionWiseResults example_components example_dilation example_hd95
       16 example_pred_nii example_gt_nii example_header_zooms
     = inl (ValueError "zero-size array to reduction operation maximum which has no identity")) ∧
  (length example_header_zooms = 3%nat →
   shape example_pred_nii = shape example_gt_nii → data example_gt_nii ≠ [] →
     ∃ sWT sTC sET,
       get_LesionWiseScores example_components example_dilation example_hd95
         16 example_pred_nii example_gt_nii example_header_zooms "WT" = inr sWT ∧
       get_LesionWiseScores example_components example_dilation example_hd95
         16 example_pred_nii example_gt_nii example_header_zooms "TC" = inr sTC ∧
       get_LesionWiseScores example_components example_dilation example_hd95
         16 example_pred_nii example_gt_nii example_header_zooms "ET" = inr sET ∧
       get_LesionWiseResults example_components example_dilation example_hd95
         16 example_pred_nii example_gt_nii example_header_zooms
       = inr ([("WT", (tissue_metrics sWT).1); ("TC", (tissue_metrics sTC).1);
               ("ET", (tissue_metrics sET).1)],
              [("WT", (tissue_metrics sWT).2); ("TC", (tissue_metrics sTC).2);
               ("ET", (tissue_metrics sET).2)])).
Proof.
  apply (get_LesionWiseResults_all_or_nothing example_components example_dilation
           example_hd95 16 example_pred_nii example_gt_nii example_header_zooms).
  - intros a. reflexivity.
  - intros a. reflexivity.
Defined.

(** A 3-D prediction of another shape than the ground truth. *)
Example get_LesionWiseResults_shape_mismatch :
  get_LesionWiseResults example_components example_dilation example_hd95
    16 (mk_ndarray [1%nat; 3%nat; 1%nat] [1; 0; 3]) example_gt_nii
    example_header_zooms
  = inl (ValueError "Shape mismatch: im1 and im2 must have the same shape.").
Proof. reflexivity. Qed.

(** ** Aggregates without a ground-truth lesion *)

Lemma pow2_lt_inv x y : 0 ≤ y → 2 ^ x < 2 ^ y → x < y.
Proof.
  intros Hy H. destruct (Z_lt_le_dec x y) as [|Hle]; [done|].
  assert (2 ^ y ≤ 2 ^ x) by (apply Z.pow_le_mono_r; lia). lia.
Qed.

(** A quotient of two integers below 2^53 that is itself an integer is
    computed exactly. *)
Lemma Z2F_div_exact a b :
  0 < a → 0 < b → a * b < 2 ^ 53 → (Z2F (a * b) / Z2F b)%float = Z2F a.
Proof.
  intros Ha Hb Hab.
  assert (0 < a * b) as Hpos by lia.
  assert (a < 2 ^ 53 ∧ b < 2 ^ 53) as [Ha' Hb'] by (split; nia).
  destruct (Z2F_normal_value (a * b) ltac:(lia))
    as (mab & eab & [Hxab Hmab] & Heab & Hvab & Hdab).
  destruct (Z2F_normal_value b ltac:(lia)) as (mb & eb & [Hxb Hmb] & Heb & Hvb & Hdb).
  destruct (Z2F_normal_value a ltac:(lia)) as (ma & ea & [Hxa Hma] & Hea & Hva & Hda).
  pose proof (digits2_bounds (Z.to_pos (a * b))) as Bab.
  pose proof (digits2_bounds (Z.to_pos b)) as Bb.
  pose proof (digits2_bounds (Z.to_pos a)) as Ba.
  rewrite Z2Pos.id in Bab, Bb, Ba by lia. rewrite Hdab in Bab. rewrite Hdb in Bb.
  rewrite Hda in Ba.
  assert (eb ≤ eab) as Hle1.
  { assert (2 ^ (53 + eb - 1) < 2 ^ (53 + eab)) by nia.
    apply pow2_lt_inv in H; lia. }
  assert (eab ≤ 53 + ea + eb) as Hle2.
  { assert (2 ^ (53 + eab - 1) < 2 ^ (53 + ea + (53 + eb))).
    { rewrite Z.pow_add_r by lia.
      assert (0 < 2 ^ (53 + ea)) by (apply Z.pow_pos_nonneg; lia).
      assert (0 < 2 ^ (53 + eb)) by (apply Z.pow_pos_nonneg; lia). nia. }
    apply pow2_lt_inv in H; lia. }
  apply Prim2SF_inj. rewrite FloatAxioms.div_spec, Hxab, Hxb, Hxa.
  unfold SF64div, SFdiv, SFdiv_core_binary. cbn [Zdigits2 xorb]. rewrite Hmab, Hmb.
  replace (53 + eab - (53 + eb)) with (eab - eb) by lia. rewrite fexp64.
  replace (Z.min (Z.max (eab - eb - 53) (-1074)) (eab - eb)) with (eab - eb - 53) by lia.
  replace (eab - eb - (eab - eb - 53)) with 53 by lia.
  cbv beta iota zeta.
  rewrite Z.shiftl_mul_pow2 by lia.
  set (k := 53 + ea + eb - eab).
  assert (0 < 2 ^ k) as Hk by (apply Z.pow_pos_nonneg; lia).
  assert (Zpos mab * 2 ^ 53 = Zpos mb * (Zpos ma * 2 ^ k)) as Hq.
  { rewrite Hvab, Hvb, Hva.
    assert (2 ^ (- eab) * 2 ^ 53 = 2 ^ (53 - eab)) as E1.
    { rewrite <- Z.pow_add_r by lia. f_equal. lia. }
    assert (2 ^ (- eb) * (2 ^ (- ea) * 2 ^ k) = 2 ^ (53 - eab)) as E2.
    { rewrite <- !Z.pow_add_r by lia. f_equal. unfold k. lia. }
    transitivity (a * b * (2 ^ (- eab) * 2 ^ 53)); [ring|].
    transitivity (a * b * (2 ^ (- eb) * (2 ^ (- ea) * 2 ^ k))); [|ring].
    by rewrite E1, E2. }
  assert (Z.div_eucl (Zpos mab * 2 ^ 53) (Zpos mb) = (Zpos ma * 2 ^ k, 0)) as ->.
  { rewrite Hq.
    pose proof (Z.div_mul (Zpos ma * 2 ^ k) (Zpos mb) ltac:(lia)) as Hd.
    pose proof (Z.mod_mul (Zpos ma * 2 ^ k) (Zpos mb) ltac:(lia)) as Hr.
    rewrite (Z.mul_comm _ (Zpos mb)) in Hd, Hr. unfold Z.div, Z.modulo in Hd, Hr.
    destruct (Z.div_eucl _ _) as [q r]. by subst. }
  assert (new_location (Zpos mb) 0 = loc_Exact) as ->.
  { unfold new_location. by destruct (Z.even _). }
  assert (∃ M, Zpos M = Zpos ma * 2 ^ k) as [M HM].
  { exists (Z.to_pos (Zpos ma * 2 ^ k)). rewrite Z2Pos.id; [done|lia]. }
  rewrite <- HM.
  rewrite (binary_round_aux_down false M (eab - eb - 53) ma 0 k); try lia.
  f_equal. unfold k. lia.
Qed.

Lemma Z2F_374 : Z2F 374 = 374%float.
Proof. reflexivity. Qed.

Lemma np_max_zeros a : a ≠ [] → Forall (λ x, x = 0) a → np.max a = inr 0.
Proof.
  destruct a as [|x a]; [done|]. intros _ H. inversion H as [|? ? -> Ha]; subst.
  unfold np.max. cbn [mret result_ret]. f_equal. clear H.
  induction Ha as [|y a -> _ IH]; [done|]. cbn [foldr]. by rewrite IH.
Qed.

Lemma aggregates_without_lesion (fp : list Z) :
  (fp = [] → lesion_wise_dice [] fp = nan ∧ lesion_wise_hd95 [] fp = nan) ∧
  (fp ≠ [] → Z.of_nat (length fp) * 374 < 2 ^ 53 →
     lesion_wise_dice [] fp = 0%float ∧ lesion_wise_hd95 [] fp = 374%float).
Proof.
  split; [by intros ->|]. intros Hne Hk.
  assert (0 < Z.of_nat (length fp)) as Hpos by (destruct fp; [done|simpl; lia]).
  unfold lesion_wise_dice, lesion_wise_hd95, column_sum, truediv, pynum_add_int.
  change (thresh5 []) with (@nil metric_pair). cbn [length].
  rewrite !Z.add_0_l.
  destruct (Z.eqb_spec (Z.of_nat (length fp)) 0) as [|_]; [lia|]. simpl.
  destruct (Z2F_normal (Z.of_nat (length fp)) ltac:(lia)) as (m & e & Hn & _).
  split.
  - by apply (div_zero_l _ m e).
  - rewrite Z.mul_comm, Z2F_div_exact by lia. reflexivity.
Qed.

(** X18: when the merged ground-truth map has voxels but no lesion, the loop
    body never runs: nothing is detected or missed, and every nonzero
    predicted component is a false positive.  With at least one of them the
    lesion-wise Dice is exactly 0.0 and the lesion-wise HD95 exactly 374.0;
    with none both are NaN. *)
Theorem no_lesion_scores
    (robust_hausdorff95 : ndarray → ndarray → spacing → float)
    (shp : list nat) (pred gt : list Z) (zooms : spacing)
    (full_dice full_gt_vol full_pred_vol full_sens full_specs : float) :
  gt ≠ [] → Forall (λ x, x = 0) gt →
  ∃ acc fp,
    lesion_by_lesion robust_hausdorff95 shp pred gt zooms = inr (acc, fp) ∧
    acc = mk_matches [] [] [] [] ∧
    (∀ x, x ∈ fp ↔ x ∈ pred ∧ x ≠ 0) ∧
    let d := (tissue_metrics (mk_scores acc fp full_dice full_gt_vol full_pred_vol
                                full_sens full_specs)).2 in
    Num_FP d = length fp ∧
    (fp = [] → LesionWise_Score_Dice d = nan ∧ LesionWise_Score_HD95 d = nan) ∧
    (fp ≠ [] → Z.of_nat (length fp) * 374 < 2 ^ 53 →
       LesionWise_Score_Dice d = 0%float ∧ LesionWise_Score_HD95 d = 374%float).
Proof.
  intros Hne Hz.
  destruct (lesion_by_lesion_closed robust_hausdorff95 shp pred gt zooms 0
              (np_max_zeros _ Hne Hz)) as (rs & Hrs & ->).
  rewrite seqZ_nil in * by lia. apply Forall2_nil_inv_l in Hrs as ->.
  eexists _, _. split; [reflexivity|]. split; [reflexivity|]. split.
  - intros x. rewrite elem_of_unique, select_where, list_elem_of_filter.
    unfold not_isin. rewrite bool_decide_eq_true. simpl.
    rewrite list_elem_of_singleton. tauto.
  - cbv zeta. unfold tissue_metrics. cbn [snd Num_FP LesionWise_Score_Dice
      LesionWise_Score_HD95 lesions metric_pairs fp].
    split; [done|]. apply aggregates_without_lesion.
Qed.

Lemma no_lesion_scores_witness :
  ∃ acc fp,
    lesion_by_lesion example_hd95 [3%nat] [1; 0; 2] [0; 0; 0] example_zooms
      = inr (acc, fp) ∧
    acc = mk_matches [] [] [] [] ∧
    (∀ x, x ∈ fp ↔ x ∈ [1; 0; 2] ∧ x ≠ 0) ∧
    let d := (tissue_metrics (mk_scores acc fp nan 0 2 0 1)).2 in
    Num_FP d = length fp ∧
    (fp = [] → LesionWise_Score_Dice d = nan ∧ LesionWise_Score_HD95 d = nan) ∧
    (fp ≠ [] → Z.of_nat (length fp) * 374 < 2 ^ 53 →
       LesionWise_Score_Dice d = 0%float ∧ LesionWise_Score_HD95 d = 374%float).
Proof.
  apply (no_lesion_scores example_hd95 [3%nat] [1; 0; 2] [0; 0; 0] example_zooms
           nan 0 2 0 1).
  - discriminate.
  - repeat constructor.
Defined.

(** ** The path of the results file *)

Lemma rfind_lower s c : -1 ≤ rfind s c.
Proof.
  induction s as [|a s IH]; simpl; [lia|].
  destruct (Z.leb_spec 0 (rfind s c)); [lia|]. destruct (Ascii.eqb a c); lia.
Qed.

Lemma rfind_absent s c : ¬ occurs c s → rfind s c = -1.
Proof.
  unfold occurs. induction s as [|a s IH]; simpl; [done|].
  rewrite not_elem_of_cons. intros [Hne Hs]. rewrite IH by done. simpl.
  destruct (Ascii.eqb_spec a c); [congruence|done].
Qed.

Lemma rfind_last d c name :
  ¬ occurs c name → rfind (d +:+ String c name) c = Z.of_nat (String.length d).
Proof.
  intros Hname. induction d as [|a d IH].
  - simpl. rewrite rfind_absent by done. simpl. by rewrite Ascii.eqb_refl.
  - change (String a d +:+ String c name) with (String a (d +:+ String c name)).
    cbn [rfind String.length]. rewrite IH.
    destruct (Z.leb_spec 0 (Z.of_nat (String.length d))); lia.
Qed.

Lemma substring_prefix d rest :
  String.substring 0 (String.length d) (d +:+ rest) = d.
Proof.
  induction d as [|a d IH]; simpl; [by destruct rest|]. by rewrite IH.
Qed.

Lemma substring_all s : String.substring 0 (String.length s) s = s.
Proof. induction s as [|a s IH]; simpl; [done|]. by rewrite IH. Qed.

Lemma substring_suffix d rest :
  String.substring (String.length d) (String.length rest) (d +:+ rest) = rest.
Proof. induction d as [|a d IH]; simpl; [apply substring_all|done]. Qed.

Lemma length_app_string d rest :
  String.length (d +:+ rest) = (String.length d + String.length rest)%nat.
Proof. induction d as [|a d IH]; simpl; [done|]. by rewrite IH. Qed.

Lemma string_snoc s : s ≠ "" → ∃ s0 c, s = s0 +:+ String c "".
Proof.
  induction s as [|a s IH]; [done|]. intros _.
  destruct s as [|b s].
  - by exists "", a.
  - destruct IH as (s0 & c & Hs); [done|]. exists (String a s0), c. simpl. by rewrite Hs.
Qed.

Lemma rstrip_snoc s0 c sep :
  c ≠ sep → rstrip (s0 +:+ String c (String sep "")) sep = s0 +:+ String c "".
Proof.
  intros Hc. induction s0 as [|a s0 IH].
  - simpl. rewrite Ascii.eqb_refl. by destruct (Ascii.eqb_spec c sep).
  - change (String a s0 +:+ String c (String sep ""))
      with (String a (s0 +:+ String c (String sep ""))).
    cbn [rstrip]. rewrite IH. by destruct s0.
Qed.

Lemma not_str_repeat s0 c rest sep n :
  c ≠ sep → s0 +:+ String c rest ≠ str_repeat sep n.
Proof.
  intros Hc. revert n. induction s0 as [|a s0 IH]; intros [|n]; simpl; try done.
  - intros [= ? _]. done.
  - intros [= _ H]. by apply (IH n).
Qed.

Lemma os_path_split_bare name :
  ¬ occurs "/" name → os_path_split name = ("", name).
Proof.
  intros H. unfold os_path_split. rewrite rfind_absent by done.
  change (Z.to_nat (-1 + 1)) with 0%nat. cbv zeta.
  assert (String.substring 0 0 name = "") as -> by (by destruct name).
  rewrite Nat.sub_0_r, substring_all. by rewrite bool_decide_false by (by intros [? _]).
Qed.

Lemma app_string_snoc d a rest : d +:+ String a rest = (d +:+ String a "") +:+ rest.
Proof.
  induction d as [|b d IH]; [done|].
  change (String b (d +:+ String a rest) = String b ((d +:+ String a "") +:+ rest)).
  by rewrite IH.
Qed.

Lemma os_path_split_dir dir name :
  dir ≠ "" → (∀ d, dir ≠ d +:+ "/") → ¬ occurs "/" name →
  os_path_split (dir +:+ "/" +:+ name) = (dir, name).
Proof.
  intros Hne Hend Hname.
  destruct (string_snoc dir Hne) as (d0 & c & Hdir).
  assert (c ≠ "/"%char) as Hc by (intros ->; by apply (Hend d0)).
  unfold os_path_split. cbv zeta.
  change ("/" +:+ name) with (String "/" name).
  rewrite rfind_last by done.
  replace (Z.to_nat (Z.of_nat (String.length dir) + 1)) with (S (String.length dir)) by lia.
  assert (S (String.length dir) = String.length (dir +:+ "/")) as Hlen.
  { rewrite length_app_string. simpl. lia. }
  rewrite app_string_snoc, Hlen, substring_prefix.
  replace (String.length ((dir +:+ "/") +:+ name) - String.length (dir +:+ "/"))%nat
    with (String.length name) by (rewrite (length_app_string (dir +:+ "/")); lia).
  rewrite substring_suffix. f_equal.
  rewrite Hdir, <- app_string_snoc. rewrite bool_decide_true.
  - by apply rstrip_snoc.
  - split; [by destruct d0|]. by apply not_str_repeat.
Qed.

Lemma split_0_spec s c :
  ¬ occurs c (split_0 s c) ∧
  (s = split_0 s c ∨ ∃ rest, s = split_0 s c +:+ String c rest).
Proof.
  unfold occurs. induction s as [|a s [IH1 IH2]]; simpl.
  - split; [apply not_elem_of_nil|by left].
  - destruct (Ascii.eqb_spec a c) as [->|Hne]; simpl.
    + split; [apply not_elem_of_nil|]. right. by exists s.
    + split; [by apply not_elem_of_cons|].
      destruct IH2 as [IH2|[rest IH2]].
      * left. congruence.
      * right. exists rest.
        change (String a (split_0 s c) +:+ String c rest)
          with (String a (split_0 s c +:+ String c rest)). congruence.
Qed.

(** X19: for a prediction given by a bare file name (no slash), the head of
    the split path is empty and the report path starts with a slash: the
    report goes to the root directory, not to the directory the prediction
    is in. *)
Theorem results_csv_of_bare_name (name : string) :
  ¬ occurs "/" name →
  os_path_split name = ("", name) ∧
  results_csv name = "/" +:+ split_0 name "." +:+ "_results.csv".
Proof.
  intros H. pose proof (os_path_split_bare name H) as Hs.
  split; [done|]. unfold results_csv. by rewrite Hs.
Qed.

(** X20: for a prediction [dir/name] ([dir] not empty and not ending in a
    slash, [name] without slash), the report is written in [dir] under the
    part of [name] before its first dot, followed by [_results.csv].  That
    part has no dot and is a prefix of [name], so two predictions of one
    directory whose names agree up to their first dot share one report
    path. *)
Theorem results_csv_in_directory (dir name : string) :
  dir ≠ "" → (∀ d, dir ≠ d +:+ "/") → ¬ occurs "/" name →
  results_csv (dir +:+ "/" +:+ name) =
    dir +:+ "/" +:+ split_0 name "." +:+ "_results.csv" ∧
  ¬ occurs "." (split_0 name ".") ∧
  (name = split_0 name "." ∨ ∃ rest, name = split_0 name "." +:+ String "." rest) ∧
  (∀ name', ¬ occurs "/" name' → split_0 name' "." = split_0 name "." →
     results_csv (dir +:+ "/" +:+ name') = results_csv (dir +:+ "/" +:+ name)).
Proof.
  intros Hne Hend Hname.
  assert (Hpath : ∀ n, ¬ occurs "/" n →
            results_csv (dir +:+ "/" +:+ n) =
            dir +:+ "/" +:+ split_0 n "." +:+ "_results.csv").
  { intros n Hn. unfold results_csv. by rewrite os_path_split_dir. }
  destruct (split_0_spec name ".") as [H1 H2].
  split; [by apply Hpath|]. split; [done|]. split; [done|].
  intros name' Hname' Hstem. rewrite !Hpath by done. by rewrite Hstem.
Qed.

Lemma results_csv_of_bare_name_witness :
  os_path_split "case1.nii.gz" = ("", "case1.nii.gz") ∧
  results_csv "case1.nii.gz" = "/" +:+ split_0 "case1.nii.gz" "." +:+ "_results.csv".
Proof.
  apply (results_csv_of_bare_name "case1.nii.gz").
  unfold occurs. simpl. rewrite !not_elem_of_cons. repeat split; try discriminate.
  apply not_elem_of_nil.
Defined.

Lemma results_csv_in_directory_witness :
  results_csv ("out" +:+ "/" +:+ "case.1.nii") =
    "out" +:+ "/" +:+ split_0 "case.1.nii" "." +:+ "_results.csv" ∧
  ¬ occurs "." (split_0 "case.1.nii" ".") ∧
  ("case.1.nii" = split_0 "case.1.nii" "." ∨
   ∃ rest, "case.1.nii" = split_0 "case.1.nii" "." +:+ String "." rest) ∧
  (∀ name', ¬ occurs "/" name' → split_0 name' "." = split_0 "case.1.nii" "." →
     results_csv ("out" +:+ "/" +:+ name') = results_csv ("out" +:+ "/" +:+ "case.1.nii")).
Proof.
  apply (results_csv_in_directory "out" "case.1.nii").
  - discriminate.
  - intros [|a [|b [|c [|e d]]]]; discriminate.
  - unfold occurs. simpl. rewrite !not_elem_of_cons. repeat split; try discriminate.
    apply not_elem_of_nil.
Defined.

(** Two predictions of one directory whose reports overwrite each other. *)
Example results_csv_collision :
  results_csv "out/case.1.nii" = "out/case_results.csv" ∧
  results_csv "out/case.2.nii" = "out/case_results.csv".
Proof. split; reflexivity. Qed.

(** ** Whole-image values *)

Lemma counts_of_empty_target result target :
  length result = length target →
  Forall (λ x, x = 0) target →
  np.sum target = 0 ∧ count_both_one result target = 0.
Proof.
  unfold count_both_one. intros Hlen Ht. revert result Hlen.
  induction Ht as [|t ts -> _ IH]; intros [|r rs] Hlen; try done.
  cbn [length] in Hlen. destruct (IH rs ltac:(lia)) as [IH1 IH2].
  rewrite sum_cons. simpl zip. rewrite filter_cons. cbn [fst snd].
  rewrite decide_False by (by intros [_ ?]). split; [lia|done].
Qed.

(** X21: when the target mask is empty and the prediction mask is not (0/1
    masks of one size, fewer than 2^53 voxels), Sensitivity is exactly 0.0:
    the value 1.0 is substituted only when both masks are empty. *)
Theorem sensitivity_of_false_alarm (result target : list Z) :
  length result = length target →
  Forall (λ x, x = 0 ∨ x = 1) result →
  Forall (λ x, x = 0) target →
  0 < np.sum result →
  Z.of_nat (length result) < 2 ^ 53 →
  (get_sensitivity_and_specificity result target).1 = 0%float.
Proof.
  intros Hlen Hr Ht Hpos Hsize.
  pose proof (sum_mask_bounds _ Hr) as Hs.
  destruct (counts_of_empty_target _ _ Hlen Ht) as [H0 HTP].
  unfold get_sensitivity_and_specificity.
  rewrite TP_count_both_one, H0, HTP. cbn [fst].
  rewrite Z2F_eqb_zero by lia. rewrite bool_decide_false by lia. reflexivity.
Qed.

Lemma sensitivity_of_false_alarm_witness :
  (get_sensitivity_and_specificity example_result [0; 0; 0; 0]).1 = 0%float.
Proof.
  apply (sensitivity_of_false_alarm example_result [0; 0; 0; 0]).
  - reflexivity.
  - unfold example_result. repeat constructor; lia.
  - repeat constructor.
  - reflexivity.
  - reflexivity.
Defined.

Lemma sum_spec_mask t a : np.sum (spec_mask t a) = mask_size (spec_mask t a).
Proof.
  unfold spec_mask, mask_size. induction a as [|x a IH]; [done|].
  rewrite fmap_cons, sum_cons, IH, filter_cons.
  destruct (bool_decide (x ∈ spec_foreground t)).
  - rewrite decide_True by done. cbn [length]. lia.
  - rewrite decide_False by (intros H; by apply H). lia.
Qed.

(** X22: when [get_LesionWiseScores] returns for a tissue type WT, TC or ET,
    the header gave exactly three spacings, and the whole-image values it
    returns are those of the two tissue masks: the Dice score of the
    prediction's mask against the ground truth's, their sensitivity and
    specificity, and for each mask its number of foreground voxels times the
    three spacings. *)
Theorem full_image_scores
    (connected_components binary_dilation : list Z → list Z)
    (robust_hausdorff95 : ndarray → ndarray → spacing → float)
    (w : Z) (pred_nii gt_nii : ndarray) (zooms : list float) (label_value : string)
    (s : scores) :
  label_value ∈ label_values →
  get_LesionWiseScores connected_components binary_dilation robust_hausdorff95
    w pred_nii gt_nii zooms label_value = inr s →
  let pred_mask := spec_mask label_value (data pred_nii) in
  let gt_mask := spec_mask label_value (data gt_nii) in
  ∃ sx sy sz,
    zooms = [sx; sy; sz] ∧
    dice (mk_ndarray (shape pred_nii) pred_mask) (mk_ndarray (shape gt_nii) gt_mask)
      = inr (full_dice s) ∧
    get_sensitivity_and_specificity pred_mask gt_mask = (full_sens s, full_specs s) ∧
    full_gt_vol s = (Z2F (mask_size gt_mask) * sx * sy * sz)%float ∧
    full_pred_vol s = (Z2F (mask_size pred_mask) * sx * sy * sz)%float.
Proof.
  intros Ht Hs pred_mask gt_mask.
  rewrite get_LesionWiseScores_masks, !tissue_rule_spec in Hs by done.
  fold pred_mask gt_mask in Hs.
  destruct (unpack_zooms zooms) as [e|[[sx sy] sz]] eqn:Hu; [done|].
  apply unpack_zooms_inv in Hu. cbn [fst snd] in Hu.
  cbn [mbind result_bind] in Hs. exists sx, sy, sz. split; [done|].
  unfold score_masks in Hs.
  destruct (dice _ _) as [e|v]; [done|]. cbn [mbind result_bind] in Hs.
  destruct (get_sensitivity_and_specificity pred_mask gt_mask) as [se sp].
  destruct (get_GTseg_combinedByDilation _ _ _) as [e|merged]; [done|].
  cbn [mbind result_bind] in Hs.
  destruct (lesion_by_lesion _ _ _ _ _) as [e|[acc fp]]; [done|].
  cbn [mbind result_bind mret result_ret] in Hs. injection Hs as <-. simpl.
  unfold pred_mask, gt_mask. by rewrite !sum_spec_mask.
Qed.

Lemma full_image_scores_witness :
  ∃ s,
    get_LesionWiseScores example_components example_dilation example_hd95
      16 example_pred_nii example_gt_nii example_header_zooms "WT" = inr s ∧
    ∃ sx sy sz,
      example_header_zooms = [sx; sy; sz] ∧
      dice (mk_ndarray (shape example_pred_nii) (spec_mask "WT" (data example_pred_nii)))
           (mk_ndarray (shape example_gt_nii) (spec_mask "WT" (data example_gt_nii)))
        = inr (full_dice s) ∧
      get_sensitivity_and_specificity (spec_mask "WT" (data example_pred_nii))
        (spec_mask "WT" (data example_gt_nii)) = (full_sens s, full_specs s) ∧
      full_gt_vol s =
        (Z2F (mask_size (spec_mask "WT" (data example_gt_nii))) * sx * sy * sz)%float ∧
      full_pred_vol s =
        (Z2F (mask_size (spec_mask "WT" (data example_pred_nii))) * sx * sy * sz)%float.
Proof.
  eexists. split; [vm_compute; reflexivity|].
  refine (full_image_scores example_components example_dilation example_hd95
            16 example_pred_nii example_gt_nii example_header_zooms "WT" _ _ _).
  - unfold label_values. repeat constructor.
  - vm_compute. reflexivity.
Defined.
